(** * A shallow embedding of [advanced-vector/vector.h]

    The header defines [RawMemory<T>], an owner of raw storage, and
    [Vector<T>], a resizable array built on it.  The embedding keeps the
    three things the header keeps apart: the storage blocks (allocated,
    released), the element objects living in their slots (constructed,
    destroyed) and the [Vector] objects themselves (two machine words
    and a pointer).  Exceptions thrown by [operator new] or by the
    element type are outcomes of the monad [M]; a violated assertion or
    an access outside a block has no outcome at all. *)

From Stdlib Require Import ZArith Lia.
From stdpp Require Import base tactics option numbers list.

Local Open Scope Z_scope.

(** ** Machine integers *)

(** [size_t] on the 64-bit targets the header is written for. *)
Definition size_t_modulus : Z := 2 ^ 64.

(** Unsigned arithmetic is modulo [2^64]. *)
Definition wrap (z : Z) : Z := z mod size_t_modulus.

(** ** The element type [T]

    What the container asks of [T]: its size, the two type traits that
    [MOVE_OR_COPY_IF_NOEXCEPT] tests, the value [T()] builds, and the
    state a move leaves its source in (equal to the source for a type
    whose move is a copy, empty for a string or a handle). *)
Class ElemType (T : Type) := {
  sizeof : positive;
  is_nothrow_move_constructible : bool;
  is_copy_constructible : bool;
  value_initialized : T;
  moved_from : T → T;
}.

(** Calls into the element type and into the allocator, as an
    instrumented element type and allocator would record them. *)
Inductive event :=
  | DefaultCtor | CopyCtor | MoveCtor | Dtor | CopyAssign | MoveAssign
  | New (slots : nat) | Delete.

#[global] Instance event_eq_dec : EqDecision event.
Proof. solve_decision. Defined.

Inductive exn := bad_alloc | element_failure.

Inductive outcome (A : Type) :=
  | Ret (a : A)
  | Throw (e : exn).
Arguments Ret {A} a.
Arguments Throw {A} e.

(** [RawMemory<T>]: [buffer_] is [None] for [nullptr], otherwise the
    block it points to. *)
Record RawMemory := { buffer_ : option nat; capacity_ : Z }.

Record Vector := { data_ : RawMemory; size_ : Z }.

(** A [T*]: the block it points into ([None] for a pointer derived from
    [nullptr]) and the slot offset. *)
Definition ptr : Type := option nat * Z.

Definition ptr_add (p : ptr) (n : Z) : ptr := (p.1, p.2 + n).

Declare Scope M_scope.
Delimit Scope M_scope with M.

Section Model.
Context {T : Type} {ET : ElemType T}.

(** A block is a row of slots; a slot is raw ([None]) or holds a live
    object ([Some x]). *)
Local Abbreviation block := (list (option T)).

(** The program state.  [heap] lists every block ever allocated, in
    allocation order, [None] once released; [objects] does the same for
    the [Vector] objects, so that [this != &rhs] is a comparison of
    indices.  [plan] schedules the failures: each call that may throw
    takes the head of the list and throws when it is [true]; an
    exhausted plan lets every call succeed. *)
Record world := World {
  heap : list (option block);
  objects : list (option Vector);
  plan : list bool;
  log : list event;
}.

Definition upd_heap (f : list (option block) → list (option block)) (w : world) : world :=
  World (f (heap w)) (objects w) (plan w) (log w).

Definition upd_objects (f : list (option Vector) → list (option Vector)) (w : world) : world :=
  World (heap w) (f (objects w)) (plan w) (log w).

Definition M (A : Type) : Type := world → option (outcome A * world).

Definition ret {A} (a : A) : M A := λ w, Some (Ret a, w).

Definition throw {A} (e : exn) : M A := λ w, Some (Throw e, w).

(** Undefined behaviour: a failed [assert], a dereference outside a
    block or of a slot holding no object. *)
Definition undefined {A} : M A := λ _, None.

Definition bind {A B} (m : M A) (f : A → M B) : M B := λ w,
  match m w with
  | Some (Ret a, w') => f a w'
  | Some (Throw e, w') => Some (Throw e, w')
  | None => None
  end.

(** Stack unwinding: when [m] throws, [cleanup] (the destructors of the
    locals in scope, or the [catch (...)] block of a library algorithm)
    runs and the exception continues.  A cleanup that throws would call
    [std::terminate]. *)
Definition unwinding {A} (m : M A) (cleanup : M unit) : M A := λ w,
  match m w with
  | Some (Throw e, w') =>
      match cleanup w' with
      | Some (Ret _, w'') => Some (Throw e, w'')
      | _ => None
      end
  | r => r
  end.

Definition assert (b : bool) : M unit := if b then ret tt else undefined.

Definition record (e : event) : M unit := λ w,
  Some (Ret tt, World (heap w) (objects w) (plan w) (log w ++ [e])).

(** A call that may throw [e]. *)
Definition fallible (e : exn) : M unit := λ w,
  match plan w with
  | true :: pl => Some (Throw e, World (heap w) (objects w) pl (log w))
  | false :: pl => Some (Ret tt, World (heap w) (objects w) pl (log w))
  | [] => Some (Ret tt, w)
  end.

Notation "x ← m ; k" := (bind m (λ x, k))
  (at level 20, m at level 100, k at level 200, only parsing) : M_scope.
Notation "m ;; k" := (bind m (λ _, k))
  (at level 100, k at level 200, right associativity, only parsing) : M_scope.
Local Open Scope M_scope.

(** ** Memory *)

Definition get_slot (w : world) (p : ptr) : option (option T) :=
  match p.1 with
  | Some l =>
      match heap w !! l with
      | Some (Some b) => if 0 <=? p.2 then b !! Z.to_nat p.2 else None
      | _ => None
      end
  | None => None
  end.

(** Overwrites the slot [p] points to; the slot must exist. *)
Definition set_slot (p : ptr) (s : option T) : M unit := λ w,
  match p.1 with
  | Some l =>
      match heap w !! l with
      | Some (Some b) =>
          if (0 <=? p.2) && (p.2 <? Z.of_nat (length b))
          then Some (Ret tt, upd_heap (<[l := Some (<[Z.to_nat p.2 := s]> b)]>) w)
          else None
      | _ => None
      end
  | None => None
  end.

(** Reads the object [p] points to; there must be one. *)
Definition load (p : ptr) : M T := λ w,
  match get_slot w p with
  | Some (Some x) => Some (Ret x, w)
  | _ => None
  end.

(** [::operator new(bytes)]: a fresh block, of as many slots as fit. *)
Definition operator_new (bytes : Z) : M (option nat) :=
  fallible bad_alloc;;
  let slots := Z.to_nat (bytes / Z.pos sizeof) in
  record (New slots);;
  λ w, Some (Ret (Some (length (heap w))),
             upd_heap (λ h, h ++ [Some (replicate slots None)]) w).

(** [::operator delete(buf)]: nothing for [nullptr]; releasing a block
    twice is undefined. *)
Definition operator_delete (buf : option nat) : M unit :=
  match buf with
  | None => ret tt
  | Some l =>
      record Delete;;
      λ w, match heap w !! l with
           | Some (Some _) => Some (Ret tt, upd_heap (<[l := None]>) w)
           | _ => None
           end
  end.

(** ** The element type's operations *)

(** [::new (p) T(x)] with [x] an lvalue. *)
Definition construct_copy (p : ptr) (x : T) : M unit :=
  fallible element_failure;; set_slot p (Some x);; record CopyCtor.

(** [T]'s move constructor cannot throw when the trait says so. *)
Definition move_may_throw : M unit :=
  if is_nothrow_move_constructible then ret tt else fallible element_failure.

(** [::new (p) T(std::move( *src ))]. *)
Definition construct_move (p src : ptr) : M unit :=
  x ← load src;
  move_may_throw;;
  set_slot p (Some x);; set_slot src (Some (moved_from x));; record MoveCtor.

(** [::new (p) T()]. *)
Definition construct_value (p : ptr) : M unit :=
  fallible element_failure;; set_slot p (Some value_initialized);; record DefaultCtor.

(** [std::destroy_at(p)]; destructors do not throw. *)
Definition destroy_at (p : ptr) : M unit :=
  _ ← load p; set_slot p None;; record Dtor.

(** [*dst = *src]. *)
Definition assign_copy (dst src : ptr) : M unit :=
  x ← load src; _ ← load dst;
  fallible element_failure;; set_slot dst (Some x);; record CopyAssign.

(** [*dst = std::move( *src )]. *)
Definition assign_move (dst src : ptr) : M unit :=
  x ← load src; _ ← load dst;
  fallible element_failure;;
  set_slot dst (Some x);; set_slot src (Some (moved_from x));; record MoveAssign.

(** The arguments [Emplace] forwards to [T]'s constructor: an lvalue
    (from [Insert(pos, const T&)] and [PushBack(const T&)]) or an rvalue
    (from the [T&&] overloads), in both cases an object of the caller's
    that is not an element of the vector itself. *)
Inductive ctor_args :=
  | lvalue (x : T)
  | rvalue (x : T).

Definition arg_value (a : ctor_args) : T :=
  match a with lvalue x | rvalue x => x end.

(** [std::construct_at(p, std::forward<Args>(args)...)]. *)
Definition construct_at (p : ptr) (a : ctor_args) : M unit :=
  match a with
  | lvalue x => construct_copy p x
  | rvalue x => move_may_throw;; set_slot p (Some x);; record MoveCtor
  end.

(** [T temp(std::forward<Args>(args)...)], an object on the stack. *)
Definition construct_temp (a : ctor_args) : M T :=
  match a with
  | lvalue x => fallible element_failure;; record CopyCtor;; ret x
  | rvalue x => move_may_throw;; record MoveCtor;; ret x
  end.

(** [*dst = std::move(temp)]. *)
Definition assign_move_temp (dst : ptr) (temp : T) : M T :=
  _ ← load dst;
  fallible element_failure;;
  set_slot dst (Some temp);; record MoveAssign;; ret (moved_from temp).

(** ** Algorithms of the standard library, as the standard gives them *)

(** [std::uninitialized_copy_n]: on a throw, the objects it built are
    destroyed before the exception leaves. *)
Fixpoint uninitialized_copy_n (first : ptr) (count : nat) (d_first : ptr) : M unit :=
  match count with
  | O => ret tt
  | S n =>
      x ← load first;
      construct_copy d_first x;;
      unwinding (uninitialized_copy_n (ptr_add first 1) n (ptr_add d_first 1))
                (destroy_at d_first)
  end.

(** [std::uninitialized_move_n]. *)
Fixpoint uninitialized_move_n (first : ptr) (count : nat) (d_first : ptr) : M unit :=
  match count with
  | O => ret tt
  | S n =>
      construct_move d_first first;;
      unwinding (uninitialized_move_n (ptr_add first 1) n (ptr_add d_first 1))
                (destroy_at d_first)
  end.

(** [std::uninitialized_value_construct_n]. *)
Fixpoint uninitialized_value_construct_n (first : ptr) (count : nat) : M unit :=
  match count with
  | O => ret tt
  | S n =>
      construct_value first;;
      unwinding (uninitialized_value_construct_n (ptr_add first 1) n)
                (destroy_at first)
  end.

(** [std::destroy_n]. *)
Fixpoint destroy_n (first : ptr) (count : nat) : M unit :=
  match count with
  | O => ret tt
  | S n => destroy_at first;; destroy_n (ptr_add first 1) n
  end.

(** [std::copy(first, first + count, d_first)]. *)
Fixpoint std_copy (first : ptr) (count : nat) (d_first : ptr) : M unit :=
  match count with
  | O => ret tt
  | S n => assign_copy d_first first;; std_copy (ptr_add first 1) n (ptr_add d_first 1)
  end.

(** [std::move(first, first + count, d_first)]. *)
Fixpoint std_move (first : ptr) (count : nat) (d_first : ptr) : M unit :=
  match count with
  | O => ret tt
  | S n => assign_move d_first first;; std_move (ptr_add first 1) n (ptr_add d_first 1)
  end.

(** [std::move_backward(last - count, last, d_last)]: from the back. *)
Fixpoint std_move_backward (last : ptr) (count : nat) (d_last : ptr) : M unit :=
  match count with
  | O => ret tt
  | S n =>
      assign_move (ptr_add d_last (-1)) (ptr_add last (-1));;
      std_move_backward (ptr_add last (-1)) n (ptr_add d_last (-1))
  end.

(** The number of elements of the range [[first, last)]. *)
Definition distance (first last : ptr) : nat := Z.to_nat (last.2 - first.2).

Definition MOVE_OR_COPY_IF_NOEXCEPT (old_begin new_begin : ptr) (count : Z) : M unit :=
  if is_nothrow_move_constructible || negb is_copy_constructible
  then uninitialized_move_n old_begin (Z.to_nat count) new_begin
  else uninitialized_copy_n old_begin (Z.to_nat count) new_begin.

(** ** [RawMemory<T>] *)

(** [Allocate(n)]: [n * sizeof(T)] is computed in [size_t]. *)
Definition Allocate (n : Z) : M (option nat) :=
  if n =? 0 then ret None else operator_new (wrap (n * Z.pos sizeof)).

Definition Deallocate (buf : option nat) : M unit := operator_delete buf.

(** [RawMemory()]. *)
Definition RawMemory_default : RawMemory := {| buffer_ := None; capacity_ := 0 |}.

(** [RawMemory(size_t capacity)]. *)
Definition RawMemory_sized (capacity : Z) : M RawMemory :=
  buffer ← Allocate capacity;
  ret {| buffer_ := buffer; capacity_ := capacity |}.

(** [RawMemory(RawMemory&& other)]: the new object and what is left of
    [other]. *)
Definition RawMemory_move (other : RawMemory) : RawMemory * RawMemory :=
  ({| buffer_ := buffer_ other; capacity_ := capacity_ other |}, RawMemory_default).

(** [operator=(RawMemory&& other)] on two objects known to be distinct
    or not ([same] is [this == &other]): the two objects afterwards. *)
Definition RawMemory_move_assign (same : bool) (this other : RawMemory) : M (RawMemory * RawMemory) :=
  if same then ret (this, other) else
    (match buffer_ this with
     | Some _ => Deallocate (buffer_ this)
     | None => ret tt
     end);;
    ret ({| buffer_ := buffer_ other; capacity_ := capacity_ other |}, RawMemory_default).

(** [~RawMemory()]. *)
Definition RawMemory_dtor (this : RawMemory) : M unit := Deallocate (buffer_ this).

Definition RawMemory_Swap (this other : RawMemory) : RawMemory * RawMemory := (other, this).

Definition GetAddress (this : RawMemory) : ptr := (buffer_ this, 0).

Definition RawMemory_Capacity (this : RawMemory) : Z := capacity_ this.

(** [operator+(offset)], with its assertion. *)
Definition RawMemory_plus (this : RawMemory) (offset : Z) : M ptr :=
  assert (offset <=? capacity_ this);; ret (ptr_add (GetAddress this) offset).

(** [operator[](index)], with its assertion: a reference to the slot. *)
Definition RawMemory_at (this : RawMemory) (index : Z) : M ptr :=
  assert (index <? capacity_ this);; ret (ptr_add (GetAddress this) index).

(** ** [Vector<T>]

    A [Vector] object is named by its index in [objects]. *)

Definition get_vector (this : nat) : M Vector := λ w,
  match objects w !! this with
  | Some (Some v) => Some (Ret v, w)
  | _ => None
  end.

Definition set_vector (this : nat) (v : Vector) : M unit :=
  _ ← get_vector this;
  λ w, Some (Ret tt, upd_objects (<[this := Some v]>) w).

(** A constructor has run to completion: the object exists. *)
Definition new_vector (v : Vector) : M nat := λ w,
  Some (Ret (length (objects w)), upd_objects (λ o, o ++ [Some v]) w).

Definition delete_vector (this : nat) : M unit :=
  _ ← get_vector this;
  λ w, Some (Ret tt, upd_objects (<[this := None]>) w).

Definition begin_ (v : Vector) : ptr := GetAddress (data_ v).

Definition end_ (v : Vector) : ptr := ptr_add (GetAddress (data_ v)) (size_ v).

(** [Vector()]. *)
Definition Vector_default : M nat :=
  new_vector {| data_ := RawMemory_default; size_ := 0 |}.


(** [Vector(const Vector& other)]. *)
Definition Vector_copy (other : nat) : M nat :=
  o ← get_vector other;
  data ← RawMemory_sized (size_ o);
  unwinding (uninitialized_copy_n (GetAddress (data_ o)) (Z.to_nat (size_ o)) (GetAddress data))
            (RawMemory_dtor data);;
  new_vector {| data_ := data; size_ := size_ o |}.

(** [Vector(Vector&& other)]. *)
Definition Vector_move (other : nat) : M nat :=
  o ← get_vector other;
  let '(data, other_data) := RawMemory_move (data_ o) in
  set_vector other {| data_ := other_data; size_ := 0 |};;
  new_vector {| data_ := data; size_ := size_ o |}.

(** [~Vector()], then the destructor of the member [data_]. *)
Definition Vector_dtor (this : nat) : M unit :=
  v ← get_vector this;
  destroy_n (GetAddress (data_ v)) (Z.to_nat (size_ v));;
  RawMemory_dtor (data_ v);;
  delete_vector this.

Definition Swap (this other : nat) : M unit :=
  v ← get_vector this;
  o ← get_vector other;
  let '(data, other_data) := RawMemory_Swap (data_ v) (data_ o) in
  set_vector this {| data_ := data; size_ := size_ o |};;
  set_vector other {| data_ := other_data; size_ := size_ v |}.

(** [operator=(const Vector& rhs)]. *)
Definition operator_assign_copy (this rhs : nat) : M unit :=
  if bool_decide (this = rhs) then ret tt else
    v ← get_vector this;
    r ← get_vector rhs;
    if RawMemory_Capacity (data_ v) <? size_ r then
      tmp ← Vector_copy rhs;
      Swap this tmp;;
      Vector_dtor tmp
    else
      let left := GetAddress (data_ v) in
      let right := GetAddress (data_ r) in
      (if size_ v <? size_ r then
         std_copy right (distance right (ptr_add right (size_ v))) left;;
         uninitialized_copy_n (ptr_add right (size_ v))
           (distance (ptr_add right (size_ v)) (ptr_add right (size_ r)))
           (ptr_add left (size_ v))
       else
         std_copy right (distance right (ptr_add right (size_ r))) left;;
         destroy_n (ptr_add left (size_ r)) (Z.to_nat (size_ v - size_ r)));;
      set_vector this {| data_ := data_ v; size_ := size_ r |}.

(** [operator=(Vector&& rhs)]. *)
Definition operator_assign_move (this rhs : nat) : M unit :=
  if bool_decide (this = rhs) then ret tt else
    v ← get_vector this;
    r ← get_vector rhs;
    d ← RawMemory_move_assign false (data_ v) (data_ r);
    set_vector this {| data_ := d.1; size_ := size_ r |};;
    set_vector rhs {| data_ := d.2; size_ := 0 |}.

Definition Reserve (this : nat) (new_capacity : Z) : M unit :=
  v ← get_vector this;
  if new_capacity <=? RawMemory_Capacity (data_ v) then ret tt else
    new_data ← RawMemory_sized new_capacity;
    let new_begin := GetAddress new_data in
    let old_begin := GetAddress (data_ v) in
    unwinding (MOVE_OR_COPY_IF_NOEXCEPT old_begin new_begin (size_ v))
              (RawMemory_dtor new_data);;
    destroy_n old_begin (Z.to_nat (size_ v));;
    (* data_.Swap(new_data), then new_data goes out of scope *)
    let '(data, new_data) := RawMemory_Swap (data_ v) new_data in
    set_vector this {| data_ := data; size_ := size_ v |};;
    RawMemory_dtor new_data.

Definition Resize (this : nat) (new_size : Z) : M unit :=
  v0 ← get_vector this;
  (if RawMemory_Capacity (data_ v0) <? new_size then Reserve this new_size else ret tt);;
  v ← get_vector this;
  (if size_ v <? new_size then
     uninitialized_value_construct_n (ptr_add (GetAddress (data_ v)) (size_ v))
       (Z.to_nat (new_size - size_ v))
   else
     destroy_n (ptr_add (GetAddress (data_ v)) new_size) (Z.to_nat (size_ v - new_size)));;
  set_vector this {| data_ := data_ v; size_ := new_size |}.

(** [pos >= begin() && pos <= end()], for pointers into one array. *)
Definition in_range (v : Vector) (pos : ptr) (inclusive : bool) : bool :=
  bool_decide (pos.1 = (begin_ v).1) && (0 <=? pos.2)
  && (if inclusive then pos.2 <=? size_ v else pos.2 <? size_ v).

Definition Emplace (this : nat) (pos : ptr) (args : ctor_args) : M ptr :=
  v ← get_vector this;
  assert (in_range v pos true);;
  let insert_index := pos.2 - (begin_ v).2 in
  if size_ v <? RawMemory_Capacity (data_ v) then
    let insert_pos := ptr_add (begin_ v) insert_index in
    (if insert_index =? size_ v then
       construct_at (ptr_add (GetAddress (data_ v)) (size_ v)) args
     else
       temp ← construct_temp args;
       temp ← unwinding
         (last ← RawMemory_at (data_ v) (wrap (size_ v - 1));
          construct_move (ptr_add (GetAddress (data_ v)) (size_ v)) last;;
          std_move_backward (ptr_add (end_ v) (-1))
            (distance insert_pos (ptr_add (end_ v) (-1))) (end_ v);;
          assign_move_temp insert_pos temp)
         (record Dtor);
       (* temp goes out of scope *)
       record Dtor);;
    set_vector this {| data_ := data_ v; size_ := wrap (size_ v + 1) |};;
    ret (ptr_add (begin_ v) insert_index)
  else
    new_data ← RawMemory_sized (if size_ v =? 0 then 1 else wrap (2 * size_ v));
    let new_begin := GetAddress new_data in
    let old_begin := GetAddress (data_ v) in
    let new_insert_pos := ptr_add new_begin insert_index in
    unwinding
      (MOVE_OR_COPY_IF_NOEXCEPT old_begin new_begin insert_index;;
       construct_at new_insert_pos args;;
       MOVE_OR_COPY_IF_NOEXCEPT (ptr_add old_begin insert_index)
         (ptr_add new_insert_pos 1) (size_ v - insert_index))
      (RawMemory_dtor new_data);;
    destroy_n old_begin (Z.to_nat (size_ v));;
    (* data_.Swap(new_data); ++size_; new_data goes out of scope *)
    let '(data, new_data) := RawMemory_Swap (data_ v) new_data in
    set_vector this {| data_ := data; size_ := wrap (size_ v + 1) |};;
    RawMemory_dtor new_data;;
    ret new_insert_pos.

(** [begin()] and [end()]. *)
Definition Vector_begin (this : nat) : M ptr :=
  v ← get_vector this; ret (begin_ v).

Definition Vector_end (this : nat) : M ptr :=
  v ← get_vector this; ret (end_ v).

(** [EmplaceBack(args...)]: a reference to the new element. *)
Definition EmplaceBack (this : nat) (args : ctor_args) : M ptr :=
  v ← get_vector this;
  Emplace this (end_ v) args.

(** [PushBack(const T& elem)]. *)
Definition PushBack (this : nat) (elem : T) : M unit :=
  EmplaceBack this (lvalue elem);; ret tt.

(** [PushBack(T&& elem)]. *)
Definition PushBack_move (this : nat) (elem : T) : M unit :=
  EmplaceBack this (rvalue elem);; ret tt.

(** [Insert(pos, const T& value)]. *)
Definition Insert (this : nat) (pos : ptr) (value : T) : M ptr :=
  Emplace this pos (lvalue value).

(** [Insert(pos, T&& value)]. *)
Definition Insert_move (this : nat) (pos : ptr) (value : T) : M ptr :=
  Emplace this pos (rvalue value).

Definition PopBack (this : nat) : M unit :=
  v ← get_vector this;
  assert (0 <? size_ v);;
  destroy_at (ptr_add (GetAddress (data_ v)) (size_ v - 1));;
  set_vector this {| data_ := data_ v; size_ := size_ v - 1 |}.

Definition Erase (this : nat) (pos : ptr) : M ptr :=
  v ← get_vector this;
  assert (in_range v pos false);;
  let non_const_pos := pos in
  std_move (ptr_add non_const_pos 1) (distance (ptr_add non_const_pos 1) (end_ v)) non_const_pos;;
  PopBack this;;
  ret non_const_pos.

Definition Size (this : nat) : M Z :=
  v ← get_vector this; ret (size_ v).

Definition Capacity (this : nat) : M Z :=
  v ← get_vector this; ret (RawMemory_Capacity (data_ v)).

(** [operator[](index)]: a reference to the element. *)
Definition Vector_at (this : nat) (index : Z) : M ptr :=
  v ← get_vector this;
  assert ((0 <=? index) && (index <? size_ v));;
  RawMemory_at (data_ v) index.

(** ** A client of the container *)

(** Appends [elems] one at a time with [PushBack] and reports the
    capacities seen at the growth points, that is after each append
    that changed the capacity. *)
Fixpoint append_all (this : nat) (elems : list T) : M (list Z) :=
  match elems with
  | [] => ret []
  | x :: rest =>
      before ← Capacity this;
      PushBack this x;;
      after ← Capacity this;
      caps ← append_all this rest;
      ret (if before =? after then caps else after :: caps)
  end.

(** [v[index] = x] for a value [x] of the caller's. *)
Definition store (p : ptr) (x : T) : M unit :=
  _ ← load p;
  fallible element_failure;; set_slot p (Some x);; record CopyAssign.

(** The operations by which a caller changes one vector. *)
Inductive mutation :=
  | mut_Reserve (n : Z)
  | mut_Resize (n : Z)
  | mut_PushBack (x : T)
  | mut_PushBack_move (x : T)
  | mut_Emplace (index : Z) (a : ctor_args)
  | mut_Erase (index : Z)
  | mut_PopBack
  | mut_store (index : Z) (x : T).

Definition mutate (this : nat) (m : mutation) : M unit :=
  match m with
  | mut_Reserve n => Reserve this n
  | mut_Resize n => Resize this n
  | mut_PushBack x => PushBack this x
  | mut_PushBack_move x => PushBack_move this x
  | mut_Emplace i a => first ← Vector_begin this; Emplace this (ptr_add first i) a;; ret tt
  | mut_Erase i => first ← Vector_begin this; Erase this (ptr_add first i);; ret tt
  | mut_PopBack => PopBack this
  | mut_store i x => p ← Vector_at this i; store p x
  end.

(** [try { m } catch (...) { }]. *)
Definition attempt (m : M unit) : M unit := λ w,
  match m w with
  | Some (Throw _, w') => Some (Ret tt, w')
  | r => r
  end.

(** A sequence of mutations, each in a [try] block of its own. *)
Fixpoint mutate_all (this : nat) (ms : list mutation) : M unit :=
  match ms with
  | [] => ret tt
  | m :: rest => attempt (mutate this m);; mutate_all this rest
  end.

(** The same state with another failure plan. *)
Definition with_plan (pl : list bool) (w : world) : world :=
  World (heap w) (objects w) pl (log w).

(** ** Observing a vector *)

(** The slots [0 .. n) of a block when all of them hold an object. *)
Fixpoint live_prefix (n : nat) (b : block) : option (list T) :=
  match n, b with
  | O, _ => Some []
  | S n', Some x :: b' => cons x <$> live_prefix n' b'
  | S _, _ => None
  end.

(** The elements of vector [this], read through [operator[]] for the
    indices [0 .. Size()). *)
Definition elements (w : world) (this : nat) : option (list T) :=
  match objects w !! this with
  | Some (Some v) =>
      match buffer_ (data_ v) with
      | None => if size_ v =? 0 then Some [] else None
      | Some l =>
          match heap w !! l with
          | Some (Some b) => live_prefix (Z.to_nat (size_ v)) b
          | _ => None
          end
      end
  | _ => None
  end.

End Model.

(** ** Element types used in the scenarios below *)

(** [int]-like: trivially copyable. *)
Definition int_like : ElemType Z :=
  {| sizeof := 4; is_nothrow_move_constructible := true; is_copy_constructible := true;
     value_initialized := 0; moved_from := λ x, x |}.

(** A class with user-written copy operations that may throw and no move
    operations: moving it copies it. *)
Definition copy_only : ElemType Z :=
  {| sizeof := 8; is_nothrow_move_constructible := false; is_copy_constructible := true;
     value_initialized := 0; moved_from := λ x, x |}.

(** A string-like class: [noexcept] move that empties the source. *)
Definition string_like : ElemType (option Z) :=
  {| sizeof := 32; is_nothrow_move_constructible := true; is_copy_constructible := true;
     value_initialized := None; moved_from := λ _, None |}.


(** ** States used in the scenarios below *)

Definition empty_world {T} : @world T := World [] [] [] [].

(** One vector, object 0, owning block 0. *)
Definition one_vector {T} (slots : list (option T)) (size : Z) (pl : list bool) : @world T :=
  World [Some slots]
        [Some {| data_ := {| buffer_ := Some 0%nat; capacity_ := Z.of_nat (length slots) |};
                 size_ := size |}]
        pl [].

(** Two vectors, objects 0 and 1, owning blocks 0 and 1. *)
Definition two_vectors {T} (xs ys : list T) : @world T :=
  World [Some (Some <$> xs); Some (Some <$> ys)]
        [Some {| data_ := {| buffer_ := Some 0%nat; capacity_ := Z.of_nat (length xs) |};
                 size_ := Z.of_nat (length xs) |};
         Some {| data_ := {| buffer_ := Some 1%nat; capacity_ := Z.of_nat (length ys) |};
                 size_ := Z.of_nat (length ys) |}]
        [] [].


(** ** Representation of a vector in the program state *)

Section Representation.
Context {T : Type} {ET : ElemType T}.

(** The block of a vector holding [xs] with room for [cap] elements:
    live objects in the slots [0 .. length xs), raw memory behind. *)
Definition block_of (xs : list T) (cap : Z) : list (option T) :=
  (Some <$> xs) ++ replicate (Z.to_nat cap - length xs)%nat None.

(** Vector [this] is in a valid state, holds [xs] and has capacity
    [cap]: the state invariant of the container together with its
    abstract value. *)
Definition holds (w : world) (this : nat) (xs : list T) (cap : Z) : Prop :=
  ∃ v, objects w !! this = Some (Some v) ∧
       size_ v = Z.of_nat (length xs) ∧
       capacity_ (data_ v) = cap ∧
       Z.of_nat (length xs) ≤ cap ∧
       cap * Z.pos sizeof < size_t_modulus ∧
       match buffer_ (data_ v) with
       | None => cap = 0
       | Some l => 0 < cap ∧ heap w !! l = Some (Some (block_of xs cap))
       end.

(** The block vector [this] points to, and the number of its slots. *)
Definition buffer_of (w : @world T) (this : nat) : option nat :=
  match objects w !! this with
  | Some (Some v) => buffer_ (data_ v)
  | _ => None
  end.

Definition slots_of (w : @world T) (this : nat) : option nat :=
  match buffer_of w this with
  | Some l =>
      match heap w !! l with
      | Some (Some b) => Some (length b)
      | _ => None
      end
  | None => None
  end.

(** The constructor [construct_at] selects for its arguments. *)
Definition ctor_event (a : @ctor_args T) : event :=
  match a with lvalue _ => CopyCtor | rvalue _ => MoveCtor end.

(** The values of the slots a backward move leaves behind: the range
    [ys] followed by one more object [z] becomes the moved-from first
    element followed by [ys]. *)
Definition shifted_right (ys : list T) (z : T) : list T :=
  match ys with
  | [] => [z]
  | y :: _ => moved_from y :: ys
  end.

(** The same for a forward move: the object [z] followed by the range
    [ys] becomes [ys] followed by the moved-from last element. *)
Definition shifted_left (z : T) (ys : list T) : list T :=
  match last ys with
  | None => [z]
  | Some y => ys ++ [moved_from y]
  end.

(** The event that relocating one element leaves in the log. *)
Definition relocation_event : event :=
  if is_nothrow_move_constructible || negb is_copy_constructible then MoveCtor else CopyCtor.

(** The old elements after [k] of them were relocated. *)
Definition relocated_from (k : nat) (xs : list T) : list T :=
  if is_nothrow_move_constructible || negb is_copy_constructible
  then (moved_from <$> take k xs) ++ drop k xs
  else xs.

Definition count (e : event) (l : list event) : nat :=
  length (filter (λ e', e' = e) l).

(** Constructor and destructor calls in a log. *)
Definition constructions (l : list event) : nat :=
  (count DefaultCtor l + count CopyCtor l + count MoveCtor l)%nat.

Definition destructions (l : list event) : nat := count Dtor l.

(** What releasing the old storage leaves in the log: [operator delete]
    is called for a vector that owned a block. *)
Definition release_events (cap : Z) : list event :=
  if cap =? 0 then [] else [Delete].

(** What the plan holds for the next call that may throw, and for the
    next call of [T]'s move constructor. *)
Definition next_fails (p : list bool) : bool :=
  match p with true :: _ => true | _ => false end.

Definition move_fails (p : list bool) : bool :=
  negb is_nothrow_move_constructible && next_fails p.

Definition after_move (p : list bool) : list bool :=
  if is_nothrow_move_constructible then p else tail p.

(** The capacity after an insertion into a vector of [n] elements and
    capacity [cap]. *)
Definition grown (n cap : Z) : Z :=
  if n <? cap then cap else Z.max 1 (2 * cap).

(** The log of a successful [Emplace] at index [i] of [n] elements. *)
Definition emplace_events (n : nat) (cap : Z) (i : nat) (a : @ctor_args T) : list event :=
  if Z.of_nat n <? cap then
    if Nat.eqb i n then [ctor_event a]
    else [ctor_event a; MoveCtor] ++ replicate (n - 1 - i) MoveAssign ++ [MoveAssign; Dtor]
  else
    [New (Z.to_nat (Z.max 1 (2 * cap)))] ++ replicate i relocation_event ++ [ctor_event a]
      ++ replicate (n - i) relocation_event ++ replicate n Dtor ++ release_events cap.

(** The capacities at the growth points of [k] appends to a vector of
    [size] elements and capacity [cap], by the growth rule alone. *)
Fixpoint growth_trace (k : nat) (size cap : Z) : list Z :=
  match k with
  | O => []
  | S k' =>
      let cap' := grown size cap in
      (if cap =? cap' then [] else [cap']) ++ growth_trace k' (size + 1) cap'
  end.

Definition pow2 (k : nat) : Z := 2 ^ Z.of_nat k.

(** The block [base] is not the one the vector [va] owns. *)
Definition away_from (va : Vector) (base : option nat) : Prop :=
  ∀ lc, base = Some lc → buffer_ (data_ va) ≠ Some lc.

(** Object [a] is the vector [va], the block it owns holds [Ba], and
    vector [b] does not point into that block. *)
Definition apart_from (a b : nat) (va : Vector) (Ba : list (option T)) (w : @world T) : Prop :=
  objects w !! a = Some (Some va) ∧
  (∀ lc, buffer_ (data_ va) = Some lc → heap w !! lc = Some (Some Ba)) ∧
  (∀ vb, objects w !! b = Some (Some vb) → away_from va (buffer_ (data_ vb))).

(** [m] keeps [a] and [b] apart, whether it returns or throws, and
    returns only values that satisfy [R]. *)
Definition preserves_apart (a b : nat) (va : Vector) (Ba : list (option T))
    {A} (m : M A) (R : A → Prop) : Prop :=
  ∀ w r w', apart_from a b va Ba w → m w = Some (r, w') →
    apart_from a b va Ba w' ∧ ∀ x, r = Ret x → R x.

(** ** The vector as a list with a capacity *)

(** A block of [n] elements can be asked of [operator new]: its byte
    count does not wrap. *)
Definition fits (n : Z) : bool := n * Z.pos sizeof <? size_t_modulus.

(** The elements after [Resize(n)]: the first [n] of them, then as many
    value-initialized ones as are missing. *)
Definition resized (n : nat) (xs : list T) : list T :=
  take n xs ++ replicate (n - length xs) value_initialized.

(** What a mutation does to the elements and to the capacity when it is
    called within its precondition and nothing throws; [None] outside
    the precondition, or when the storage it needs cannot be
    addressed. *)
Definition mutate_list (m : @mutation T) (xs : list T) (cap : Z) : option (list T * Z) :=
  let n := Z.of_nat (length xs) in
  match m with
  | mut_Reserve k =>
      if k <=? cap then Some (xs, cap)
      else if fits k then Some (xs, k) else None
  | mut_Resize k =>
      if (0 <=? k) && ((k <=? cap) || fits k)
      then Some (resized (Z.to_nat k) xs, Z.max cap k)
      else None
  | mut_PushBack x | mut_PushBack_move x =>
      if fits (grown n cap) then Some (xs ++ [x], grown n cap) else None
  | mut_Emplace i a =>
      if (0 <=? i) && (i <=? n) && fits (grown n cap)
      then Some (take (Z.to_nat i) xs ++ arg_value a :: drop (Z.to_nat i) xs, grown n cap)
      else None
  | mut_Erase i =>
      if (0 <=? i) && (i <? n) then Some (delete (Z.to_nat i) xs, cap) else None
  | mut_PopBack =>
      if 0 <? n then Some (take (length xs - 1) xs, cap) else None
  | mut_store i x =>
      if (0 <=? i) && (i <? n) then Some (<[Z.to_nat i := x]> xs, cap) else None
  end.

Fixpoint mutate_all_list (ms : list (@mutation T)) (xs : list T) (cap : Z) : option (list T * Z) :=
  match ms with
  | [] => Some (xs, cap)
  | m :: rest =>
      match mutate_list m xs cap with
      | Some (xs', cap') => mutate_all_list rest xs' cap'
      | None => None
      end
  end.

(** ** The ledger of a log *)

Fixpoint allocations (l : list event) : nat :=
  match l with
  | [] => 0
  | New _ :: l' => S (allocations l')
  | _ :: l' => allocations l'
  end.

Definition releases (l : list event) : nat := count Delete l.

(** Objects built and not destroyed, blocks allocated and not released,
    by the calls of a log. *)
Definition live_objects (l : list event) : Z :=
  Z.of_nat (constructions l) - Z.of_nat (destructions l).

Definition live_blocks (l : list event) : Z :=
  Z.of_nat (allocations l) - Z.of_nat (releases l).

(** The number of blocks a vector of capacity [cap] owns. *)
Definition owned_blocks (cap : Z) : Z := if cap =? 0 then 0 else 1.

(** Whether the constructor that [construct_at] selects for its
    arguments throws under the plan [p], and the plan it leaves. *)
Definition ctor_fails (a : @ctor_args T) (p : list bool) : bool :=
  match a with lvalue _ => next_fails p | rvalue _ => move_fails p end.

Definition after_ctor (a : @ctor_args T) (p : list bool) : list bool :=
  match a with lvalue _ => tail p | rvalue _ => after_move p end.

End Representation.

(** * Proofs *)

Section Proofs.
Context {T : Type} {ET : ElemType T}.
Implicit Types (w : @world T) (h : list (option (list (option T)))) (o : list (option Vector)).
Implicit Types (p : list bool) (l : list event) (b pre post : list (option T)) (xs ys : list T).

(** ** Running the monad *)

Lemma bind_ret_step {A B} (m : M A) (f : A → M B) w a w1 :
  m w = Some (Ret a, w1) → bind m f w = f a w1.
Proof. intros H. unfold bind. by rewrite H. Qed.

Lemma bind_throw_step {A B} (m : M A) (f : A → M B) w e w1 :
  m w = Some (Throw e, w1) → bind m f w = Some (Throw e, w1).
Proof. intros H. unfold bind. by rewrite H. Qed.

Lemma unwinding_ret_step {A} (m : M A) c w a w1 :
  m w = Some (Ret a, w1) → unwinding m c w = Some (Ret a, w1).
Proof. intros H. unfold unwinding. by rewrite H. Qed.

Lemma unwinding_throw_step {A} (m : M A) c w e w1 w2 :
  m w = Some (Throw e, w1) → c w1 = Some (Ret tt, w2) →
  unwinding m c w = Some (Throw e, w2).
Proof. intros H1 H2. unfold unwinding. by rewrite H1, H2. Qed.

Lemma fallible_step e h o p l :
  fallible e (World h o p l) =
    Some (if next_fails p then Throw e else Ret tt, World h o (tail p) l).
Proof. by destruct p as [|[] p]. Qed.

(** ** Slots *)

Lemma get_slot_middle h o p l ld pre s post z :
  h !! ld = Some (Some (pre ++ s :: post)) → z = Z.of_nat (length pre) →
  get_slot (World h o p l) (Some ld, z) = Some s.
Proof.
  intros Hb ->. unfold get_slot; cbn [heap fst snd]. rewrite Hb.
  destruct (Z.leb_spec 0 (Z.of_nat (length pre))); [|lia].
  rewrite Nat2Z.id. by apply list_lookup_middle.
Qed.

Lemma set_slot_middle h o p l ld pre s s' post z :
  h !! ld = Some (Some (pre ++ s :: post)) → z = Z.of_nat (length pre) →
  set_slot (Some ld, z) s' (World h o p l) =
    Some (Ret tt, World (<[ld := Some (pre ++ s' :: post)]> h) o p l).
Proof.
  intros Hb ->. unfold set_slot; cbn [heap fst snd]. rewrite Hb.
  destruct (Z.leb_spec 0 (Z.of_nat (length pre))); [|lia].
  destruct (Z.ltb_spec (Z.of_nat (length pre)) (Z.of_nat (length (pre ++ s :: post)))) as [_|Hge];
    [|rewrite length_app in Hge; simpl in Hge; lia].
  simpl. unfold upd_heap; simpl. do 4 f_equal.
  rewrite Nat2Z.id, insert_app_r_alt, Nat.sub_diag by lia. done.
Qed.

Lemma load_middle h o p l ld pre x post z :
  h !! ld = Some (Some (pre ++ Some x :: post)) → z = Z.of_nat (length pre) →
  load (Some ld, z) (World h o p l) = Some (Ret x, World h o p l).
Proof. intros Hb Hz. unfold load. by rewrite (get_slot_middle _ _ _ _ _ _ _ _ _ Hb Hz). Qed.

Lemma heap_insert_lookup h ld (c c' : option (list (option T))) :
  h !! ld = Some c → <[ld := c']> h !! ld = Some c'.
Proof. intros H. apply list_lookup_insert_eq. by eapply lookup_lt_Some. Qed.

Lemma record_step e h o p l :
  record e (World h o p l) = Some (Ret tt, World h o p (l ++ [e])).
Proof. done. Qed.

Lemma construct_copy_step h o p l ld pre s post z x :
  h !! ld = Some (Some (pre ++ s :: post)) → z = Z.of_nat (length pre) →
  construct_copy (Some ld, z) x (World h o p l) =
    if next_fails p then Some (Throw element_failure, World h o (tail p) l)
    else Some (Ret tt, World (<[ld := Some (pre ++ Some x :: post)]> h) o (tail p) (l ++ [CopyCtor])).
Proof.
  intros Hb Hz. unfold construct_copy.
  unfold bind at 1. rewrite fallible_step.
  destruct (next_fails p); [done|].
  erewrite bind_ret_step by (by eapply set_slot_middle). done.
Qed.

Lemma destroy_at_step h o p l ld pre x post z :
  h !! ld = Some (Some (pre ++ Some x :: post)) → z = Z.of_nat (length pre) →
  destroy_at (Some ld, z) (World h o p l) =
    Some (Ret tt, World (<[ld := Some (pre ++ None :: post)]> h) o p (l ++ [Dtor])).
Proof.
  intros Hb Hz. unfold destroy_at.
  erewrite bind_ret_step by (by eapply load_middle).
  erewrite bind_ret_step by (by eapply set_slot_middle). done.
Qed.

Lemma uninitialized_copy_n_spec xs : ∀ h o p l ls ld spre spost dpre dpost zs zd,
  ls ≠ ld →
  h !! ls = Some (Some (spre ++ (Some <$> xs) ++ spost)) →
  h !! ld = Some (Some (dpre ++ replicate (length xs) None ++ dpost)) →
  zs = Z.of_nat (length spre) → zd = Z.of_nat (length dpre) →
  ∃ r h' p' l',
    uninitialized_copy_n (Some ls, zs) (length xs) (Some ld, zd) (World h o p l)
      = Some (r, World h' o p' l') ∧
    match r with
    | Ret _ =>
        h' = <[ld := Some (dpre ++ (Some <$> xs) ++ dpost)]> h ∧
        l' = l ++ replicate (length xs) CopyCtor
    | Throw e =>
        e = element_failure ∧ h' = h ∧
        ∃ k, (k < length xs)%nat ∧ l' = l ++ replicate k CopyCtor ++ replicate k Dtor
    end ∧
    (p = [] → r = Ret tt ∧ p' = []).
Proof.
  induction xs as [|x xs IH]; intros h o p l ls ld spre spost dpre dpost zs zd Hne Hs Hd Hzs Hzd.
  - exists (Ret tt), h, p, l. simpl. split; [reflexivity|]. split; [|done].
    split; [|by rewrite app_nil_r]. symmetry. by apply list_insert_id.
  - cbn [uninitialized_copy_n length].
    assert (Hs' : h !! ls = Some (Some (spre ++ Some x :: ((Some <$> xs) ++ spost)))) by exact Hs.
    assert (Hd' : h !! ld = Some (Some (dpre ++ None :: (replicate (length xs) None ++ dpost))))
      by exact Hd.
    erewrite bind_ret_step by (by eapply load_middle).
    unfold bind at 1.
    erewrite construct_copy_step by (done || exact Hd').
    destruct (next_fails p) eqn:Hp.
    + exists (Throw element_failure), h, (tail p), l. split; [done|]. split.
      * split; [done|]. split; [done|]. exists 0%nat. simpl. split; [lia|by rewrite app_nil_r].
      * intros ->. done.
    + set (h1 := <[ld := _]> h).
      destruct (IH h1 o (tail p) (l ++ [CopyCtor]) ls ld (spre ++ [Some x]) spost
                  (dpre ++ [Some x]) dpost (zs + 1) (zd + 1)) as (r & h' & p' & l' & Hrun & Hr & Hp');
        [done| | |rewrite length_app; simpl; lia|rewrite length_app; simpl; lia|].
      { unfold h1. rewrite list_lookup_insert_ne by done. by rewrite <- app_assoc. }
      { unfold h1. erewrite heap_insert_lookup by done. by rewrite <- app_assoc. }
      unfold ptr_add; cbn [fst snd].
      destruct r as [[]|e].
      * exists (Ret tt), h', p', l'. split; [by erewrite unwinding_ret_step|].
        destruct Hr as [-> ->]. split.
        -- unfold h1. by rewrite list_insert_insert_eq, <- !app_assoc.
        -- intros ->. by apply Hp'.
      * destruct Hr as (-> & -> & k & Hk & ->).
        eexists (Throw element_failure), h, p', _. split.
        -- erewrite unwinding_throw_step; [done|done|].
           erewrite destroy_at_step; [| unfold h1; by erewrite heap_insert_lookup by done | done].
           unfold h1. rewrite list_insert_insert_eq.
           rewrite (list_insert_id h ld) by done. done.
        -- split.
           ++ split; [done|]. split; [done|]. exists (S k). split; [lia|].
              rewrite <- !app_assoc. simpl. by rewrite replicate_cons_app.
           ++ intros ->. destruct Hp' as [? _]; done.
Qed.

(** Sorts a chain of heap updates: those at [a] move inside those at
    [b], and repeated updates collapse. *)
Ltac heap_norm a b :=
  repeat first
    [ rewrite list_insert_insert_eq
    | rewrite (list_insert_insert_ne _ a b) by done ].

Lemma move_may_throw_step h o p l :
  move_may_throw (World h o p l) =
    Some (if move_fails p then Throw element_failure else Ret tt, World h o (after_move p) l).
Proof.
  unfold move_may_throw, move_fails, after_move.
  destruct is_nothrow_move_constructible; [done|]. by rewrite fallible_step.
Qed.

Lemma construct_move_step h o p l ls ld spre x spost dpre s dpost zs zd :
  ls ≠ ld →
  h !! ls = Some (Some (spre ++ Some x :: spost)) →
  h !! ld = Some (Some (dpre ++ s :: dpost)) →
  zs = Z.of_nat (length spre) → zd = Z.of_nat (length dpre) →
  construct_move (Some ld, zd) (Some ls, zs) (World h o p l) =
    if move_fails p then Some (Throw element_failure, World h o (after_move p) l)
    else Some (Ret tt,
               World (<[ls := Some (spre ++ Some (moved_from x) :: spost)]>
                        (<[ld := Some (dpre ++ Some x :: dpost)]> h))
                     o (after_move p) (l ++ [MoveCtor])).
Proof.
  intros Hne Hs Hd Hzs Hzd. unfold construct_move.
  erewrite bind_ret_step by (by eapply load_middle).
  unfold bind at 1. rewrite move_may_throw_step.
  destruct (move_fails p); [done|].
  erewrite bind_ret_step by (by eapply set_slot_middle).
  erewrite bind_ret_step
    by (eapply set_slot_middle; [by rewrite list_lookup_insert_ne|done]).
  done.
Qed.

Lemma move_fails_nil : move_fails [] = false.
Proof. unfold move_fails. by destruct is_nothrow_move_constructible. Qed.

Lemma after_move_nil : after_move [] = [].
Proof. unfold after_move. by destruct is_nothrow_move_constructible. Qed.

Lemma uninitialized_move_n_spec xs : ∀ h o p l ls ld spre spost dpre dpost zs zd,
  ls ≠ ld →
  h !! ls = Some (Some (spre ++ (Some <$> xs) ++ spost)) →
  h !! ld = Some (Some (dpre ++ replicate (length xs) None ++ dpost)) →
  zs = Z.of_nat (length spre) → zd = Z.of_nat (length dpre) →
  ∃ r h' p' l',
    uninitialized_move_n (Some ls, zs) (length xs) (Some ld, zd) (World h o p l)
      = Some (r, World h' o p' l') ∧
    match r with
    | Ret _ =>
        h' = <[ls := Some (spre ++ (Some <$> (moved_from <$> xs)) ++ spost)]>
               (<[ld := Some (dpre ++ (Some <$> xs) ++ dpost)]> h) ∧
        l' = l ++ replicate (length xs) MoveCtor
    | Throw e =>
        e = element_failure ∧ is_nothrow_move_constructible = false ∧
        ∃ k, (k < length xs)%nat ∧
          h' = <[ls := Some (spre ++ (Some <$> ((moved_from <$> take k xs) ++ drop k xs)) ++ spost)]> h ∧
          l' = l ++ replicate k MoveCtor ++ replicate k Dtor
    end ∧
    (p = [] → r = Ret tt ∧ p' = []).
Proof.
  induction xs as [|x xs IH]; intros h o p l ls ld spre spost dpre dpost zs zd Hne Hs Hd Hzs Hzd.
  - exists (Ret tt), h, p, l. simpl. split; [reflexivity|]. split; [|done].
    split; [|by rewrite app_nil_r]. symmetry.
    rewrite (list_insert_id h ld) by done. by apply list_insert_id.
  - cbn [uninitialized_move_n length].
    assert (Hs' : h !! ls = Some (Some (spre ++ Some x :: ((Some <$> xs) ++ spost)))) by exact Hs.
    assert (Hd' : h !! ld = Some (Some (dpre ++ None :: (replicate (length xs) None ++ dpost))))
      by exact Hd.
    unfold bind at 1.
    erewrite construct_move_step by (done || exact Hd' || exact Hs').
    destruct (move_fails p) eqn:Hp.
    + exists (Throw element_failure), h, (after_move p), l. split; [done|]. split.
      * split; [done|]. split.
        { unfold move_fails in Hp. by destruct is_nothrow_move_constructible. }
        exists 0%nat. simpl. split; [lia|]. split; [|by rewrite app_nil_r].
        symmetry. by apply list_insert_id.
      * intros ->. by rewrite move_fails_nil in Hp.
    + set (h1 := <[ls := _]> (<[ld := _]> h)).
      destruct (IH h1 o (after_move p) (l ++ [MoveCtor]) ls ld (spre ++ [Some (moved_from x)]) spost
                  (dpre ++ [Some x]) dpost (zs + 1) (zd + 1)) as (r & h' & p' & l' & Hrun & Hr & Hp');
        [done| | |rewrite length_app; simpl; lia|rewrite length_app; simpl; lia|].
      { unfold h1. erewrite heap_insert_lookup; [by rewrite <- app_assoc|].
        by rewrite list_lookup_insert_ne. }
      { unfold h1. rewrite list_lookup_insert_ne by done.
        erewrite heap_insert_lookup by done. by rewrite <- app_assoc. }
      unfold ptr_add; cbn [fst snd].
      destruct r as [[]|e].
      * exists (Ret tt), h', p', l'. split; [by erewrite unwinding_ret_step|].
        destruct Hr as [-> ->]. split.
        -- unfold h1. heap_norm ld ls. by rewrite <- !app_assoc.
        -- intros ->. rewrite after_move_nil in Hp'. by apply Hp'.
      * destruct Hr as (-> & Hnt & k & Hk & -> & ->).
        eexists (Throw element_failure), _, p', _. split.
        -- erewrite unwinding_throw_step; [done|done|].
           erewrite destroy_at_step; [done| |done].
           unfold h1. rewrite list_insert_insert_eq.
           rewrite list_lookup_insert_ne by done.
           by erewrite heap_insert_lookup by done.
        -- split.
           ++ split; [done|]. split; [done|]. exists (S k). split; [lia|]. split.
              ** unfold h1. heap_norm ld ls.
                 rewrite (list_insert_id h ld) by done.
                 by rewrite <- !app_assoc.
              ** rewrite <- !app_assoc. simpl. by rewrite replicate_cons_app.
           ++ intros ->. rewrite after_move_nil in Hp'. destruct Hp' as [? _]; done.
Qed.

Lemma destroy_n_spec xs : ∀ h o p l ld pre post z,
  h !! ld = Some (Some (pre ++ (Some <$> xs) ++ post)) → z = Z.of_nat (length pre) →
  destroy_n (Some ld, z) (length xs) (World h o p l) =
    Some (Ret tt, World (<[ld := Some (pre ++ replicate (length xs) None ++ post)]> h) o p
                        (l ++ replicate (length xs) Dtor)).
Proof.
  induction xs as [|x xs IH]; intros h o p l ld pre post z Hb Hz.
  - simpl. unfold ret. rewrite app_nil_r. by rewrite list_insert_id.
  - cbn [destroy_n length].
    assert (Hb' : h !! ld = Some (Some (pre ++ Some x :: ((Some <$> xs) ++ post)))) by exact Hb.
    erewrite bind_ret_step by (by eapply destroy_at_step).
    unfold ptr_add; cbn [fst snd].
    erewrite (IH _ _ _ _ _ (pre ++ [None]));
      [|erewrite heap_insert_lookup by done; by rewrite <- app_assoc
       |rewrite length_app; simpl; lia].
    rewrite list_insert_insert_eq, <- !app_assoc. done.
Qed.

Lemma relocated_from_all xs :
  relocated_from (length xs) xs =
    if is_nothrow_move_constructible || negb is_copy_constructible
    then moved_from <$> xs else xs.
Proof.
  unfold relocated_from. destruct (_ || _); [|done].
  by rewrite take_ge, drop_ge, app_nil_r by lia.
Qed.

Lemma length_relocated_from k xs : length (relocated_from k xs) = length xs.
Proof.
  unfold relocated_from. destruct (_ || _); [|done].
  rewrite length_app, length_fmap, length_take, length_drop. lia.
Qed.

Lemma MOVE_OR_COPY_spec xs h o p l ls ld spre spost dpre dpost zs zd :
  ls ≠ ld →
  h !! ls = Some (Some (spre ++ (Some <$> xs) ++ spost)) →
  h !! ld = Some (Some (dpre ++ replicate (length xs) None ++ dpost)) →
  zs = Z.of_nat (length spre) → zd = Z.of_nat (length dpre) →
  ∃ r h' p' l',
    MOVE_OR_COPY_IF_NOEXCEPT (Some ls, zs) (Some ld, zd) (Z.of_nat (length xs)) (World h o p l)
      = Some (r, World h' o p' l') ∧
    match r with
    | Ret _ =>
        h' = <[ls := Some (spre ++ (Some <$> relocated_from (length xs) xs) ++ spost)]>
               (<[ld := Some (dpre ++ (Some <$> xs) ++ dpost)]> h) ∧
        l' = l ++ replicate (length xs) relocation_event
    | Throw e =>
        e = element_failure ∧ is_nothrow_move_constructible = false ∧
        ∃ k, (k < length xs)%nat ∧
          h' = <[ls := Some (spre ++ (Some <$> relocated_from k xs) ++ spost)]> h ∧
          l' = l ++ replicate k relocation_event ++ replicate k Dtor
    end ∧
    (p = [] → r = Ret tt ∧ p' = []).
Proof.
  intros Hne Hs Hd Hzs Hzd.
  unfold MOVE_OR_COPY_IF_NOEXCEPT. rewrite Nat2Z.id, relocated_from_all.
  unfold relocated_from, relocation_event.
  destruct (is_nothrow_move_constructible || negb is_copy_constructible) eqn:Hflag.
  - by apply uninitialized_move_n_spec.
  - destruct (uninitialized_copy_n_spec xs h o p l ls ld spre spost dpre dpost zs zd)
      as (r & h' & p' & l' & Hrun & Hr & Hp'); [done..|].
    exists r, h', p', l'. split; [done|]. split; [|done].
    destruct r as [[]|e].
    + destruct Hr as [-> ->]. split; [|done].
      symmetry. apply list_insert_id. by rewrite list_lookup_insert_ne.
    + destruct Hr as (-> & -> & k & Hk & ->). split; [done|]. split.
      { by destruct is_nothrow_move_constructible. }
      exists k. split; [done|]. split; [|done]. symmetry. by apply list_insert_id.
Qed.

Lemma get_vector_step h o p l this v :
  o !! this = Some (Some v) →
  get_vector this (World h o p l) = Some (Ret v, World h o p l).
Proof. intros Ho. unfold get_vector; cbn [objects]. by rewrite Ho. Qed.

Lemma set_vector_step h o p l this v v' :
  o !! this = Some (Some v) →
  set_vector this v' (World h o p l) = Some (Ret tt, World h (<[this := Some v']> o) p l).
Proof.
  intros Ho. unfold set_vector. by erewrite bind_ret_step by (by eapply get_vector_step).
Qed.

Lemma operator_delete_step h o p l ld b :
  h !! ld = Some (Some b) →
  operator_delete (Some ld) (World h o p l) =
    Some (Ret tt, World (<[ld := None]> h) o p (l ++ [Delete])).
Proof.
  intros Hb. unfold operator_delete. erewrite bind_ret_step by apply record_step.
  cbn [heap]. by rewrite Hb.
Qed.

Lemma wrap_small z : 0 ≤ z < size_t_modulus → wrap z = z.
Proof. intros. unfold wrap. by apply Z.mod_small. Qed.

Lemma RawMemory_sized_step n h o p l :
  0 < n → n * Z.pos sizeof < size_t_modulus →
  RawMemory_sized n (World h o p l) =
    if next_fails p then Some (Throw bad_alloc, World h o (tail p) l)
    else Some (Ret {| buffer_ := Some (length h); capacity_ := n |},
               World (h ++ [Some (replicate (Z.to_nat n) None)]) o (tail p)
                     (l ++ [New (Z.to_nat n)])).
Proof.
  intros Hn Hb. unfold RawMemory_sized, Allocate.
  destruct (Z.eqb_spec n 0); [lia|].
  unfold operator_new. unfold bind at 1 2. rewrite fallible_step.
  destruct (next_fails p); [done|].
  rewrite wrap_small by lia. rewrite Z.div_mul by lia. done.
Qed.

Lemma heap_snoc_lookup h (c : option (list (option T))) : (h ++ [c]) !! length h = Some c.
Proof. by rewrite lookup_app_r, Nat.sub_diag by lia. Qed.

Lemma heap_snoc_insert h (c c' : option (list (option T))) :
  <[length h := c']> (h ++ [c]) = h ++ [c'].
Proof. by rewrite insert_app_r_alt, Nat.sub_diag by lia. Qed.

Lemma heap_snoc_insert_old h (c c' : option (list (option T))) ld :
  (ld < length h)%nat → <[ld := c']> (h ++ [c]) = <[ld := c']> h ++ [c].
Proof. intros. by rewrite insert_app_l. Qed.

Lemma block_of_split xs cap :
  block_of xs cap = [] ++ (Some <$> xs) ++ replicate (Z.to_nat cap - length xs) None.
Proof. done. Qed.

Lemma raw_split (n k : nat) :
  (k ≤ n)%nat →
  replicate n (@None T) = [] ++ replicate k None ++ replicate (n - k) None.
Proof. intros. simpl. rewrite <- replicate_add. f_equal. lia. Qed.

(** [Reserve] beyond the capacity of a vector that owns a block. *)
Lemma Reserve_grow_run h o p l this lold cap xs n :
  o !! this = Some (Some {| data_ := {| buffer_ := Some lold; capacity_ := cap |};
                            size_ := Z.of_nat (length xs) |}) →
  h !! lold = Some (Some (block_of xs cap)) →
  Z.of_nat (length xs) ≤ cap → cap < n → n * Z.pos sizeof < size_t_modulus →
  ∃ r h' o' p' l',
    Reserve this n (World h o p l) = Some (r, World h' o' p' l') ∧
    match r with
    | Ret _ =>
        h' = <[lold := None]> h ++ [Some (block_of xs n)] ∧
        o' = <[this := Some {| data_ := {| buffer_ := Some (length h); capacity_ := n |};
                               size_ := Z.of_nat (length xs) |}]> o ∧
        l' = l ++ [New (Z.to_nat n)] ++ replicate (length xs) relocation_event
               ++ replicate (length xs) Dtor ++ [Delete]
    | Throw e =>
        o' = o ∧
        ((e = bad_alloc ∧ h' = h ∧ l' = l) ∨
         (e = element_failure ∧ is_nothrow_move_constructible = false ∧
          ∃ k, (k < length xs)%nat ∧
            h' = <[lold := Some (block_of (relocated_from k xs) cap)]> h ++ [None] ∧
            l' = l ++ [New (Z.to_nat n)] ++ replicate k relocation_event
                   ++ replicate k Dtor ++ [Delete]))
    end ∧
    (p = [] → r = Ret tt ∧ p' = []).
Proof.
  intros Ho Hb Hlen Hcap Hn.
  assert (Hlt : (lold < length h)%nat) by (by eapply lookup_lt_Some).
  unfold Reserve.
  erewrite bind_ret_step by (by eapply get_vector_step).
  cbn [data_ size_ RawMemory_Capacity capacity_].
  destruct (Z.leb_spec n cap); [lia|].
  unfold bind at 1. rewrite RawMemory_sized_step by lia.
  destruct (next_fails p) eqn:Hp.
  { exists (Throw bad_alloc), h, o, (tail p), l. split; [done|]. split; [by eauto|].
    by intros ->. }
  unfold GetAddress; cbn [buffer_].
  set (h1 := h ++ [_]). set (l1 := l ++ [_]).
  destruct (MOVE_OR_COPY_spec xs h1 o (tail p) l1 lold (length h) []
              (replicate (Z.to_nat cap - length xs) None) []
              (replicate (Z.to_nat n - length xs) None) 0 0)
    as (r & h2 & p2 & l2 & Hrun & Hr & Hp2); [lia| | |done|done|].
  { unfold h1. by rewrite lookup_app_l. }
  { unfold h1. rewrite heap_snoc_lookup. do 2 f_equal. apply raw_split. lia. }
  destruct r as [[]|e].
  - destruct Hr as [-> ->].
    erewrite bind_ret_step by (by eapply unwinding_ret_step).
    rewrite Nat2Z.id.
    match goal with |- context [World ?hh o p2 ?ll] =>
      pose proof (destroy_n_spec (relocated_from (length xs) xs) hh o p2 ll lold []
                    (replicate (Z.to_nat cap - length xs) None) 0) as Hdestroy
    end.
    rewrite length_relocated_from in Hdestroy.
    erewrite bind_ret_step.
    2:{ apply Hdestroy; [|done].
        apply heap_insert_lookup with (c := Some (block_of xs cap)).
        rewrite list_lookup_insert_ne by lia. unfold h1. by rewrite lookup_app_l. }
    clear Hdestroy.
    cbn [RawMemory_Swap].
    erewrite bind_ret_step by (by eapply set_vector_step).
    unfold RawMemory_dtor, Deallocate; cbn [buffer_].
    erewrite operator_delete_step.
    2:{ rewrite list_insert_insert_eq. apply list_lookup_insert_eq.
        unfold h1. rewrite length_insert, length_app. lia. }
    eexists (Ret tt), _, _, p2, _. split; [done|]. split.
    + split; [|split; [done|]].
      * rewrite !list_insert_insert_eq. unfold h1.
        rewrite heap_snoc_insert, heap_snoc_insert_old by done. done.
      * unfold l1. by rewrite <- !app_assoc.
    + intros ->. by apply Hp2.
  - destruct Hr as (-> & Hnt & k & Hk & -> & ->).
    erewrite bind_throw_step.
    2:{ eapply unwinding_throw_step; [done|].
        unfold RawMemory_dtor, Deallocate; cbn [buffer_].
        eapply operator_delete_step.
        rewrite list_lookup_insert_ne by lia. unfold h1. apply heap_snoc_lookup. }
    eexists (Throw element_failure), _, o, p2, _. split; [done|]. split.
    + split; [done|]. right. split; [done|]. split; [done|]. exists k. split; [done|]. split.
      * unfold h1. rewrite (list_insert_insert_ne _ (length h) lold) by lia.
        rewrite heap_snoc_insert, heap_snoc_insert_old by done.
        unfold block_of. by rewrite length_relocated_from.
      * unfold l1. by rewrite <- !app_assoc.
    + intros ->. destruct Hp2 as [? _]; done.
Qed.

(** [Reserve] on a vector that owns no block. *)
Lemma Reserve_first_run h o p l this n :
  o !! this = Some (Some {| data_ := {| buffer_ := None; capacity_ := 0 |}; size_ := 0 |}) →
  0 < n → n * Z.pos sizeof < size_t_modulus →
  ∃ r h' o' p' l',
    Reserve this n (World h o p l) = Some (r, World h' o' p' l') ∧
    match r with
    | Ret _ =>
        h' = h ++ [Some (block_of [] n)] ∧
        o' = <[this := Some {| data_ := {| buffer_ := Some (length h); capacity_ := n |};
                               size_ := 0 |}]> o ∧
        l' = l ++ [New (Z.to_nat n)]
    | Throw e => o' = o ∧ e = bad_alloc ∧ h' = h ∧ l' = l
    end ∧
    (p = [] → r = Ret tt ∧ p' = []).
Proof.
  intros Ho Hn Hb. unfold Reserve.
  erewrite bind_ret_step by (by eapply get_vector_step).
  cbn [data_ size_ RawMemory_Capacity capacity_].
  destruct (Z.leb_spec n 0); [lia|].
  unfold bind at 1. rewrite RawMemory_sized_step by lia.
  destruct (next_fails p) eqn:Hp.
  { exists (Throw bad_alloc), h, o, (tail p), l. split; [done|]. split; [done|]. by intros ->. }
  assert (Hreloc : ∀ w', MOVE_OR_COPY_IF_NOEXCEPT (None, 0) (Some (length h), 0) 0 w'
                         = Some (Ret tt, w')).
  { intros w'. unfold MOVE_OR_COPY_IF_NOEXCEPT. by destruct (_ || _). }
  unfold GetAddress; cbn [buffer_].
  erewrite bind_ret_step by (eapply unwinding_ret_step, Hreloc).
  cbn [Z.to_nat destroy_n RawMemory_Swap].
  erewrite bind_ret_step by reflexivity.
  erewrite bind_ret_step by (by eapply set_vector_step).
  eexists (Ret tt), _, _, (tail p), _. split; [reflexivity|]. split.
  - unfold block_of. simpl. by rewrite Nat.sub_0_r.
  - by intros ->.
Qed.




Lemma relocation_event_cases : relocation_event = MoveCtor ∨ relocation_event = CopyCtor.
Proof. unfold relocation_event. destruct (_ || _); auto. Qed.


Lemma relocated_from_0 xs : relocated_from 0 xs = xs.
Proof. unfold relocated_from. by destruct (_ || _). Qed.

Lemma relocated_from_copy k xs :
  is_nothrow_move_constructible = false → is_copy_constructible = true →
  relocated_from k xs = xs.
Proof. intros Hn Hc. unfold relocated_from. by rewrite Hn, Hc. Qed.

Lemma length_block_of xs cap :
  Z.of_nat (length xs) ≤ cap → length (block_of xs cap) = Z.to_nat cap.
Proof. intros. unfold block_of. rewrite length_app, length_fmap, length_replicate. lia. Qed.

(** [Reserve] beyond the capacity, in terms of the vector's value. *)
Lemma Reserve_run w this xs cap n :
  holds w this xs cap → cap < n → n * Z.pos sizeof < size_t_modulus →
  ∃ r w',
    Reserve this n w = Some (r, w') ∧
    match r with
    | Ret _ =>
        holds w' this xs n ∧
        buffer_of w' this = Some (length (heap w)) ∧
        slots_of w' this = Some (Z.to_nat n) ∧
        log w' = log w ++ [New (Z.to_nat n)] ++ replicate (length xs) relocation_event
                   ++ replicate (length xs) Dtor ++ release_events cap
    | Throw e =>
        ∃ k, holds w' this (relocated_from k xs) cap ∧
          ((e = bad_alloc ∧ k = 0%nat ∧ log w' = log w ∧ heap w' = heap w) ∨
           (e = element_failure ∧ is_nothrow_move_constructible = false ∧
            log w' = log w ++ [New (Z.to_nat n)] ++ replicate k relocation_event
                       ++ replicate k Dtor ++ [Delete] ∧
            drop (length (heap w)) (heap w') = [None]))
    end ∧
    (plan w = [] → r = Ret tt ∧ plan w' = []).
Proof.
  destruct w as [h o p l].
  intros (v & Ho & Hsz & Hc & Hle & Hbytes & Hbuf) Hcap Hn.
  destruct v as [[buf c] sz]. cbn [data_ size_ buffer_ capacity_ heap objects log plan] in *.
  subst sz c. destruct buf as [lold|].
  - destruct Hbuf as [Hpos Hb].
    assert (Hlt : (lold < length h)%nat) by (by eapply lookup_lt_Some).
    destruct (Reserve_grow_run h o p l this lold cap xs n)
      as (r & h' & o' & p' & l' & Hrun & Hr & Hp); [done..|].
    exists r, (World h' o' p' l'). split; [done|]. split; [|done].
    destruct r as [[]|e].
    + destruct Hr as (-> & -> & ->).
      assert (Hthis : (this < length o)%nat) by (by eapply lookup_lt_Some).
      assert (Hnew : (<[lold:=None]> h ++ [Some (block_of xs n)]) !! length h
                     = Some (Some (block_of xs n))).
      { rewrite lookup_app_r by (rewrite length_insert; lia).
        by rewrite length_insert, Nat.sub_diag. }
      split; [|split; [|split]].
      * eexists. cbn [objects heap]. split; [by apply list_lookup_insert_eq|].
        cbn [data_ size_ buffer_ capacity_]. repeat split; try done; lia.
      * unfold buffer_of; cbn [objects]. by rewrite list_lookup_insert_eq.
      * unfold slots_of, buffer_of; cbn [objects heap].
        rewrite list_lookup_insert_eq by done. cbn [data_ buffer_].
        rewrite Hnew. f_equal. apply length_block_of. lia.
      * cbn [log]. unfold release_events. by destruct (Z.eqb_spec cap 0); [lia|].
    + destruct Hr as [-> [(-> & -> & ->) | (-> & Hnt & k & Hk & -> & ->)]].
      * exists 0%nat. rewrite relocated_from_0. split; [|by left].
        eexists; cbn [objects heap]; split; [done|]. by cbn.
      * exists k. split; [|right; cbn [log heap]].
        -- eexists; cbn [objects heap]; split; [done|].
           cbn [data_ size_ buffer_ capacity_]. rewrite length_relocated_from.
           repeat split; try done.
           rewrite lookup_app_l by (rewrite length_insert; lia).
           by apply list_lookup_insert_eq.
        -- repeat split; try done.
           rewrite drop_app_length'; [done|by rewrite length_insert].
  - subst cap. assert (xs = []) as -> by (destruct xs; [done|simpl in Hle; lia]).
    destruct (Reserve_first_run h o p l this n)
      as (r & h' & o' & p' & l' & Hrun & Hr & Hp); [done|lia|done|].
    exists r, (World h' o' p' l'). split; [done|]. split; [|done].
    destruct r as [[]|e].
    + destruct Hr as (-> & -> & ->).
      assert (Hthis : (this < length o)%nat) by (by eapply lookup_lt_Some).
      split; [|split; [|split]].
      * eexists. cbn [objects heap]. split; [by apply list_lookup_insert_eq|].
        cbn [data_ size_ buffer_ capacity_]. repeat split; try done; try lia.
        apply heap_snoc_lookup.
      * unfold buffer_of; cbn [objects]. by rewrite list_lookup_insert_eq.
      * unfold slots_of, buffer_of; cbn [objects heap].
        rewrite list_lookup_insert_eq by done. cbn [data_ buffer_].
        rewrite heap_snoc_lookup. f_equal. apply length_block_of. simpl; lia.
      * cbn [log length replicate]. by rewrite !app_nil_r.
    + destruct Hr as (-> & -> & -> & ->).
      exists 0%nat. rewrite relocated_from_0. split; [|by left].
      eexists; cbn [objects heap]; split; [done|]. by cbn.
Qed.

(** ** Element operations when no failure is planned *)

Lemma construct_at_step h o l ld pre s post z a :
  h !! ld = Some (Some (pre ++ s :: post)) → z = Z.of_nat (length pre) →
  construct_at (Some ld, z) a (World h o [] l) =
    Some (Ret tt, World (<[ld := Some (pre ++ Some (arg_value a) :: post)]> h) o []
                        (l ++ [ctor_event a])).
Proof.
  intros Hb Hz. destruct a as [x|x]; cbn [construct_at arg_value ctor_event].
  - by erewrite construct_copy_step.
  - unfold bind at 1. rewrite move_may_throw_step, move_fails_nil, after_move_nil.
    by erewrite bind_ret_step by (by eapply set_slot_middle).
Qed.

Lemma construct_temp_step h o l a :
  construct_temp a (World h o [] l) =
    Some (Ret (arg_value a), World h o [] (l ++ [ctor_event a])).
Proof.
  destruct a as [x|x]; cbn [construct_temp arg_value ctor_event]; [done|].
  unfold bind at 1. by rewrite move_may_throw_step, move_fails_nil, after_move_nil.
Qed.

(** A move within one block, from a slot to the slot behind it. *)
Lemma construct_move_next_step h o l ld pre x s post zs zd :
  h !! ld = Some (Some (pre ++ Some x :: s :: post)) →
  zs = Z.of_nat (length pre) → zd = Z.of_nat (length pre) + 1 →
  construct_move (Some ld, zd) (Some ld, zs) (World h o [] l) =
    Some (Ret tt, World (<[ld := Some (pre ++ Some (moved_from x) :: Some x :: post)]> h) o []
                        (l ++ [MoveCtor])).
Proof.
  intros Hb Hzs Hzd. unfold construct_move.
  erewrite bind_ret_step by (by eapply load_middle).
  unfold bind at 1. rewrite move_may_throw_step, move_fails_nil, after_move_nil.
  erewrite bind_ret_step.
  2:{ eapply (set_slot_middle _ _ _ _ _ (pre ++ [Some x]) s _ post); [by rewrite <- app_assoc|].
      rewrite length_app; simpl; lia. }
  erewrite bind_ret_step.
  2:{ eapply (set_slot_middle _ _ _ _ _ pre (Some x) _ (Some x :: post)); [|done].
      erewrite heap_insert_lookup by done. by rewrite <- app_assoc. }
  by rewrite list_insert_insert_eq.
Qed.

(** [*dst = std::move( *src )] for [src] the slot behind [dst]... *)
Lemma assign_move_from_next_step h o l ld pre z x post zd zs :
  h !! ld = Some (Some (pre ++ Some z :: Some x :: post)) →
  zd = Z.of_nat (length pre) → zs = Z.of_nat (length pre) + 1 →
  assign_move (Some ld, zd) (Some ld, zs) (World h o [] l) =
    Some (Ret tt, World (<[ld := Some (pre ++ Some x :: Some (moved_from x) :: post)]> h) o []
                        (l ++ [MoveAssign])).
Proof.
  intros Hb Hzd Hzs. unfold assign_move.
  erewrite bind_ret_step.
  2:{ eapply (load_middle _ _ _ _ _ (pre ++ [Some z]) x post); [by rewrite <- app_assoc|].
      rewrite length_app; simpl; lia. }
  erewrite bind_ret_step by (by eapply load_middle).
  erewrite bind_ret_step by reflexivity.
  erewrite bind_ret_step by (by eapply set_slot_middle).
  erewrite bind_ret_step.
  2:{ eapply (set_slot_middle _ _ _ _ _ (pre ++ [Some x]) (Some x) _ post).
      - erewrite heap_insert_lookup by done. by rewrite <- app_assoc.
      - rewrite length_app; simpl; lia. }
  by rewrite list_insert_insert_eq, <- app_assoc.
Qed.

(** ... and for [src] the slot before [dst]. *)
Lemma assign_move_from_prev_step h o l ld pre x z post zd zs :
  h !! ld = Some (Some (pre ++ Some x :: Some z :: post)) →
  zs = Z.of_nat (length pre) → zd = Z.of_nat (length pre) + 1 →
  assign_move (Some ld, zd) (Some ld, zs) (World h o [] l) =
    Some (Ret tt, World (<[ld := Some (pre ++ Some (moved_from x) :: Some x :: post)]> h) o []
                        (l ++ [MoveAssign])).
Proof.
  intros Hb Hzs Hzd. unfold assign_move.
  erewrite bind_ret_step by (by eapply load_middle).
  erewrite bind_ret_step.
  2:{ eapply (load_middle _ _ _ _ _ (pre ++ [Some x]) z post); [by rewrite <- app_assoc|].
      rewrite length_app; simpl; lia. }
  erewrite bind_ret_step by reflexivity.
  erewrite bind_ret_step.
  2:{ eapply (set_slot_middle _ _ _ _ _ (pre ++ [Some x]) (Some z) _ post); [by rewrite <- app_assoc|].
      rewrite length_app; simpl; lia. }
  erewrite bind_ret_step.
  2:{ eapply (set_slot_middle _ _ _ _ _ pre (Some x) _ (Some x :: post)); [|done].
      erewrite heap_insert_lookup by done. by rewrite <- app_assoc. }
  by rewrite list_insert_insert_eq.
Qed.

Lemma assign_move_temp_step h o l ld pre z post zd temp :
  h !! ld = Some (Some (pre ++ Some z :: post)) → zd = Z.of_nat (length pre) →
  assign_move_temp (Some ld, zd) temp (World h o [] l) =
    Some (Ret (moved_from temp),
          World (<[ld := Some (pre ++ Some temp :: post)]> h) o [] (l ++ [MoveAssign])).
Proof.
  intros Hb Hzd. unfold assign_move_temp.
  erewrite bind_ret_step by (by eapply load_middle).
  erewrite bind_ret_step by reflexivity.
  by erewrite bind_ret_step by (by eapply set_slot_middle).
Qed.

(** [std::move_backward] over the objects [ys], whose last lands on the
    object [z] behind them. *)
Lemma std_move_backward_spec ys : ∀ h o l ld pre z post zl,
  h !! ld = Some (Some (pre ++ (Some <$> ys) ++ Some z :: post)) →
  zl = Z.of_nat (length pre + length ys) →
  std_move_backward (Some ld, zl) (length ys) (Some ld, zl + 1) (World h o [] l) =
    Some (Ret tt,
          World (<[ld := Some (pre ++ (Some <$> shifted_right ys z) ++ post)]> h) o []
                (l ++ replicate (length ys) MoveAssign)).
Proof.
  induction ys as [|y ys IH] using rev_ind; intros h o l ld pre z post zl Hb Hzl.
  - simpl. unfold ret. rewrite app_nil_r. by rewrite list_insert_id.
  - rewrite length_app, Nat.add_1_r in *. cbn [std_move_backward].
    unfold ptr_add; cbn [fst snd].
    rewrite fmap_app, <- !app_assoc in Hb. cbn in Hb.
    erewrite bind_ret_step.
    2:{ eapply (assign_move_from_prev_step _ _ _ _ (pre ++ (Some <$> ys)) y z post);
          [by rewrite <- app_assoc | |]; rewrite length_app, length_fmap; lia. }
    replace (zl + 1 + -1) with (zl + -1 + 1) by lia.
    erewrite (IH _ _ _ _ pre (moved_from y) (Some y :: post));
      [|erewrite heap_insert_lookup by done; by rewrite <- app_assoc|lia].
    rewrite list_insert_insert_eq.
    assert (pre ++ (Some <$> shifted_right ys (moved_from y)) ++ Some y :: post
            = pre ++ (Some <$> shifted_right (ys ++ [y]) z) ++ post) as ->.
    { destruct ys as [|y0 ys]; simpl; [done|]. by rewrite fmap_app, <- !app_assoc. }
    by rewrite <- app_assoc.
Qed.

Lemma shifted_left_cons z y ys :
  shifted_left z (y :: ys) = y :: shifted_left (moved_from y) ys.
Proof.
  unfold shifted_left. destruct ys as [|u us]; [done|].
  rewrite last_cons_cons. destruct (last (u :: us)) eqn:E; [done|].
  by apply last_None in E.
Qed.

Lemma shifted_left_snoc z ys : ∃ x, shifted_left z ys = ys ++ [x].
Proof.
  unfold shifted_left. destruct (last ys) eqn:E; [by eexists|].
  apply last_None in E as ->. by exists z.
Qed.

(** [std::move] of the objects [ys] onto the slot before them, which
    holds [z]. *)
Lemma std_move_spec ys : ∀ h o l ld pre z post zd,
  h !! ld = Some (Some (pre ++ Some z :: (Some <$> ys) ++ post)) →
  zd = Z.of_nat (length pre) →
  std_move (Some ld, zd + 1) (length ys) (Some ld, zd) (World h o [] l) =
    Some (Ret tt,
          World (<[ld := Some (pre ++ (Some <$> shifted_left z ys) ++ post)]> h) o []
                (l ++ replicate (length ys) MoveAssign)).
Proof.
  induction ys as [|y ys IH]; intros h o l ld pre z post zd Hb Hzd.
  - simpl. unfold ret. rewrite app_nil_r. by rewrite list_insert_id.
  - cbn [length std_move]. unfold ptr_add; cbn [fst snd]. subst zd.
    assert (Hb' : h !! ld = Some (Some (pre ++ Some z :: Some y :: ((Some <$> ys) ++ post))))
      by exact Hb.
    erewrite bind_ret_step by (by eapply assign_move_from_next_step).
    erewrite (IH _ _ _ _ (pre ++ [Some y]) (moved_from y) post);
      [|erewrite heap_insert_lookup by done; by rewrite <- app_assoc
       |rewrite length_app; simpl; lia].
    rewrite list_insert_insert_eq, shifted_left_cons, <- !app_assoc. done.
Qed.

Lemma PopBack_step h o l this ld cap xs x :
  o !! this = Some (Some {| data_ := {| buffer_ := Some ld; capacity_ := cap |};
                            size_ := Z.of_nat (length (xs ++ [x])) |}) →
  ∀ post, h !! ld = Some (Some ((Some <$> xs) ++ Some x :: post)) →
  PopBack this (World h o [] l) =
    Some (Ret tt,
          World (<[ld := Some ((Some <$> xs) ++ None :: post)]> h)
                (<[this := Some {| data_ := {| buffer_ := Some ld; capacity_ := cap |};
                                   size_ := Z.of_nat (length xs) |}]> o)
                [] (l ++ [Dtor])).
Proof.
  intros Ho post Hb. unfold PopBack.
  erewrite bind_ret_step by (by eapply get_vector_step).
  unfold GetAddress. cbn [size_ data_ buffer_]. rewrite length_app, Nat.add_1_r.
  destruct (Z.ltb_spec 0 (Z.of_nat (S (length xs)))); [|lia].
  erewrite bind_ret_step by reflexivity.
  unfold ptr_add; cbn [fst snd].
  erewrite bind_ret_step.
  2:{ eapply destroy_at_step; [done|]. rewrite length_fmap. lia. }
  erewrite set_vector_step by done.
  by replace (Z.of_nat (S (length xs)) - 1) with (Z.of_nat (length xs)) by lia.
Qed.

(** [Erase] of the element [z] between [front] and [back]. *)
Lemma Erase_step h o l this ld cap front z back :
  let xs := front ++ z :: back in
  o !! this = Some (Some {| data_ := {| buffer_ := Some ld; capacity_ := cap |};
                            size_ := Z.of_nat (length xs) |}) →
  h !! ld = Some (Some (block_of xs cap)) →
  Z.of_nat (length xs) ≤ cap →
  Erase this (Some ld, Z.of_nat (length front)) (World h o [] l) =
    Some (Ret (Some ld, Z.of_nat (length front)),
          World (<[ld := Some (block_of (front ++ back) cap)]> h)
                (<[this := Some {| data_ := {| buffer_ := Some ld; capacity_ := cap |};
                                   size_ := Z.of_nat (length (front ++ back)) |}]> o)
                [] (l ++ replicate (length back) MoveAssign ++ [Dtor])).
Proof.
  intros xs Ho Hb Hcap. unfold Erase.
  assert (Hlen : length xs = S (length front + length back)).
  { unfold xs. rewrite length_app. simpl. lia. }
  erewrite bind_ret_step by (by eapply get_vector_step).
  unfold in_range, begin_, end_, GetAddress, ptr_add, distance; cbn [fst snd data_ buffer_ size_].
  rewrite bool_decide_eq_true_2 by done.
  destruct (Z.leb_spec 0 (Z.of_nat (length front))); [|lia].
  destruct (Z.ltb_spec (Z.of_nat (length front)) (Z.of_nat (length xs))); [|lia].
  erewrite bind_ret_step by reflexivity.
  replace (Z.to_nat (0 + Z.of_nat (length xs) - (Z.of_nat (length front) + 1)))
    with (length back) by lia.
  assert (Hb' : h !! ld = Some (Some ((Some <$> front) ++ Some z :: (Some <$> back)
                                       ++ replicate (Z.to_nat cap - length xs) None))).
  { rewrite Hb. unfold block_of, xs. by rewrite fmap_app, <- app_assoc. }
  erewrite bind_ret_step.
  2:{ eapply std_move_spec; [done|]. by rewrite length_fmap. }
  destruct (shifted_left_snoc z back) as [x' ->].
  erewrite bind_ret_step.
  2:{ eapply (PopBack_step _ _ _ _ ld cap (front ++ back) x').
      - rewrite Ho. do 4 f_equal. rewrite !length_app. simpl. lia.
      - erewrite heap_insert_lookup by done.
        by rewrite !fmap_app, <- !app_assoc. }
  unfold ret. rewrite list_insert_insert_eq.
  assert ((Some <$> front ++ back) ++ None :: replicate (Z.to_nat cap - length xs) None
          = block_of (front ++ back) cap) as ->.
  { unfold block_of. f_equal.
    replace (Z.to_nat cap - length (front ++ back))%nat
      with (S (Z.to_nat cap - length xs)) by (rewrite length_app; lia).
    done. }
  by rewrite <- app_assoc.
Qed.

Lemma size_t_modulus_pos : 0 < size_t_modulus.
Proof. done. Qed.

Lemma block_of_snoc xs cap :
  Z.of_nat (length xs) < cap →
  block_of xs cap = (Some <$> xs) ++ None :: replicate (Z.to_nat cap - S (length xs)) None.
Proof.
  intros. unfold block_of. f_equal.
  replace (Z.to_nat cap - length xs)%nat with (S (Z.to_nat cap - S (length xs))) by lia. done.
Qed.

(** [Emplace] at [end()] with spare capacity. *)
Lemma Emplace_end_step h o l this ld cap xs a :
  o !! this = Some (Some {| data_ := {| buffer_ := Some ld; capacity_ := cap |};
                            size_ := Z.of_nat (length xs) |}) →
  h !! ld = Some (Some (block_of xs cap)) →
  Z.of_nat (length xs) < cap → cap < size_t_modulus →
  Emplace this (Some ld, Z.of_nat (length xs)) a (World h o [] l) =
    Some (Ret (Some ld, Z.of_nat (length xs)),
          World (<[ld := Some (block_of (xs ++ [arg_value a]) cap)]> h)
                (<[this := Some {| data_ := {| buffer_ := Some ld; capacity_ := cap |};
                                   size_ := Z.of_nat (length xs) + 1 |}]> o)
                [] (l ++ [ctor_event a])).
Proof.
  intros Ho Hb Hlt Hcap. unfold Emplace.
  erewrite bind_ret_step by (by eapply get_vector_step).
  unfold in_range, begin_, end_, GetAddress, ptr_add, RawMemory_Capacity;
    cbn [fst snd data_ buffer_ size_ capacity_].
  rewrite bool_decide_eq_true_2 by done.
  destruct (Z.leb_spec 0 (Z.of_nat (length xs))); [|lia].
  destruct (Z.leb_spec (Z.of_nat (length xs)) (Z.of_nat (length xs))); [|lia].
  erewrite bind_ret_step by reflexivity.
  destruct (Z.ltb_spec (Z.of_nat (length xs)) cap); [|lia].
  rewrite Z.sub_0_r, Z.eqb_refl, Z.add_0_l.
  rewrite block_of_snoc in Hb by done.
  erewrite bind_ret_step.
  2:{ eapply construct_at_step; [done|]. by rewrite length_fmap. }
  erewrite bind_ret_step by (by eapply set_vector_step).
  unfold ret. rewrite wrap_small by lia.
  do 4 f_equal. unfold block_of.
  rewrite fmap_app, <- app_assoc, length_app, Nat.add_1_r. done.
Qed.

(** [Emplace] with spare capacity at a position before the end: the
    vector holds [front ++ mid ++ [y]] and the position is that of the
    first element of [mid ++ [y]]. *)
Lemma Emplace_middle_step h o l this ld cap front mid y a :
  let xs := front ++ mid ++ [y] in
  o !! this = Some (Some {| data_ := {| buffer_ := Some ld; capacity_ := cap |};
                            size_ := Z.of_nat (length xs) |}) →
  h !! ld = Some (Some (block_of xs cap)) →
  Z.of_nat (length xs) < cap → cap < size_t_modulus →
  Emplace this (Some ld, Z.of_nat (length front)) a (World h o [] l) =
    Some (Ret (Some ld, Z.of_nat (length front)),
          World (<[ld := Some (block_of (front ++ arg_value a :: mid ++ [y]) cap)]> h)
                (<[this := Some {| data_ := {| buffer_ := Some ld; capacity_ := cap |};
                                   size_ := Z.of_nat (length xs) + 1 |}]> o)
                [] (l ++ [ctor_event a; MoveCtor] ++ replicate (length mid) MoveAssign
                      ++ [MoveAssign; Dtor])).
Proof.
  intros xs Ho Hb Hlt Hcap. unfold Emplace.
  assert (Hlen : length xs = S (length front + length mid)).
  { unfold xs. rewrite !length_app. simpl. lia. }
  erewrite bind_ret_step by (by eapply get_vector_step).
  unfold in_range, begin_, end_, GetAddress, ptr_add, RawMemory_Capacity, distance;
    cbn [fst snd data_ buffer_ size_ capacity_].
  rewrite bool_decide_eq_true_2 by done.
  destruct (Z.leb_spec 0 (Z.of_nat (length front))); [|lia].
  destruct (Z.leb_spec (Z.of_nat (length front)) (Z.of_nat (length xs))); [|lia].
  erewrite bind_ret_step by reflexivity.
  destruct (Z.ltb_spec (Z.of_nat (length xs)) cap); [|lia].
  rewrite Z.sub_0_r, !Z.add_0_l.
  destruct (Z.eqb_spec (Z.of_nat (length front)) (Z.of_nat (length xs))); [lia|].
  set (x := arg_value a).
  set (raw := replicate (Z.to_nat cap - S (length xs)) (@None T)).
  assert (Hb1 : h !! ld = Some (Some ((Some <$> front ++ mid) ++ Some y :: None :: raw))).
  { assert (Some <$> xs = (Some <$> front ++ mid) ++ [Some y]) as Hxs.
    { unfold xs. by rewrite app_assoc, fmap_app. }
    by rewrite Hb, block_of_snoc, Hxs, <- app_assoc by done. }
  assert (∃ z rest, shifted_right mid (moved_from y) = z :: rest ∧
                    rest ++ [y] = mid ++ [y]) as (z & rest & Hshift & Hrest).
  { destruct mid as [|m mid']; simpl; by eexists _, _. }
  erewrite bind_ret_step.
  2:{ erewrite bind_ret_step by apply construct_temp_step.
      erewrite bind_ret_step; [apply record_step|].
      eapply unwinding_ret_step.
      rewrite (wrap_small (Z.of_nat (length xs) - 1)) by lia.
      unfold RawMemory_at, GetAddress, ptr_add; cbn [capacity_ buffer_ fst snd].
      destruct (Z.ltb_spec (Z.of_nat (length xs) - 1) cap); [|lia].
      erewrite bind_ret_step by reflexivity.
      erewrite bind_ret_step.
      2:{ eapply construct_move_next_step; [done| |]; rewrite length_fmap, length_app; lia. }
      replace (Z.to_nat (Z.of_nat (length xs) + -1 - Z.of_nat (length front)))
        with (length mid) by lia.
      replace (Z.of_nat (length xs)) with (Z.of_nat (length xs) + -1 + 1) at 2 by lia.
      erewrite bind_ret_step.
      2:{ eapply (std_move_backward_spec mid _ _ _ _ (Some <$> front) (moved_from y)
                    (Some y :: raw)).
          - erewrite heap_insert_lookup by done. by rewrite fmap_app, <- app_assoc.
          - rewrite length_fmap. lia. }
      rewrite list_insert_insert_eq, Hshift.
      eapply (assign_move_temp_step _ _ _ _ (Some <$> front) z); [|by rewrite length_fmap].
      erewrite heap_insert_lookup by done. done. }
  erewrite bind_ret_step by (by eapply set_vector_step).
  unfold ret. rewrite wrap_small by lia. rewrite list_insert_insert_eq.
  assert (block_of (front ++ x :: mid ++ [y]) cap
          = (Some <$> front) ++ Some x :: (Some <$> rest) ++ Some y :: raw) as ->.
  { assert (length (front ++ x :: rest ++ [y]) = S (length xs)) as Hl.
    { rewrite Hrest, Hlen, length_app. simpl. rewrite length_app. simpl. lia. }
    unfold block_of, raw. rewrite <- Hrest, Hl.
    by rewrite !fmap_app, fmap_cons, !fmap_app, <- !app_assoc, <- app_comm_cons, <- !app_assoc. }
  by rewrite <- !app_assoc.
Qed.

Lemma heap_snoc_insert_at h (c c' : option (list (option T))) n :
  n = length h → <[n := c']> (h ++ [c]) = h ++ [c'].
Proof. intros ->. apply heap_snoc_insert. Qed.

(** Brings updates of a heap that grew by one block to the form
    [<[l := c]> h ++ [c']]. *)
Ltac heap_snoc :=
  repeat first
    [ rewrite heap_snoc_insert_old by (rewrite ?length_insert; lia)
    | rewrite heap_snoc_insert_at by (rewrite ?length_insert; lia)
    | rewrite list_insert_insert_eq ].

Lemma MOVE_OR_COPY_ok xs h o l ls ld spre spost dpre dpost zs zd n :
  ls ≠ ld →
  h !! ls = Some (Some (spre ++ (Some <$> xs) ++ spost)) →
  h !! ld = Some (Some (dpre ++ replicate (length xs) None ++ dpost)) →
  zs = Z.of_nat (length spre) → zd = Z.of_nat (length dpre) → n = Z.of_nat (length xs) →
  MOVE_OR_COPY_IF_NOEXCEPT (Some ls, zs) (Some ld, zd) n (World h o [] l) =
    Some (Ret tt,
          World (<[ls := Some (spre ++ (Some <$> relocated_from (length xs) xs) ++ spost)]>
                   (<[ld := Some (dpre ++ (Some <$> xs) ++ dpost)]> h))
                o [] (l ++ replicate (length xs) relocation_event)).
Proof.
  intros Hne Hs Hd Hzs Hzd ->.
  destruct (MOVE_OR_COPY_spec xs h o [] l ls ld spre spost dpre dpost zs zd)
    as (r & h' & p' & l' & Hrun & Hr & Hp); [done..|].
  destruct Hp as [-> ->]; [done|]. by destruct Hr as [-> ->].
Qed.

(** [Emplace] into a full vector that owns a block: the elements
    [front] go before the new one, [back] behind it. *)
Lemma Emplace_grow_step h o l this lold cap front back a :
  let xs := front ++ back in
  o !! this = Some (Some {| data_ := {| buffer_ := Some lold; capacity_ := cap |};
                            size_ := Z.of_nat (length xs) |}) →
  h !! lold = Some (Some (block_of xs cap)) →
  Z.of_nat (length xs) = cap → 0 < cap → 2 * cap * Z.pos sizeof < size_t_modulus →
  Emplace this (Some lold, Z.of_nat (length front)) a (World h o [] l) =
    Some (Ret (Some (length h), Z.of_nat (length front)),
          World (<[lold := None]> h ++ [Some (block_of (front ++ arg_value a :: back) (2 * cap))])
                (<[this := Some {| data_ := {| buffer_ := Some (length h); capacity_ := 2 * cap |};
                                   size_ := Z.of_nat (length xs) + 1 |}]> o)
                [] (l ++ [New (Z.to_nat (2 * cap))] ++ replicate (length front) relocation_event
                      ++ [ctor_event a] ++ replicate (length back) relocation_event
                      ++ replicate (length xs) Dtor ++ [Delete])).
Proof.
  intros xs Ho Hb Hfull Hpos Hbytes. unfold Emplace.
  assert (Hlen : length xs = (length front + length back)%nat) by apply length_app.
  assert (Hlt : (lold < length h)%nat) by (by eapply lookup_lt_Some).
  assert (Hsz : 2 * cap < size_t_modulus) by (pose proof (Pos2Z.is_pos sizeof); nia).
  erewrite bind_ret_step by (by eapply get_vector_step).
  unfold in_range, begin_, end_, GetAddress, ptr_add, RawMemory_Capacity;
    cbn [fst snd data_ buffer_ size_ capacity_].
  rewrite bool_decide_eq_true_2 by done.
  destruct (Z.leb_spec 0 (Z.of_nat (length front))); [|lia].
  destruct (Z.leb_spec (Z.of_nat (length front)) (Z.of_nat (length xs))); [|lia].
  erewrite bind_ret_step by reflexivity.
  destruct (Z.ltb_spec (Z.of_nat (length xs)) cap); [lia|].
  destruct (Z.eqb_spec (Z.of_nat (length xs)) 0); [lia|].
  rewrite Z.sub_0_r, !Z.add_0_l, Hfull, (wrap_small (2 * cap)) by lia.
  unfold bind at 1. rewrite RawMemory_sized_step by lia. cbn [next_fails tail buffer_].
  set (h1 := h ++ [_]). set (l1 := l ++ [_]). set (x := arg_value a).
  set (raw := replicate (Z.to_nat (2 * cap) - S (length xs)) (@None T)).
  assert (Hold : h1 !! lold = Some (Some ([] ++ (Some <$> front) ++ (Some <$> back)))).
  { unfold h1. rewrite lookup_app_l, Hb by done. unfold block_of.
    replace (Z.to_nat cap - length xs)%nat with 0%nat by lia.
    unfold xs. by rewrite fmap_app, app_nil_r. }
  assert (Hnew : h1 !! length h
                 = Some (Some ([] ++ replicate (length front) None
                                 ++ None :: replicate (length back) None ++ raw))).
  { unfold h1. rewrite heap_snoc_lookup. do 2 f_equal. simpl.
    change (None :: replicate (length back) None ++ raw)
      with (replicate 1 (@None T) ++ replicate (length back) None ++ raw).
    unfold raw. rewrite <- !replicate_add. f_equal. lia. }
  erewrite bind_ret_step.
  2:{ eapply unwinding_ret_step.
      erewrite bind_ret_step.
      2:{ eapply MOVE_OR_COPY_ok; [|exact Hold|exact Hnew|done|done|done]. lia. }
      erewrite bind_ret_step.
      2:{ eapply (construct_at_step _ _ _ _ (Some <$> front)); [|by rewrite length_fmap].
          rewrite list_lookup_insert_ne by lia. erewrite heap_insert_lookup by done. done. }
      rewrite (list_insert_insert_ne _ (length h) lold) by lia.
      rewrite list_insert_insert_eq.
      eapply (MOVE_OR_COPY_ok back _ _ _ _ _ (Some <$> relocated_from (length front) front) []
                ((Some <$> front) ++ [Some x]) raw).
      - lia.
      - erewrite heap_insert_lookup by (rewrite list_lookup_insert_ne by lia; exact Hold).
        by rewrite app_nil_r.
      - rewrite list_lookup_insert_ne by lia. erewrite heap_insert_lookup by exact Hnew.
        by rewrite <- app_assoc.
      - by rewrite length_fmap, length_relocated_from.
      - rewrite length_app, length_fmap. simpl. lia.
      - lia. }
  heap_norm (length h) lold.
  set (old := relocated_from (length front) front ++ relocated_from (length back) back).
  assert (Hold_len : length old = Z.to_nat cap).
  { unfold old. rewrite length_app, !length_relocated_from. lia. }
  rewrite <- Hold_len.
  erewrite bind_ret_step.
  2:{ eapply (destroy_n_spec old _ _ _ _ _ [] []); [|done].
      rewrite list_lookup_insert_eq
        by (unfold h1; rewrite ?length_insert, length_app; simpl; lia).
      unfold old. by rewrite fmap_app, <- app_assoc. }
  cbn [RawMemory_Swap].
  erewrite bind_ret_step by (by eapply set_vector_step).
  erewrite bind_ret_step.
  2:{ unfold RawMemory_dtor, Deallocate; cbn [buffer_]. eapply operator_delete_step.
      rewrite list_insert_insert_eq. apply list_lookup_insert_eq.
      unfold h1. rewrite ?length_insert, length_app. lia. }
  unfold ret. rewrite wrap_small by lia. unfold h1. heap_snoc.
  assert (((Some <$> front) ++ [Some x]) ++ (Some <$> back) ++ raw
          = block_of (front ++ x :: back) (2 * cap)) as ->.
  { assert (length (front ++ x :: back) = S (length xs)) as Hl
      by (rewrite length_app; simpl; lia).
    unfold block_of, raw. by rewrite Hl, fmap_app, fmap_cons, <- !app_assoc. }
  rewrite Hold_len. replace (Z.to_nat cap) with (length xs) by lia.
  unfold l1. rewrite <- Hfull, <- !app_assoc. done.
Qed.

(** [Emplace] into a vector that owns no block. *)
Lemma Emplace_first_step h o l this a :
  o !! this = Some (Some {| data_ := {| buffer_ := None; capacity_ := 0 |}; size_ := 0 |}) →
  Z.pos sizeof < size_t_modulus →
  Emplace this (None, 0) a (World h o [] l) =
    Some (Ret (Some (length h), 0),
          World (h ++ [Some (block_of [arg_value a] 1)])
                (<[this := Some {| data_ := {| buffer_ := Some (length h); capacity_ := 1 |};
                                   size_ := 1 |}]> o)
                [] (l ++ [New 1; ctor_event a])).
Proof.
  intros Ho Hbytes. unfold Emplace.
  erewrite bind_ret_step by (by eapply get_vector_step).
  unfold in_range, begin_, end_, GetAddress, ptr_add, RawMemory_Capacity;
    cbn [fst snd data_ buffer_ size_ capacity_ Z.ltb Z.compare Z.eqb Z.sub Z.add Z.opp].
  rewrite bool_decide_eq_true_2 by done.
  erewrite bind_ret_step by reflexivity.
  unfold bind at 1. rewrite RawMemory_sized_step by lia. cbn [next_fails tail buffer_].
  assert (Hreloc : ∀ q w', MOVE_OR_COPY_IF_NOEXCEPT (None, 0) q 0 w' = Some (Ret tt, w')).
  { intros q w'. unfold MOVE_OR_COPY_IF_NOEXCEPT. by destruct (_ || _). }
  erewrite bind_ret_step.
  2:{ eapply unwinding_ret_step.
      erewrite bind_ret_step by apply Hreloc.
      erewrite bind_ret_step.
      2:{ eapply (construct_at_step _ _ _ _ [] None []); [|done]. apply heap_snoc_lookup. }
      apply Hreloc. }
  cbn [Z.to_nat destroy_n RawMemory_Swap].
  erewrite bind_ret_step by reflexivity.
  erewrite bind_ret_step by (by eapply set_vector_step).
  erewrite bind_ret_step by reflexivity.
  unfold ret. rewrite heap_snoc_insert, <- app_assoc. done.
Qed.

Lemma take_drop_snoc xs i :
  (i < length xs)%nat → ∃ mid y, drop i xs = mid ++ [y] ∧ length mid = (length xs - 1 - i)%nat.
Proof.
  intros Hi. destruct (drop i xs) as [|d ds _] eqn:E using rev_ind.
  - apply (f_equal length) in E. rewrite length_drop in E. simpl in E. lia.
  - exists ds, d. split; [done|]. apply (f_equal length) in E.
    rewrite length_drop, length_app in E. simpl in E. lia.
Qed.

(** Once the run is known, its final state is the witness. *)
Ltac pick_world :=
  match goal with |- ∃ w', Some (_, ?W) = _ ∧ _ => exists W end.

(** [Emplace] at index [i], when nothing fails. *)
Lemma Emplace_run w this xs cap i a :
  holds w this xs cap → plan w = [] → (i ≤ length xs)%nat →
  grown (Z.of_nat (length xs)) cap * Z.pos sizeof < size_t_modulus →
  ∃ w',
    Emplace this (buffer_of w this, Z.of_nat i) a w
      = Some (Ret (buffer_of w' this, Z.of_nat i), w') ∧
    holds w' this (take i xs ++ arg_value a :: drop i xs) (grown (Z.of_nat (length xs)) cap) ∧
    plan w' = [] ∧
    log w' = log w ++ emplace_events (length xs) cap i a.
Proof.
  destruct w as [h o p l].
  intros (v & Ho & Hsz & Hc & Hle & Hbytes & Hbuf) Hp Hi Hgrown.
  destruct v as [[buf c] sz]. cbn [data_ size_ buffer_ capacity_ heap objects log plan] in *.
  subst sz c p.
  assert (Hthis : (this < length o)%nat) by (by eapply lookup_lt_Some).
  assert (Hcap : cap < size_t_modulus) by (pose proof (Pos2Z.is_pos sizeof); nia).
  unfold buffer_of at 1; cbn [objects]. rewrite Ho; cbn [data_ buffer_].
  unfold grown, emplace_events in *.
  destruct (Z.ltb_spec (Z.of_nat (length xs)) cap) as [Hspare|Hfull].
  - (* spare capacity *)
    destruct buf as [ld|]; [|lia]. destruct Hbuf as [_ Hb].
    destruct (Nat.eqb_spec i (length xs)) as [->|Hne].
    + erewrite Emplace_end_step by done. pick_world. split; [|split; [|done]].
      * unfold buffer_of; cbn [objects]. by rewrite list_lookup_insert_eq.
      * rewrite take_ge, drop_ge by lia. eexists. cbn [objects heap].
        split; [by apply list_lookup_insert_eq|]. cbn [data_ size_ buffer_ capacity_].
        rewrite length_app. simpl. repeat split; try done; try lia.
        by erewrite heap_insert_lookup.
    + destruct (take_drop_snoc xs i) as (mid & y & Hdrop & Hmid); [lia|].
      assert (Hxs : xs = take i xs ++ mid ++ [y]) by (by rewrite <- Hdrop, take_drop).
      assert (Htake : length (take i xs) = i) by (rewrite length_take; lia).
      pose proof (Emplace_middle_step h o l this ld cap (take i xs) mid y a) as Hstep.
      cbn zeta in Hstep. rewrite <- Hxs, Htake in Hstep.
      rewrite Hstep by done. pick_world. split; [|split; [|split; [done|]]].
      * unfold buffer_of; cbn [objects]. by rewrite list_lookup_insert_eq.
      * rewrite Hdrop. eexists. cbn [objects heap].
        split; [by apply list_lookup_insert_eq|]. cbn [data_ size_ buffer_ capacity_].
        assert (length (take i xs ++ arg_value a :: mid ++ [y]) = S (length xs)) as Hl.
        { rewrite Hxs at 2. rewrite !length_app. simpl. rewrite !length_app. simpl. lia. }
        rewrite Hl. repeat split; try done; try lia.
        by erewrite heap_insert_lookup.
      * cbn [log]. by rewrite Hmid.
  - (* the vector is full *)
    assert (Z.of_nat (length xs) = cap) as Hfull' by lia.
    destruct buf as [lold|].
    + destruct Hbuf as [Hpos Hb].
      assert (Hlt : (lold < length h)%nat) by (by eapply lookup_lt_Some).
      rewrite Z.max_r in * by lia.
      assert (Htake : length (take i xs) = i) by (rewrite length_take; lia).
      pose proof (Emplace_grow_step h o l this lold cap (take i xs) (drop i xs) a) as Hstep.
      cbn zeta in Hstep. rewrite take_drop, Htake in Hstep.
      rewrite Hstep by (done || lia). pick_world. split; [|split; [|split; [done|]]].
      * unfold buffer_of; cbn [objects]. by rewrite list_lookup_insert_eq.
      * eexists. cbn [objects heap].
        split; [by apply list_lookup_insert_eq|]. cbn [data_ size_ buffer_ capacity_].
        assert (length (take i xs ++ arg_value a :: drop i xs) = S (length xs)) as Hl.
        { rewrite length_app. simpl. rewrite length_take, length_drop. lia. }
        rewrite Hl. repeat split; try done; try lia.
        rewrite lookup_app_r by (rewrite length_insert; lia).
        by rewrite length_insert, Nat.sub_diag.
      * cbn [log]. rewrite length_drop. unfold release_events.
        by destruct (Z.eqb_spec cap 0); [lia|].
    + subst cap. assert (xs = []) as -> by (destruct xs; [done|simpl in Hfull'; lia]).
      assert (i = 0%nat) as -> by (simpl in Hi; lia).
      cbn [length Z.of_nat Z.mul Z.max Z.compare] in *.
      erewrite Emplace_first_step by (done || lia).
      pick_world. split; [|split; [|split; [done|]]].
      * unfold buffer_of; cbn [objects]. by rewrite list_lookup_insert_eq.
      * eexists. cbn [objects heap].
        split; [by apply list_lookup_insert_eq|]. cbn [data_ size_ buffer_ capacity_].
        repeat split; try done; try lia. apply heap_snoc_lookup.
      * done.
Qed.

(** [Erase] at index [i], when nothing fails. *)
Lemma Erase_run w this xs cap i :
  holds w this xs cap → plan w = [] → (i < length xs)%nat →
  ∃ w',
    Erase this (buffer_of w this, Z.of_nat i) w
      = Some (Ret (buffer_of w' this, Z.of_nat i), w') ∧
    holds w' this (delete i xs) cap ∧
    plan w' = [] ∧
    heap w' = <[default 0%nat (buffer_of w this) := Some (block_of (delete i xs) cap)]> (heap w) ∧
    log w' = log w ++ replicate (length xs - 1 - i) MoveAssign ++ [Dtor].
Proof.
  destruct w as [h o p l].
  intros (v & Ho & Hsz & Hc & Hle & Hbytes & Hbuf) Hp Hi.
  destruct v as [[buf c] sz]. cbn [data_ size_ buffer_ capacity_ heap objects log plan] in *.
  subst sz c p.
  assert (Hthis : (this < length o)%nat) by (by eapply lookup_lt_Some).
  unfold buffer_of at 1 3; cbn [objects]. rewrite Ho; cbn [data_ buffer_].
  destruct buf as [ld|]; [|lia]. destruct Hbuf as [_ Hb].
  destruct (lookup_lt_is_Some_2 xs i Hi) as [z Hz].
  assert (Hxs : xs = take i xs ++ z :: drop (S i) xs) by (by rewrite take_drop_middle).
  assert (Htake : length (take i xs) = i) by (rewrite length_take; lia).
  pose proof (Erase_step h o l this ld cap (take i xs) z (drop (S i) xs)) as Hstep.
  cbn zeta in Hstep. rewrite <- Hxs, Htake, <- delete_take_drop in Hstep.
  rewrite Hstep by done. pick_world.
  assert (Hdel : length (delete i xs) = (length xs - 1)%nat).
  { rewrite length_delete by eauto. lia. }
  split; [|split; [|split; [done|split; [done|]]]].
  - unfold buffer_of; cbn [objects]. by rewrite list_lookup_insert_eq.
  - eexists. cbn [objects heap].
    split; [by apply list_lookup_insert_eq|]. cbn [data_ size_ buffer_ capacity_].
    repeat split; try done; try lia. by erewrite heap_insert_lookup.
  - cbn [log]. rewrite length_drop. do 2 f_equal. f_equal. lia.
Qed.

Lemma Size_run w this xs cap :
  holds w this xs cap → Size this w = Some (Ret (Z.of_nat (length xs)), w).
Proof.
  destruct w as [h o p l]. intros (v & Ho & Hsz & _).
  unfold Size. erewrite bind_ret_step by (by eapply get_vector_step).
  unfold ret. by rewrite Hsz.
Qed.

Lemma Capacity_run w this xs cap :
  holds w this xs cap → Capacity this w = Some (Ret cap, w).
Proof.
  destruct w as [h o p l]. intros (v & Ho & _ & Hc & _).
  unfold Capacity. erewrite bind_ret_step by (by eapply get_vector_step).
  unfold ret, RawMemory_Capacity. by rewrite Hc.
Qed.

(** [PushBack], when nothing fails. *)
Lemma PushBack_run w this xs cap x :
  holds w this xs cap → plan w = [] →
  grown (Z.of_nat (length xs)) cap * Z.pos sizeof < size_t_modulus →
  ∃ w',
    PushBack this x w = Some (Ret tt, w') ∧
    holds w' this (xs ++ [x]) (grown (Z.of_nat (length xs)) cap) ∧
    plan w' = [] ∧
    log w' = log w ++ emplace_events (length xs) cap (length xs) (lvalue x).
Proof.
  intros Hh Hp Hg.
  destruct (Emplace_run w this xs cap (length xs) (lvalue x)) as (w' & Hrun & Hh' & Hp' & Hl);
    [done..|].
  exists w'. rewrite take_ge, drop_ge in Hh' by lia. split; [|done].
  unfold PushBack, EmplaceBack.
  destruct w as [h o p l]. destruct Hh as (v & Ho & Hsz & _). cbn [objects] in Ho.
  erewrite bind_ret_step; [reflexivity|].
  erewrite bind_ret_step by (by eapply get_vector_step).
  unfold end_, GetAddress, ptr_add; cbn [fst snd]. rewrite Hsz, Z.add_0_l.
  unfold buffer_of in Hrun at 1; cbn [objects] in Hrun. rewrite Ho in Hrun. exact Hrun.
Qed.

Lemma Vector_default_run w :
  Vector_default w =
    Some (Ret (length (objects w)),
          World (heap w)
                (objects w ++ [Some {| data_ := RawMemory_default; size_ := 0 |}])
                (plan w) (log w)).
Proof. done. Qed.

Lemma holds_default h o p l :
  holds (World h (o ++ [Some {| data_ := RawMemory_default; size_ := 0 |}]) p l)
        (length o) [] 0.
Proof.
  eexists. cbn [objects]. split; [by rewrite lookup_app_r, Nat.sub_diag by lia|].
  by cbn.
Qed.

(** ** Repeated appends *)

Lemma grown_bound n cap total :
  0 ≤ n → n ≤ cap ∨ True → n < total → cap * Z.pos sizeof < size_t_modulus →
  2 * total * Z.pos sizeof ≤ size_t_modulus → n ≤ cap →
  grown n cap * Z.pos sizeof < size_t_modulus.
Proof.
  intros Hn _ Ht Hc Hb Hle. unfold grown. pose proof (Pos2Z.is_pos sizeof).
  destruct (Z.ltb_spec n cap); [done|]. assert (cap = n) as -> by lia.
  destruct (Z.max_spec 1 (2 * n)) as [[_ ->]|[_ ->]]; nia.
Qed.

Lemma append_all_run elems : ∀ w this xs cap,
  holds w this xs cap → plan w = [] →
  2 * Z.of_nat (length xs + length elems) * Z.pos sizeof ≤ size_t_modulus →
  ∃ w' cap',
    append_all this elems w
      = Some (Ret (growth_trace (length elems) (Z.of_nat (length xs)) cap), w') ∧
    holds w' this (xs ++ elems) cap' ∧ plan w' = [].
Proof.
  induction elems as [|x elems IH]; intros w this xs cap Hh Hp Hb.
  - exists w, cap. rewrite app_nil_r. done.
  - cbn [append_all growth_trace length].
    assert (Hg : grown (Z.of_nat (length xs)) cap * Z.pos sizeof < size_t_modulus).
    { destruct Hh as (v & _ & _ & _ & Hle & Hbytes & _).
      apply (grown_bound _ _ (Z.of_nat (length xs + S (length elems)))); auto; lia. }
    destruct (PushBack_run w this xs cap x) as (w1 & Hrun & Hh1 & Hp1 & _); [done..|].
    destruct (IH w1 this (xs ++ [x]) _ Hh1 Hp1) as (w' & cap' & Hrun' & Hh' & Hp').
    { rewrite length_app. simpl. by replace (length xs + 1 + length elems)%nat
        with (length xs + S (length elems))%nat by lia. }
    exists w', cap'. rewrite <- app_assoc in Hh'. split; [|done].
    erewrite bind_ret_step by (by eapply Capacity_run).
    erewrite bind_ret_step by exact Hrun.
    erewrite bind_ret_step by (by eapply Capacity_run).
    erewrite bind_ret_step by exact Hrun'.
    unfold ret. rewrite length_app, Nat2Z.inj_add. simpl.
    by destruct (cap =? grown (Z.of_nat (length xs)) cap).
Qed.

Lemma pow2_pos k : 0 < pow2 k.
Proof. unfold pow2. apply Z.pow_pos_nonneg; lia. Qed.

Lemma pow2_S k : pow2 (S k) = 2 * pow2 k.
Proof. unfold pow2. rewrite Nat2Z.inj_succ, Z.pow_succ_r; lia. Qed.

Lemma pow2_mono j k : (j ≤ k)%nat → pow2 j ≤ pow2 k.
Proof. intros. unfold pow2. apply Z.pow_le_mono_r; lia. Qed.

(** From a capacity that is a power of two, the growth points are
    the next powers of two, as far as the appends need. *)
Lemma growth_trace_pow2 k : ∀ s j,
  0 ≤ s ≤ pow2 j →
  ∃ g, growth_trace k s (pow2 j) = pow2 <$> seq (S j) g ∧
       s + Z.of_nat k ≤ pow2 (j + g) ∧
       ((0 < g)%nat → pow2 (j + g - 1) < s + Z.of_nat k).
Proof.
  induction k as [|k IH]; intros s j Hs.
  - exists 0%nat. rewrite Nat.add_0_r. simpl. split; [done|]. split; [lia|]. intros; lia.
  - cbn [growth_trace]. unfold grown. pose proof (pow2_pos j) as Hpos.
    destruct (Z.ltb_spec s (pow2 j)) as [Hlt|Hge].
    + rewrite Z.eqb_refl. destruct (IH (s + 1) j) as (g & Htr & Hle & Hprev); [lia|].
      exists g. split; [done|]. split; [lia|]. intros Hg. specialize (Hprev Hg). lia.
    + assert (s = pow2 j) as -> by lia.
      rewrite Z.max_r, <- pow2_S by lia.
      destruct (Z.eqb_spec (pow2 j) (pow2 (S j))) as [Heq|_]; [rewrite pow2_S in Heq; lia|].
      destruct (IH (pow2 j + 1) (S j)) as (g & Htr & Hle & Hprev); [rewrite pow2_S; lia|].
      exists (S g). split; [by rewrite Htr|].
      replace (j + S g)%nat with (S j + g)%nat by lia. split; [lia|]. intros _.
      destruct g as [|g].
      * replace (S j + 0 - 1)%nat with j by lia. lia.
      * replace (S j + S g - 1)%nat with (S j + S g - 1)%nat by lia.
        assert (0 < S g)%nat as Hg by lia. specialize (Hprev Hg). lia.
Qed.

Lemma growth_trace_from_empty n :
  (n = 0%nat ∧ growth_trace n 0 0 = []) ∨
  ∃ m, growth_trace n 0 0 = pow2 <$> seq 0 (S m) ∧
       Z.of_nat n ≤ pow2 m ∧ ∀ k, (k < m)%nat → pow2 k < Z.of_nat n.
Proof.
  destruct n as [|n]; [by left|right].
  destruct (growth_trace_pow2 n 1 0) as (g & Htr & Hle & Hprev); [done|].
  exists g. split; [exact (f_equal (cons 1) Htr)|].
  split; [simpl in Hle; lia|]. intros k Hk.
  assert (0 < g)%nat as Hg by lia. specialize (Hprev Hg).
  pose proof (pow2_mono k (0 + g - 1)) as Hm. lia.
Qed.

(** ** What the observers see of a valid vector *)

Lemma live_prefix_block xs rest : live_prefix (length xs) ((Some <$> xs) ++ rest) = Some xs.
Proof.
  induction xs as [|x xs IH]; [done|].
  cbn [length live_prefix fmap list_fmap app]. change (list_fmap _ _ Some xs) with (Some <$> xs).
  by rewrite IH.
Qed.

Lemma holds_elements w this xs cap : holds w this xs cap → elements w this = Some xs.
Proof.
  intros (v & Ho & Hsz & Hc & Hle & _ & Hbuf). unfold elements. rewrite Ho.
  destruct (buffer_ (data_ v)) as [ld|].
  - destruct Hbuf as [_ ->]. rewrite Hsz, Nat2Z.id. apply live_prefix_block.
  - subst cap. rewrite Hsz. destruct xs; [done|simpl in Hle; lia].
Qed.

Lemma holds_begin w this xs cap :
  holds w this xs cap → Vector_begin this w = Some (Ret (buffer_of w this, 0), w).
Proof.
  destruct w as [h o p l]. intros (v & Ho & _). unfold Vector_begin.
  erewrite bind_ret_step by (by eapply get_vector_step).
  unfold buffer_of. by rewrite Ho.
Qed.

Lemma holds_end w this xs cap :
  holds w this xs cap →
  Vector_end this w = Some (Ret (buffer_of w this, Z.of_nat (length xs)), w).
Proof.
  destruct w as [h o p l]. intros (v & Ho & Hsz & _). unfold Vector_end.
  erewrite bind_ret_step by (by eapply get_vector_step).
  unfold buffer_of, end_, ptr_add, GetAddress, ret. rewrite Ho; cbn [fst snd]. by rewrite Hsz.
Qed.

Lemma holds_load w this xs cap i x :
  holds w this xs cap → xs !! i = Some x →
  load (buffer_of w this, Z.of_nat i) w = Some (Ret x, w).
Proof.
  destruct w as [h o p l]. intros (v & Ho & Hsz & Hc & Hle & _ & Hbuf) Hx.
  unfold buffer_of. cbn [objects heap] in *. rewrite Ho.
  destruct (buffer_ (data_ v)) as [ld|].
  - destruct Hbuf as [_ Hb].
    rewrite <- (take_drop_middle xs i x Hx) in Hb. unfold block_of in Hb.
    rewrite fmap_app, fmap_cons, <- app_assoc in Hb.
    eapply load_middle; [exact Hb|].
    rewrite length_fmap, length_take. apply lookup_lt_Some in Hx. lia.
  - apply lookup_lt_Some in Hx. lia.
Qed.


(** * The properties the specification states *)


(** C4.  Appending [n] elements one at a time to a default-constructed
    vector yields size [n], and the capacities seen at the growth
    points are exactly the powers of two 1, 2, 4, ... up to the first
    one that is at least [n]; an append that finds a vector full takes
    it to capacity [max(1, 2 * capacity)].  ([n] elements and the
    doubled storage must fit the address space.) *)
Theorem append_doubles_capacity :
  (∀ w elems,
     plan w = [] →
     2 * Z.of_nat (length elems) * Z.pos sizeof ≤ size_t_modulus →
     ∃ this w1 caps w2,
       Vector_default w = Some (Ret this, w1) ∧
       append_all this elems w1 = Some (Ret caps, w2) ∧
       Size this w2 = Some (Ret (Z.of_nat (length elems)), w2) ∧
       elements w2 this = Some elems ∧
       ((length elems = 0%nat ∧ caps = []) ∨
        ∃ m, caps = pow2 <$> seq 0 (S m) ∧
             Z.of_nat (length elems) ≤ pow2 m ∧
             ∀ k, (k < m)%nat → pow2 k < Z.of_nat (length elems))) ∧
  (∀ w this xs cap x,
     holds w this xs cap → plan w = [] → Z.of_nat (length xs) = cap →
     Z.max 1 (2 * cap) * Z.pos sizeof < size_t_modulus →
     ∃ w', PushBack this x w = Some (Ret tt, w') ∧
           Capacity this w' = Some (Ret (Z.max 1 (2 * cap)), w') ∧
           Size this w' = Some (Ret (cap + 1), w')).
Proof.
  split.
  - intros [h o p l] elems Hp Hb. cbn [plan] in Hp. subst p.
    rewrite Vector_default_run. cbn [heap objects plan log].
    destruct (append_all_run elems _ (length o) [] 0 (holds_default h o [] l))
      as (w2 & cap' & Hrun & Hh & _); [done|by simpl|].
    eexists _, _, _, w2. split; [done|]. split; [exact Hrun|]. simpl in Hh.
    split; [by eapply Size_run|]. split; [by eapply holds_elements|].
    destruct (growth_trace_from_empty (length elems)) as [Hz|Hm]; [left; exact Hz|right; exact Hm].
  - intros w this xs cap x Hh Hp Hfull Hb.
    assert (Hg : grown (Z.of_nat (length xs)) cap = Z.max 1 (2 * cap)).
    { unfold grown. by destruct (Z.ltb_spec (Z.of_nat (length xs)) cap); [lia|]. }
    destruct (PushBack_run w this xs cap x) as (w' & Hrun & Hh' & _); [done|done|by rewrite Hg|].
    exists w'. rewrite Hg in Hh'. split; [done|]. split; [by eapply Capacity_run|].
    erewrite Size_run by done. rewrite length_app, Nat2Z.inj_add, Hfull. done.
Qed.



(** C9.  Assigning a vector to itself, by copy or by move, returns
    without failure and leaves the whole program state as it was: same
    size, capacity and elements, no constructor or destructor call. *)
Theorem self_assignment_is_identity (w : @world T) this :
  operator_assign_copy this this w = Some (Ret tt, w) ∧
  operator_assign_move this this w = Some (Ret tt, w).
Proof.
  unfold operator_assign_copy, operator_assign_move.
  by rewrite bool_decide_eq_true_2.
Qed.

(** C10.  [Erase] at a valid position [p < length] returns the
    position of index [p] in the shrunken sequence: it designates the
    element that followed the erased one, or is [end()] when the last
    element was erased. *)
Theorem Erase_returns_next w this xs cap i :
  holds w this xs cap → plan w = [] → (i < length xs)%nat →
  ∃ it w' first,
    Erase this (buffer_of w this, Z.of_nat i) w = Some (Ret it, w') ∧
    elements w' this = Some (delete i xs) ∧
    Vector_begin this w' = Some (Ret first, w') ∧
    it = ptr_add first (Z.of_nat i) ∧
    (∀ y, xs !! S i = Some y → load it w' = Some (Ret y, w')) ∧
    (S i = length xs → Vector_end this w' = Some (Ret it, w')).
Proof.
  intros Hh Hp Hi.
  destruct (Erase_run w this xs cap i Hh Hp Hi) as (w' & Hrun & Hh' & _).
  eexists _, w', _. split; [exact Hrun|]. split; [by eapply holds_elements|].
  split; [by eapply holds_begin|]. split; [done|]. split.
  - intros y Hy. eapply holds_load; [done|]. by rewrite list_lookup_delete_ge by lia.
  - intros Hlast. erewrite holds_end by done. rewrite length_delete by (by apply lookup_lt_is_Some_2).
    do 4 f_equal. lia.
Qed.

(** ** Operations on one vector leave another one alone

    A unary Hoare logic for [M]: whatever an operation on vector [b]
    does, and whether it returns or throws, the object [a] and the
    block it owns stay as they are, and [b] never comes to point into
    that block. *)

Section Frame.
Variables (a b : nat) (va : Vector) (Ba : list (option T)).
Hypothesis a_ne_b : a ≠ b.

Local Abbreviation away := (away_from va).
Local Abbreviation apart := (apart_from a b va Ba).
Local Abbreviation preserves := (preserves_apart a b va Ba).

Lemma preserves_ret {A} (x : A) (R : A → Prop) : R x → preserves (ret x) R.
Proof. intros HR w r w' Hw [= <- <-]. split; [done|]. by intros ? [= <-]. Qed.

Lemma preserves_weaken {A} (m : M A) (R R' : A → Prop) :
  preserves m R → (∀ x, R x → R' x) → preserves m R'.
Proof. intros Hm HR w r w' Hw Hrun. destruct (Hm w r w' Hw Hrun). split; eauto. Qed.

Lemma preserves_bind {A B} (m : M A) (f : A → M B) R1 R2 :
  preserves m R1 → (∀ x, R1 x → preserves (f x) R2) → preserves (bind m f) R2.
Proof.
  intros Hm Hf w r w' Hw Hrun. unfold bind in Hrun.
  destruct (m w) as [[[x|e] w1]|] eqn:Hmw; [| |done].
  - destruct (Hm w _ _ Hw Hmw) as [Hw1 HR]. eapply Hf; eauto.
  - injection Hrun as <- <-. destruct (Hm w _ _ Hw Hmw) as [Hw1 _]. by split.
Qed.

Lemma preserves_unwinding {A} (m : M A) c R :
  preserves m R → preserves c (λ _, True) → preserves (unwinding m c) R.
Proof.
  intros Hm Hc w r w' Hw Hrun. unfold unwinding in Hrun.
  destruct (m w) as [[[x|e] w1]|] eqn:Hmw; [| |done].
  - injection Hrun as <- <-. eauto.
  - destruct (Hm w _ _ Hw Hmw) as [Hw1 _].
    destruct (c w1) as [[[[]|e'] w2]|] eqn:Hcw; [|done|done].
    injection Hrun as <- <-. destruct (Hc w1 _ _ Hw1 Hcw) as [Hw2 _]. by split.
Qed.

Lemma preserves_attempt m : preserves m (λ _, True) → preserves (attempt m) (λ _, True).
Proof.
  intros Hm w r w' Hw Hrun. unfold attempt in Hrun.
  destruct (m w) as [[[x|e] w1]|] eqn:Hmw; [| |done];
    injection Hrun as <- <-; destruct (Hm w _ _ Hw Hmw); by split.
Qed.

Lemma preserves_assert c : preserves (assert c) (λ _, c = true).
Proof. destruct c; [by apply preserves_ret|]. by intros w r w' _ [=]. Qed.

Lemma preserves_undefined {A} (R : A → Prop) : preserves undefined R.
Proof. by intros w r w' _ [=]. Qed.

Lemma apart_same_memory w w' :
  apart w → heap w' = heap w → objects w' = objects w → apart w'.
Proof. unfold apart_from. by intros ? -> ->. Qed.

Lemma preserves_record e : preserves (record e) (λ _, True).
Proof.
  intros w r w' Hw [= <- <-]. split; [|done]. by eapply apart_same_memory.
Qed.

Lemma preserves_fallible e : preserves (fallible e) (λ _, True).
Proof.
  intros w r w' Hw Hrun. unfold fallible in Hrun.
  destruct (plan w) as [|[] pl]; injection Hrun as <- <-;
    (split; [|done]); by eapply apart_same_memory.
Qed.

Lemma preserves_move_may_throw : preserves move_may_throw (λ _, True).
Proof.
  unfold move_may_throw. destruct is_nothrow_move_constructible;
    [by apply preserves_ret|apply preserves_fallible].
Qed.

Lemma preserves_load (q : ptr) : preserves (load q) (λ _, True).
Proof.
  intros w r w' Hw Hrun. unfold load in Hrun.
  destruct (get_slot w q) as [[x|]|]; [|done|done]. injection Hrun as <- <-. by split.
Qed.

Lemma preserves_set_slot (q : ptr) s : away q.1 → preserves (set_slot q s) (λ _, True).
Proof.
  intros Hp w r w' (Ha & Hblock & Hb) Hrun. unfold set_slot in Hrun.
  destruct q.1 as [lc|] eqn:Hl; [|done].
  destruct (heap w !! lc) as [[blk|]|]; [|done|done].
  destruct (_ && _); [|done]. injection Hrun as <- <-.
  split; [|done]. split; [done|]. split; [|done].
  intros la Hla. cbn [heap upd_heap]. rewrite list_lookup_insert_ne; [by apply Hblock|].
  intros ->. by eapply Hp.
Qed.

Lemma preserves_operator_new bytes : preserves (operator_new bytes) away.
Proof.
  unfold operator_new.
  eapply preserves_bind; [apply preserves_fallible|intros _ _].
  eapply preserves_bind; [apply preserves_record|intros _ _].
  intros w r w' (Ha & Hblock & Hb) [= <- <-]. split.
  - split; [done|]. split; [|done].
    intros la Hla. cbn [heap upd_heap]. rewrite lookup_app_l; [by apply Hblock|].
    eapply lookup_lt_Some. by apply Hblock.
  - intros x [= <-] lc [= <-] Hla. apply Hblock, lookup_lt_Some in Hla. lia.
Qed.

Lemma preserves_operator_delete buf : away buf → preserves (operator_delete buf) (λ _, True).
Proof.
  intros Hbuf. destruct buf as [lc|]; [|by apply preserves_ret]. cbn [operator_delete].
  eapply preserves_bind; [apply preserves_record|intros _ _].
  intros w r w' (Ha & Hblock & Hb) Hrun.
  destruct (heap w !! lc) as [[blk|]|]; [|done|done]. injection Hrun as <- <-.
  split; [|done]. split; [done|]. split; [|done].
  intros la Hla. cbn [heap upd_heap]. rewrite list_lookup_insert_ne; [by apply Hblock|].
  intros ->. by eapply Hbuf.
Qed.

Lemma preserves_get_vector : preserves (get_vector b) (λ v, away (buffer_ (data_ v))).
Proof.
  intros w r w' Hw Hrun. unfold get_vector in Hrun.
  destruct (objects w !! b) as [[v|]|] eqn:Hv; [|done|done]. injection Hrun as <- <-.
  split; [done|]. intros x [= <-]. by apply Hw.
Qed.

Lemma preserves_set_vector v :
  away (buffer_ (data_ v)) → preserves (set_vector b v) (λ _, True).
Proof.
  intros Hv. unfold set_vector.
  eapply preserves_bind; [apply preserves_get_vector|intros _ _].
  intros w r w' (Ha & Hblock & Hb) [= <- <-]. split; [|done]. split; [|split; [done|]].
  - cbn [objects upd_objects]. by rewrite list_lookup_insert_ne.
  - intros vb. cbn [objects upd_objects]. intros Hvb.
    destruct (decide (b < length (objects w))%nat).
    + rewrite list_lookup_insert_eq in Hvb by done. by injection Hvb as <-.
    + rewrite list_insert_ge in Hvb by lia. by apply Hb.
Qed.

Lemma away_ptr_add (q : ptr) k : away q.1 → away (ptr_add q k).1.
Proof. done. Qed.

Lemma away_None : away None.
Proof. by intros lc [=]. Qed.

Lemma away_GetAddress d : away (buffer_ d) → away (GetAddress d).1.
Proof. done. Qed.

Lemma away_begin v : away (buffer_ (data_ v)) → away (begin_ v).1.
Proof. done. Qed.

Lemma away_end v : away (buffer_ (data_ v)) → away (end_ v).1.
Proof. done. Qed.

Create HintDb frame.
#[local] Hint Resolve away_ptr_add away_None away_GetAddress away_begin away_end : frame.

(** One step of a framing proof: the rule for the head of the goal. *)
Ltac frame_step :=
  lazymatch goal with
  | |- preserves (bind _ _) _ => eapply preserves_bind; [|intros ? ?]
  | |- preserves (unwinding _ _) _ => apply preserves_unwinding
  | |- preserves (ret _) _ => apply preserves_ret
  | |- preserves (assert _) _ => apply preserves_assert
  | |- preserves undefined _ => apply preserves_undefined
  | |- preserves (record _) _ => apply preserves_record
  | |- preserves (fallible _) _ => apply preserves_fallible
  | |- preserves move_may_throw _ => apply preserves_move_may_throw
  | |- preserves (load _) _ => apply preserves_load
  | |- preserves (set_slot _ _) _ => apply preserves_set_slot
  | |- preserves (get_vector b) _ => apply preserves_get_vector
  | |- preserves (set_vector b _) _ => apply preserves_set_vector
  | |- preserves (operator_delete _) _ => apply preserves_operator_delete
  | |- preserves (operator_new _) _ => apply preserves_operator_new
  | |- preserves (if ?c then _ else _) _ => destruct c eqn:?
  | |- preserves (match ?x with lvalue _ => _ | rvalue _ => _ end) _ => destruct x
  | |- preserves (match ?x with Some _ => _ | None => _ end) _ => destruct x eqn:?
  end.

Ltac frame := eauto with frame; repeat (frame_step; eauto with frame).

Lemma preserves_construct_copy (q : ptr) x :
  away q.1 → preserves (construct_copy q x) (λ _, True).
Proof. intros. unfold construct_copy. frame. Qed.

Lemma preserves_construct_move (q src : ptr) :
  away q.1 → away src.1 → preserves (construct_move q src) (λ _, True).
Proof. intros. unfold construct_move. frame. Qed.

Lemma preserves_construct_value (q : ptr) :
  away q.1 → preserves (construct_value q) (λ _, True).
Proof. intros. unfold construct_value. frame. Qed.

Lemma preserves_destroy_at (q : ptr) : away q.1 → preserves (destroy_at q) (λ _, True).
Proof. intros. unfold destroy_at. frame. Qed.

Lemma preserves_assign_copy (q src : ptr) :
  away q.1 → preserves (assign_copy q src) (λ _, True).
Proof. intros. unfold assign_copy. frame. Qed.

Lemma preserves_assign_move (q src : ptr) :
  away q.1 → away src.1 → preserves (assign_move q src) (λ _, True).
Proof. intros. unfold assign_move. frame. Qed.

Lemma preserves_construct_at (q : ptr) args :
  away q.1 → preserves (construct_at q args) (λ _, True).
Proof. intros. unfold construct_at, construct_copy. frame. Qed.

Lemma preserves_construct_temp args : preserves (construct_temp args) (λ _, True).
Proof. unfold construct_temp. frame. Qed.

Lemma preserves_assign_move_temp (q : ptr) temp :
  away q.1 → preserves (assign_move_temp q temp) (λ _, True).
Proof. intros. unfold assign_move_temp. frame. Qed.

Lemma preserves_store (q : ptr) x : away q.1 → preserves (store q x) (λ _, True).
Proof. intros. unfold store. frame. Qed.

#[local] Hint Resolve preserves_construct_copy preserves_construct_move preserves_construct_value
  preserves_destroy_at preserves_assign_copy preserves_assign_move preserves_construct_at
  preserves_construct_temp preserves_assign_move_temp preserves_store : frame.

Lemma preserves_uninitialized_copy_n n : ∀ first d_first : ptr,
  away d_first.1 → preserves (uninitialized_copy_n first n d_first) (λ _, True).
Proof.
  induction n as [|n IH]; intros first d_first Hd; cbn [uninitialized_copy_n]; frame.
Qed.

Lemma preserves_uninitialized_move_n n : ∀ first d_first : ptr,
  away first.1 → away d_first.1 →
  preserves (uninitialized_move_n first n d_first) (λ _, True).
Proof.
  induction n as [|n IH]; intros first d_first Hs Hd; cbn [uninitialized_move_n]; frame.
Qed.

Lemma preserves_uninitialized_value_construct_n n : ∀ first : ptr,
  away first.1 → preserves (uninitialized_value_construct_n first n) (λ _, True).
Proof.
  induction n as [|n IH]; intros first Hd; cbn [uninitialized_value_construct_n]; frame.
Qed.

Lemma preserves_destroy_n n : ∀ first : ptr,
  away first.1 → preserves (destroy_n first n) (λ _, True).
Proof. induction n as [|n IH]; intros first Hd; cbn [destroy_n]; frame. Qed.

Lemma preserves_std_move n : ∀ first d_first : ptr,
  away first.1 → away d_first.1 → preserves (std_move first n d_first) (λ _, True).
Proof. induction n as [|n IH]; intros first d_first Hs Hd; cbn [std_move]; frame. Qed.

Lemma preserves_std_move_backward n : ∀ last d_last : ptr,
  away last.1 → away d_last.1 → preserves (std_move_backward last n d_last) (λ _, True).
Proof.
  induction n as [|n IH]; intros last d_last Hs Hd; cbn [std_move_backward]; frame.
Qed.

Lemma preserves_MOVE_OR_COPY (old_begin new_begin : ptr) n :
  away old_begin.1 → away new_begin.1 →
  preserves (MOVE_OR_COPY_IF_NOEXCEPT old_begin new_begin n) (λ _, True).
Proof.
  intros. unfold MOVE_OR_COPY_IF_NOEXCEPT.
  destruct (_ || _); [by apply preserves_uninitialized_move_n
                     |by apply preserves_uninitialized_copy_n].
Qed.

#[local] Hint Resolve preserves_uninitialized_copy_n preserves_uninitialized_move_n
  preserves_uninitialized_value_construct_n preserves_destroy_n preserves_std_move
  preserves_std_move_backward preserves_MOVE_OR_COPY : frame.

Lemma preserves_RawMemory_sized n :
  preserves (RawMemory_sized n) (λ d, away (buffer_ d)).
Proof.
  unfold RawMemory_sized, Allocate.
  eapply preserves_bind; [|intros buf Hbuf; by apply preserves_ret].
  destruct (n =? 0); [apply preserves_ret, away_None|apply preserves_operator_new].
Qed.

Lemma preserves_RawMemory_dtor d : away (buffer_ d) → preserves (RawMemory_dtor d) (λ _, True).
Proof. intros. by apply preserves_operator_delete. Qed.

Lemma preserves_RawMemory_at d index :
  away (buffer_ d) → preserves (RawMemory_at d index) (λ q, away q.1).
Proof. intros. unfold RawMemory_at. frame. Qed.

#[local] Hint Resolve preserves_RawMemory_dtor : frame.

Lemma preserves_Reserve n : preserves (Reserve b n) (λ _, True).
Proof.
  unfold Reserve.
  eapply preserves_bind; [apply preserves_get_vector|intros v Hv].
  destruct (_ <=? _); [by apply preserves_ret|].
  eapply preserves_bind; [apply preserves_RawMemory_sized|intros d Hd].
  cbn [RawMemory_Swap]. frame.
Qed.

Lemma preserves_Resize n : preserves (Resize b n) (λ _, True).
Proof.
  unfold Resize.
  eapply preserves_bind; [apply preserves_get_vector|intros v0 _].
  eapply preserves_bind.
  { destruct (_ <? _); [apply preserves_Reserve|by apply preserves_ret]. }
  intros _ _.
  eapply preserves_bind; [apply preserves_get_vector|intros v Hv]. frame.
Qed.

Lemma in_range_away v (pos : ptr) inclusive :
  away (buffer_ (data_ v)) → in_range v pos inclusive = true → away pos.1.
Proof.
  intros Hv Hr. unfold in_range in Hr.
  apply andb_prop in Hr as [Hr _]. apply andb_prop in Hr as [Hr _].
  apply bool_decide_eq_true in Hr. by rewrite Hr.
Qed.

Lemma preserves_Emplace (pos : ptr) args : preserves (Emplace b pos args) (λ _, True).
Proof.
  unfold Emplace.
  eapply preserves_bind; [apply preserves_get_vector|intros v Hv].
  eapply preserves_bind; [apply preserves_assert|intros ? Hpos; cbv beta in Hpos].
  apply in_range_away in Hpos; [|done].
  destruct (_ <? _).
  - eapply preserves_bind; [|intros _ _; frame].
    frame_step; [frame|].
    eapply preserves_bind; [apply preserves_construct_temp|intros temp _].
    eapply preserves_bind; [|intros _ _; frame].
    apply preserves_unwinding; [|frame].
    eapply preserves_bind; [by apply preserves_RawMemory_at|intros last Hlast].
    eapply preserves_weaken; [frame|done].
  - eapply preserves_bind; [apply preserves_RawMemory_sized|intros d Hd].
    cbn [RawMemory_Swap]. frame.
Qed.

Lemma preserves_PopBack : preserves (PopBack b) (λ _, True).
Proof.
  unfold PopBack.
  eapply preserves_bind; [apply preserves_get_vector|intros v Hv]. frame.
Qed.

Lemma preserves_Erase (pos : ptr) : preserves (Erase b pos) (λ _, True).
Proof.
  unfold Erase.
  eapply preserves_bind; [apply preserves_get_vector|intros v Hv].
  eapply preserves_bind; [apply preserves_assert|intros ? Hpos; cbv beta in Hpos].
  apply in_range_away in Hpos; [|done].
  eapply preserves_bind; [frame|intros _ _].
  eapply preserves_bind; [apply preserves_PopBack|intros _ _]. by apply preserves_ret.
Qed.

Lemma preserves_EmplaceBack args : preserves (EmplaceBack b args) (λ _, True).
Proof.
  unfold EmplaceBack.
  eapply preserves_bind; [apply preserves_get_vector|intros v Hv]. apply preserves_Emplace.
Qed.

Lemma preserves_mutate m : preserves (mutate b m) (λ _, True).
Proof.
  destruct m; cbn [mutate].
  - apply preserves_Reserve.
  - apply preserves_Resize.
  - unfold PushBack. eapply preserves_bind; [apply preserves_EmplaceBack|intros _ _].
    by apply preserves_ret.
  - unfold PushBack_move. eapply preserves_bind; [apply preserves_EmplaceBack|intros _ _].
    by apply preserves_ret.
  - unfold Vector_begin.
    eapply preserves_bind; [|intros first _].
    { eapply preserves_bind; [apply preserves_get_vector|intros v Hv].
      by apply (preserves_ret _ (λ _, True)). }
    eapply preserves_bind; [apply preserves_Emplace|intros _ _]. by apply preserves_ret.
  - unfold Vector_begin.
    eapply preserves_bind; [|intros first _].
    { eapply preserves_bind; [apply preserves_get_vector|intros v Hv].
      by apply (preserves_ret _ (λ _, True)). }
    eapply preserves_bind; [apply preserves_Erase|intros _ _]. by apply preserves_ret.
  - apply preserves_PopBack.
  - unfold Vector_at.
    eapply preserves_bind.
    { eapply preserves_bind; [apply preserves_get_vector|intros v Hv].
      eapply preserves_bind; [apply preserves_assert|intros _ _].
      by apply preserves_RawMemory_at. }
    intros q Hq. by apply preserves_store.
Qed.

Lemma preserves_mutate_all ms : preserves (mutate_all b ms) (λ _, True).
Proof.
  induction ms as [|m ms IH]; cbn [mutate_all]; [by apply preserves_ret|].
  eapply preserves_bind; [apply preserves_attempt, preserves_mutate|by intros _ _].
Qed.

End Frame.

(** A vector whose object and block are where they were is in the
    state it was in. *)
Lemma holds_transfer w w' this xs cap :
  holds w this xs cap →
  objects w' !! this = objects w !! this →
  (∀ lc, buffer_of w this = Some lc → heap w' !! lc = heap w !! lc) →
  holds w' this xs cap.
Proof.
  intros (v & Ho & Hsz & Hc & Hle & Hbytes & Hbuf) Hobj Hheap.
  exists v. rewrite Hobj. repeat (split; [done|]).
  unfold buffer_of in Hheap. rewrite Ho in Hheap.
  destruct (buffer_ (data_ v)) as [lc|]; [|done].
  destruct Hbuf as [? Hb]. split; [done|]. by rewrite Hheap.
Qed.

(** Mutations of [b], under any failure plan, leave a valid vector [a]
    as it is when [b] does not point into [a]'s block. *)
Lemma mutations_leave_other_alone w (a b : nat) xs cap ms pl r w' :
  a ≠ b → holds w a xs cap →
  (∀ lc, buffer_of w b = Some lc → buffer_of w a ≠ Some lc) →
  mutate_all b ms (with_plan pl w) = Some (r, w') →
  holds w' a xs cap.
Proof.
  intros Hab Hh Hsep Hrun.
  destruct Hh as (va & Ho & Hrest).
  assert (Hh : holds w a xs cap) by (by exists va).
  assert (Hbuf : buffer_of w a = buffer_ (data_ va)) by (unfold buffer_of; by rewrite Ho).
  assert (Hblock : ∀ lc, buffer_ (data_ va) = Some lc →
                         heap w !! lc = Some (Some (block_of xs cap))).
  { intros lc Hlc. destruct Hrest as (_ & _ & _ & _ & Hb). rewrite Hlc in Hb. by destruct Hb. }
  assert (Hstart : apart_from a b va (block_of xs cap) (with_plan pl w)).
  { split; [done|]. split; [done|]. cbn [objects with_plan].
    intros vb Hvb lc Hlc. rewrite <- Hbuf. apply Hsep. unfold buffer_of. by rewrite Hvb. }
  destruct (preserves_mutate_all a b va (block_of xs cap) Hab ms _ _ _ Hstart Hrun)
    as [(Ho' & Hblock' & _) _].
  eapply holds_transfer; [exact Hh|by rewrite Ho'|].
  intros lc Hlc. rewrite Hbuf in Hlc. by rewrite Hblock', Hblock.
Qed.

(** The copy constructor, when nothing fails. *)
Lemma Vector_copy_run w v xs cap :
  holds w v xs cap → plan w = [] →
  ∃ w1,
    Vector_copy v w = Some (Ret (length (objects w)), w1) ∧
    holds w1 v xs cap ∧
    holds w1 (length (objects w)) xs (Z.of_nat (length xs)) ∧
    plan w1 = [] ∧
    (∀ lc, buffer_of w1 (length (objects w)) = Some lc → buffer_of w1 v ≠ Some lc).
Proof.
  destruct w as [h o p l].
  intros (vv & Ho & Hsz & Hc & Hle & Hbytes & Hbuf) Hp.
  destruct vv as [[buf c] sz]. cbn [data_ size_ buffer_ capacity_ heap objects log plan] in *.
  subst sz c p.
  assert (Hv : (v < length o)%nat) by (by eapply lookup_lt_Some).
  assert (Hvo : ∀ x, (o ++ [x]) !! v = o !! v) by (intros; by rewrite lookup_app_l).
  assert (Huo : ∀ x, (o ++ [x]) !! length o = Some x).
  { intros. by rewrite lookup_app_r, Nat.sub_diag by lia. }
  unfold Vector_copy.
  erewrite bind_ret_step by (by eapply get_vector_step). cbn [size_ data_].
  destruct xs as [|x0 xs'].
  - (* an empty source: no allocation *)
    cbn [length Z.of_nat Z.to_nat uninitialized_copy_n].
    eexists. split; [reflexivity|]. unfold upd_objects. cbn [objects heap plan log].
    split; [|split; [|split; [done|]]].
    + eexists. cbn [objects heap]. rewrite Hvo. split; [done|]. by cbn.
    + eexists. cbn [objects heap]. rewrite Huo. split; [done|]. by cbn.
    + intros lc. unfold buffer_of. cbn [objects]. by rewrite Huo.
  - set (xs := x0 :: xs') in *.
    assert (0 < Z.of_nat (length xs)) by (simpl; lia).
    destruct buf as [lv|]; [|lia]. destruct Hbuf as [_ Hb].
    assert (Hlv : (lv < length h)%nat) by (by eapply lookup_lt_Some).
    assert (Hsize : Z.of_nat (length xs) * Z.pos sizeof < size_t_modulus)
      by (pose proof (Pos2Z.is_pos sizeof); nia).
    unfold bind at 1. rewrite RawMemory_sized_step by done. cbn [next_fails tail].
    unfold GetAddress; cbn [buffer_]. rewrite !Nat2Z.id.
    destruct (uninitialized_copy_n_spec xs (h ++ [Some (replicate (length xs) None)]) o []
                (l ++ [New (length xs)]) lv (length h) []
                (replicate (Z.to_nat cap - length xs) None) [] [] 0 0)
      as (r & h' & p' & l' & Hrun & Hr & Hok); [lia| | |done|done|].
    { by rewrite lookup_app_l. }
    { rewrite heap_snoc_lookup. by rewrite !app_nil_r. }
    destruct Hok as [-> ->]; [done|]. destruct Hr as [-> ->].
    erewrite bind_ret_step by (by eapply unwinding_ret_step).
    eexists. split; [reflexivity|]. unfold upd_objects. cbn [objects heap plan log].
    rewrite heap_snoc_insert.
    split; [|split; [|split; [done|]]].
    + eexists. cbn [objects heap]. rewrite Hvo. split; [done|].
      cbn [data_ size_ buffer_ capacity_]. repeat split; try done; try lia.
      by rewrite lookup_app_l.
    + eexists. cbn [objects heap]. rewrite Huo. split; [done|].
      cbn [data_ size_ buffer_ capacity_]. repeat split; try done; try lia.
      rewrite heap_snoc_lookup. unfold block_of.
      by rewrite Nat2Z.id, Nat.sub_diag.
    + intros lc. unfold buffer_of. cbn [objects]. rewrite Huo, Hvo, Ho. cbn [data_ buffer_].
      intros [= <-] [= ?]. lia.
Qed.

(** C7.  Copy-constructing [u] from a vector [v] gives [u] the size of
    [v], a capacity equal to that size and the same elements; whatever
    is then done to [u] leaves the size, capacity and elements of [v]
    as they are, and conversely. *)
Theorem copy_is_independent w v xs cap :
  holds w v xs cap → plan w = [] →
  ∃ u w1,
    Vector_copy v w = Some (Ret u, w1) ∧ u ≠ v ∧
    Size u w1 = Some (Ret (Z.of_nat (length xs)), w1) ∧
    Capacity u w1 = Some (Ret (Z.of_nat (length xs)), w1) ∧
    elements w1 u = Some xs ∧ elements w1 v = Some xs ∧
    (∀ ms pl r w2,
       mutate_all u ms (with_plan pl w1) = Some (r, w2) →
       holds w2 v xs cap ∧ elements w2 v = Some xs) ∧
    (∀ ms pl r w2,
       mutate_all v ms (with_plan pl w1) = Some (r, w2) →
       holds w2 u xs (Z.of_nat (length xs)) ∧ elements w2 u = Some xs).
Proof.
  intros Hh Hp.
  destruct (Vector_copy_run w v xs cap Hh Hp) as (w1 & Hrun & Hv & Hu & _ & Hsep).
  assert (Hne : length (objects w) ≠ v).
  { destruct Hh as (vv & Ho & _). apply lookup_lt_Some in Ho. lia. }
  exists (length (objects w)), w1. split; [done|]. split; [done|].
  split; [by eapply Size_run|]. split; [by eapply Capacity_run|].
  split; [by eapply holds_elements|]. split; [by eapply holds_elements|]. split.
  - intros ms pl r w2 Hms.
    assert (holds w2 v xs cap) by (by eapply mutations_leave_other_alone).
    split; [done|by eapply holds_elements].
  - intros ms pl r w2 Hms.
    assert (holds w2 (length (objects w)) xs (Z.of_nat (length xs))).
    { eapply mutations_leave_other_alone; [| |
        |exact Hms]; [done|done|]. intros lc Hv' Hu'. by eapply Hsep. }
    split; [done|by eapply holds_elements].
Qed.

(** * Further properties of the code *)

(** ** Removing elements cannot fail *)

Lemma block_of_unsnoc xs x cap :
  Z.of_nat (length (xs ++ [x])) ≤ cap →
  block_of (xs ++ [x]) cap = (Some <$> xs) ++ Some x :: replicate (Z.to_nat cap - S (length xs)) None
  ∧ block_of xs cap = (Some <$> xs) ++ None :: replicate (Z.to_nat cap - S (length xs)) None.
Proof.
  rewrite length_app. simpl. intros Hle. split.
  - unfold block_of. rewrite fmap_app, <- app_assoc, length_app. simpl.
    by replace (length xs + 1)%nat with (S (length xs)) by lia.
  - apply block_of_snoc. lia.
Qed.

(** [PopBack] under any failure plan. *)
Lemma PopBack_run w this xs x cap :
  holds w this (xs ++ [x]) cap →
  ∃ w', PopBack this w = Some (Ret tt, w') ∧
        holds w' this xs cap ∧
        buffer_of w' this = buffer_of w this ∧
        plan w' = plan w ∧
        log w' = log w ++ [Dtor].
Proof.
  destruct w as [h o p l].
  intros (v & Ho & Hsz & Hc & Hle & Hbytes & Hbuf).
  destruct v as [[buf c] sz]. cbn [data_ size_ buffer_ capacity_ heap objects log plan] in *.
  subst sz c.
  assert (Hthis : (this < length o)%nat) by (by eapply lookup_lt_Some).
  destruct (block_of_unsnoc xs x cap Hle) as [Hfull Hless].
  rewrite length_app in Hle; simpl in Hle.
  destruct buf as [ld|]; [|lia]. destruct Hbuf as [Hpos Hb]. rewrite Hfull in Hb.
  unfold PopBack.
  erewrite bind_ret_step by (by eapply get_vector_step).
  unfold GetAddress. cbn [size_ data_ buffer_]. rewrite length_app, Nat.add_1_r.
  destruct (Z.ltb_spec 0 (Z.of_nat (S (length xs)))); [|lia].
  erewrite bind_ret_step by reflexivity.
  unfold ptr_add; cbn [fst snd].
  erewrite bind_ret_step.
  2:{ eapply destroy_at_step; [done|]. rewrite length_fmap. lia. }
  erewrite set_vector_step by done.
  eexists. split; [reflexivity|]. cbn [plan log].
  split; [|split; [|done]].
  - eexists. cbn [objects heap]. split; [by apply list_lookup_insert_eq|].
    cbn [data_ size_ buffer_ capacity_].
    split; [lia|]. split; [done|]. split; [lia|]. split; [done|]. split; [done|].
    erewrite heap_insert_lookup by done. by rewrite Hless.
  - unfold buffer_of; cbn [objects]. by rewrite list_lookup_insert_eq, Ho.
Qed.

Lemma PopBack_empty w this cap : holds w this [] cap → PopBack this w = None.
Proof.
  destruct w as [h o p l].
  intros (v & Ho & Hsz & _). cbn [objects] in Ho. simpl in Hsz.
  unfold PopBack. erewrite bind_ret_step by (by eapply get_vector_step).
  by rewrite Hsz.
Qed.

(** X1.  [PopBack] on a vector that holds at least one element destroys
    the last element and nothing else, whatever failures are planned:
    one destructor call, the same storage, the same capacity.  On an
    empty vector the call is undefined. *)
Theorem PopBack_removes_last w this xs cap :
  holds w this xs cap →
  (xs = [] → PopBack this w = None) ∧
  (∀ ys y, xs = ys ++ [y] →
     ∃ w', PopBack this w = Some (Ret tt, w') ∧
           holds w' this ys cap ∧
           elements w' this = Some ys ∧
           buffer_of w' this = buffer_of w this ∧
           plan w' = plan w ∧
           log w' = log w ++ [Dtor]).
Proof.
  intros Hh. split.
  - intros ->. by eapply PopBack_empty.
  - intros ys y ->.
    destruct (PopBack_run w this ys y cap Hh) as (w' & Hrun & Hh' & Hbuf & Hp & Hl).
    exists w'. split; [done|]. split; [done|]. split; [by eapply holds_elements|]. done.
Qed.

(** ** [Resize] *)

Lemma construct_value_step h o p l ld pre s post z :
  h !! ld = Some (Some (pre ++ s :: post)) → z = Z.of_nat (length pre) →
  construct_value (Some ld, z) (World h o p l) =
    if next_fails p then Some (Throw element_failure, World h o (tail p) l)
    else Some (Ret tt, World (<[ld := Some (pre ++ Some value_initialized :: post)]> h) o
                             (tail p) (l ++ [DefaultCtor])).
Proof.
  intros Hb Hz. unfold construct_value.
  unfold bind at 1. rewrite fallible_step.
  destruct (next_fails p); [done|].
  erewrite bind_ret_step by (by eapply set_slot_middle). done.
Qed.

(** [std::uninitialized_value_construct_n] over raw slots: it fills
    them all, or destroys what it built and leaves them raw. *)
Lemma uninitialized_value_construct_n_spec n : ∀ h o p l ld pre post z,
  h !! ld = Some (Some (pre ++ replicate n None ++ post)) → z = Z.of_nat (length pre) →
  ∃ r h' p' l',
    uninitialized_value_construct_n (Some ld, z) n (World h o p l)
      = Some (r, World h' o p' l') ∧
    match r with
    | Ret _ =>
        h' = <[ld := Some (pre ++ replicate n (Some value_initialized) ++ post)]> h ∧
        l' = l ++ replicate n DefaultCtor
    | Throw e =>
        e = element_failure ∧ h' = h ∧
        ∃ k, (k < n)%nat ∧ l' = l ++ replicate k DefaultCtor ++ replicate k Dtor
    end ∧
    (p = [] → r = Ret tt ∧ p' = []).
Proof.
  induction n as [|n IH]; intros h o p l ld pre post z Hb Hz.
  - exists (Ret tt), h, p, l. simpl. split; [reflexivity|]. split; [|done].
    split; [|by rewrite app_nil_r]. symmetry. by apply list_insert_id.
  - cbn [uninitialized_value_construct_n].
    assert (Hb' : h !! ld = Some (Some (pre ++ None :: (replicate n None ++ post)))) by exact Hb.
    unfold bind at 1.
    erewrite construct_value_step by (done || exact Hb').
    destruct (next_fails p) eqn:Hp.
    + exists (Throw element_failure), h, (tail p), l. split; [done|]. split.
      * split; [done|]. split; [done|]. exists 0%nat. simpl. split; [lia|by rewrite app_nil_r].
      * intros ->. done.
    + set (h1 := <[ld := _]> h).
      destruct (IH h1 o (tail p) (l ++ [DefaultCtor]) ld (pre ++ [Some value_initialized]) post
                  (z + 1)) as (r & h' & p' & l' & Hrun & Hr & Hp');
        [|rewrite length_app; simpl; lia|].
      { unfold h1. erewrite heap_insert_lookup by done. by rewrite <- app_assoc. }
      unfold ptr_add; cbn [fst snd].
      destruct r as [[]|e].
      * exists (Ret tt), h', p', l'. split; [by erewrite unwinding_ret_step|].
        destruct Hr as [-> ->]. split.
        -- unfold h1. by rewrite list_insert_insert_eq, <- !app_assoc.
        -- intros ->. by apply Hp'.
      * destruct Hr as (-> & -> & k & Hk & ->).
        eexists (Throw element_failure), h, p', _. split.
        -- erewrite unwinding_throw_step; [done|done|].
           erewrite destroy_at_step; [| unfold h1; by erewrite heap_insert_lookup by done | done].
           unfold h1. rewrite list_insert_insert_eq.
           rewrite (list_insert_id h ld) by done. done.
        -- split.
           ++ split; [done|]. split; [done|]. exists (S k). split; [lia|].
              rewrite <- !app_assoc. simpl. by rewrite replicate_cons_app.
           ++ intros ->. destruct Hp' as [? _]; done.
Qed.

Lemma block_of_resized_down xs cap n :
  (n ≤ length xs)%nat → Z.of_nat (length xs) ≤ cap →
  block_of xs cap = (Some <$> take n xs) ++ (Some <$> drop n xs)
                      ++ replicate (Z.to_nat cap - length xs) None ∧
  block_of (resized n xs) cap = (Some <$> take n xs) ++ replicate (length (drop n xs)) None
                      ++ replicate (Z.to_nat cap - length xs) None.
Proof.
  intros Hn Hle. split.
  - unfold block_of. by rewrite app_assoc, <- fmap_app, take_drop.
  - unfold block_of, resized.
    replace (n - length xs)%nat with 0%nat by lia. simpl. rewrite app_nil_r.
    rewrite length_take, length_drop, <- replicate_add. do 2 f_equal. lia.
Qed.

Lemma block_of_resized_up xs cap n :
  (length xs < n)%nat → Z.of_nat n ≤ cap →
  block_of xs cap = (Some <$> xs) ++ replicate (n - length xs) None
                      ++ replicate (Z.to_nat cap - n) None ∧
  block_of (resized n xs) cap = (Some <$> xs) ++ replicate (n - length xs) (Some value_initialized)
                      ++ replicate (Z.to_nat cap - n) None.
Proof.
  intros Hn Hle. split.
  - unfold block_of. rewrite <- replicate_add. do 2 f_equal. lia.
  - unfold block_of, resized. rewrite take_ge by lia.
    rewrite fmap_app, fmap_replicate, <- app_assoc, length_app, length_replicate.
    do 3 f_equal. lia.
Qed.

Lemma length_resized n xs : length (resized n xs) = n.
Proof. unfold resized. rewrite length_app, length_take, length_replicate. lia. Qed.

(** [Resize(n)] for [n] within the capacity, under any failure plan. *)
Lemma Resize_within_run w this xs cap n :
  holds w this xs cap → 0 ≤ n ≤ cap →
  ∃ r w',
    Resize this n w = Some (r, w') ∧
    match r with
    | Ret _ =>
        holds w' this (resized (Z.to_nat n) xs) cap ∧
        buffer_of w' this = buffer_of w this ∧
        log w' = log w ++ replicate (length xs - Z.to_nat n) Dtor
                   ++ replicate (Z.to_nat n - length xs) DefaultCtor
    | Throw e =>
        e = element_failure ∧ heap w' = heap w ∧ objects w' = objects w ∧
        ∃ k, (k < Z.to_nat n - length xs)%nat ∧
             log w' = log w ++ replicate k DefaultCtor ++ replicate k Dtor
    end ∧
    (n ≤ Z.of_nat (length xs) → r = Ret tt ∧ plan w' = plan w) ∧
    (plan w = [] → r = Ret tt ∧ plan w' = []).
Proof.
  destruct w as [h o p l].
  intros (v & Ho & Hsz & Hc & Hle & Hbytes & Hbuf) Hn.
  destruct v as [[buf c] sz]. cbn [data_ size_ buffer_ capacity_ heap objects log plan] in *.
  subst sz c.
  assert (Hthis : (this < length o)%nat) by (by eapply lookup_lt_Some).
  unfold Resize.
  erewrite bind_ret_step by (by eapply get_vector_step).
  cbn [data_ size_ RawMemory_Capacity capacity_].
  destruct (Z.ltb_spec cap n); [lia|].
  erewrite bind_ret_step by reflexivity.
  erewrite bind_ret_step by (by eapply get_vector_step).
  cbn [data_ size_ buffer_]. unfold GetAddress, ptr_add; cbn [buffer_ fst snd].
  rewrite !Z.add_0_l.
  destruct buf as [ld|].
  - destruct Hbuf as [Hpos Hb].
    destruct (Z.ltb_spec (Z.of_nat (length xs)) n) as [Hup|Hdown].
    + (* growing within the capacity *)
      destruct (block_of_resized_up xs cap (Z.to_nat n)) as [Hold Hnew]; [lia|lia|].
      replace (Z.to_nat (n - Z.of_nat (length xs))) with (Z.to_nat n - length xs)%nat by lia.
      destruct (uninitialized_value_construct_n_spec (Z.to_nat n - length xs) h o p l ld
                  (Some <$> xs) (replicate (Z.to_nat cap - Z.to_nat n) None)
                  (Z.of_nat (length xs)))
        as (r & h' & p' & l' & Hrun & Hr & Hp); [by rewrite Hb, Hold|by rewrite length_fmap|].
      destruct r as [[]|e].
      * destruct Hr as [-> ->].
        erewrite bind_ret_step by exact Hrun.
        erewrite set_vector_step by done.
        eexists (Ret tt), _. split; [reflexivity|]. split; [|split; [lia|]].
        -- split; [|split].
           ++ eexists. cbn [objects heap]. split; [by apply list_lookup_insert_eq|].
              cbn [data_ size_ buffer_ capacity_]. rewrite length_resized.
              split; [lia|]. split; [done|]. split; [lia|]. split; [done|]. split; [done|].
              erewrite heap_insert_lookup by done. by rewrite Hnew.
           ++ unfold buffer_of; cbn [objects]. by rewrite list_lookup_insert_eq, Ho.
           ++ cbn [log]. by replace (length xs - Z.to_nat n)%nat with 0%nat by lia.
        -- cbn [plan]. intros ->. by destruct Hp.
      * destruct Hr as (-> & -> & k & Hk & ->).
        erewrite bind_throw_step by exact Hrun.
        eexists (Throw element_failure), _. split; [reflexivity|]. split; [|split; [lia|]].
        -- cbn [heap objects log]. split; [done|]. split; [done|]. split; [done|]. by exists k.
        -- cbn [plan]. intros ->. by destruct Hp.
    + (* shrinking *)
      destruct (block_of_resized_down xs cap (Z.to_nat n)) as [Hold Hnew]; [lia|lia|].
      replace (Z.to_nat (Z.of_nat (length xs) - n)) with (length (drop (Z.to_nat n) xs))
        by (rewrite length_drop; lia).
      erewrite bind_ret_step.
      2:{ eapply (destroy_n_spec (drop (Z.to_nat n) xs) h o p l ld (Some <$> take (Z.to_nat n) xs)).
          - by rewrite Hb, Hold.
          - rewrite length_fmap, length_take. lia. }
      erewrite set_vector_step by done.
      eexists (Ret tt), _. split; [reflexivity|]. split; [|by split].
      split; [|split].
      * eexists. cbn [objects heap]. split; [by apply list_lookup_insert_eq|].
        cbn [data_ size_ buffer_ capacity_]. rewrite length_resized.
        split; [lia|]. split; [done|]. split; [lia|]. split; [done|]. split; [done|].
        erewrite heap_insert_lookup by done. by rewrite Hnew.
      * unfold buffer_of; cbn [objects]. by rewrite list_lookup_insert_eq, Ho.
      * cbn [log]. rewrite length_drop.
        replace (Z.to_nat n - length xs)%nat with 0%nat by lia. simpl. by rewrite app_nil_r.
  - (* no storage: the vector is empty and [n] is 0 *)
    assert (n = 0) as -> by lia. assert (xs = []) as -> by (destruct xs; [done|simpl in Hle; lia]).
    cbn [length Z.of_nat Z.ltb Z.compare Z.sub Z.to_nat destroy_n Z.opp].
    erewrite bind_ret_step by reflexivity.
    erewrite set_vector_step by done.
    eexists (Ret tt), _. split; [reflexivity|]. split; [|by split].
    split; [|split].
    + eexists. cbn [objects heap]. split; [by apply list_lookup_insert_eq|]. by cbn.
    + unfold buffer_of; cbn [objects]. by rewrite list_lookup_insert_eq, Ho.
    + cbn. by rewrite app_nil_r.
Qed.

Lemma Resize_after_Reserve w w1 this xs cap n :
  holds w this xs cap → cap < n →
  Reserve this n w = Some (Ret tt, w1) → holds w1 this xs n →
  Resize this n w = Resize this n w1.
Proof.
  destruct w as [h o p l], w1 as [h1 o1 p1 l1].
  intros (v & Ho & _ & Hc & _) Hlt Hrun (v1 & Ho1 & _ & Hc1 & _).
  cbn [objects] in Ho, Ho1. unfold Resize.
  rewrite (bind_ret_step (get_vector this) _ (World h o p l) v (World h o p l))
    by (by eapply get_vector_step).
  rewrite (bind_ret_step (get_vector this) _ (World h1 o1 p1 l1) v1 (World h1 o1 p1 l1))
    by (by eapply get_vector_step).
  unfold RawMemory_Capacity. rewrite Hc, Hc1.
  destruct (Z.ltb_spec cap n); [|lia]. destruct (Z.ltb_spec n n); [lia|].
  erewrite bind_ret_step by exact Hrun. by erewrite (bind_ret_step (ret tt)) by reflexivity.
Qed.

(** [Resize(n)] when nothing fails. *)
Lemma Resize_run w this xs cap n :
  holds w this xs cap → plan w = [] → 0 ≤ n →
  (n ≤ cap ∨ n * Z.pos sizeof < size_t_modulus) →
  ∃ w',
    Resize this n w = Some (Ret tt, w') ∧
    holds w' this (resized (Z.to_nat n) xs) (Z.max cap n) ∧
    plan w' = [] ∧
    log w' = log w
      ++ (if cap <? n
          then [New (Z.to_nat n)] ++ replicate (length xs) relocation_event
                 ++ replicate (length xs) Dtor ++ release_events cap
          else [])
      ++ replicate (length xs - Z.to_nat n) Dtor
      ++ replicate (Z.to_nat n - length xs) DefaultCtor.
Proof.
  intros Hh Hp Hn Hfit.
  destruct (Z.ltb_spec cap n) as [Hgrow|Hin].
  - destruct Hfit as [?|Hfit]; [lia|].
    destruct (Reserve_run w this xs cap n Hh Hgrow Hfit) as (r & w1 & Hrun & Hr & Hok).
    destruct (Hok Hp) as [-> Hp1]. destruct Hr as (Hh1 & _ & _ & Hl1).
    rewrite (Resize_after_Reserve w w1 this xs cap n) by done.
    destruct (Resize_within_run w1 this xs n n Hh1) as (r & w' & Hrun' & Hr & _ & Hok'); [lia|].
    destruct (Hok' Hp1) as [-> Hp']. destruct Hr as (Hh' & _ & Hl').
    exists w'. split; [done|]. rewrite Z.max_r by lia. split; [done|]. split; [done|].
    rewrite Hl', Hl1. by rewrite <- !app_assoc.
  - destruct (Resize_within_run w this xs cap n Hh) as (r & w' & Hrun' & Hr & _ & Hok'); [lia|].
    destruct (Hok' Hp) as [-> Hp']. destruct Hr as (Hh' & _ & Hl').
    exists w'. split; [done|]. rewrite Z.max_l by lia. done.
Qed.



(** X3.  [Resize(n)] with [n] at most the size cannot fail, whatever
    failures are planned: it destroys the elements from index [n] on,
    one destructor call each, and keeps the first [n] elements, the
    storage and the capacity. *)
Theorem Resize_down_cannot_fail w this xs cap n :
  holds w this xs cap → 0 ≤ n ≤ Z.of_nat (length xs) →
  ∃ w',
    Resize this n w = Some (Ret tt, w') ∧
    elements w' this = Some (take (Z.to_nat n) xs) ∧
    Capacity this w' = Some (Ret cap, w') ∧
    buffer_of w' this = buffer_of w this ∧
    plan w' = plan w ∧
    log w' = log w ++ replicate (length xs - Z.to_nat n) Dtor.
Proof.
  intros Hh Hn.
  assert (Hle : Z.of_nat (length xs) ≤ cap) by (by destruct Hh as (? & _ & _ & _ & ? & _)).
  destruct (Resize_within_run w this xs cap n Hh) as (r & w' & Hrun & Hr & Hdown & _); [lia|].
  destruct Hdown as [-> Hp]; [lia|]. destruct Hr as (Hh' & Hbuf & Hl).
  assert (Hres : resized (Z.to_nat n) xs = take (Z.to_nat n) xs).
  { unfold resized. replace (Z.to_nat n - length xs)%nat with 0%nat by lia.
    simpl. by rewrite app_nil_r. }
  rewrite Hres in Hh'.
  exists w'. split; [done|]. split; [by eapply holds_elements|].
  split; [by eapply Capacity_run|]. split; [done|]. split; [done|].
  rewrite Hl. replace (Z.to_nat n - length xs)%nat with 0%nat by lia. simpl.
  by rewrite app_nil_r.
Qed.

(** ** The ledger of constructions and allocations *)

Lemma live_objects_nil : live_objects [] = 0.
Proof. done. Qed.

Lemma live_objects_cons e l :
  live_objects (e :: l) =
    match e with
    | DefaultCtor | CopyCtor | MoveCtor => 1
    | Dtor => -1
    | _ => 0
    end + live_objects l.
Proof.
  unfold live_objects, constructions, destructions, count.
  rewrite !filter_cons.
  destruct e; repeat case_decide; try congruence; cbn [length]; lia.
Qed.

Lemma live_objects_app l1 l2 : live_objects (l1 ++ l2) = live_objects l1 + live_objects l2.
Proof.
  induction l1 as [|e l1 IH]; [by rewrite live_objects_nil|].
  rewrite <- app_comm_cons, !live_objects_cons, IH. lia.
Qed.

Lemma live_objects_replicate k e :
  live_objects (replicate k e) = Z.of_nat k * live_objects [e].
Proof.
  induction k as [|k IH]; [done|].
  cbn [replicate]. rewrite (live_objects_cons e (replicate k e)), IH.
  rewrite (live_objects_cons e []), live_objects_nil. lia.
Qed.

Lemma live_blocks_nil : live_blocks [] = 0.
Proof. done. Qed.

Lemma live_blocks_cons e l :
  live_blocks (e :: l) =
    match e with New _ => 1 | Delete => -1 | _ => 0 end + live_blocks l.
Proof.
  unfold live_blocks, releases, count. rewrite filter_cons.
  destruct e; repeat case_decide; try congruence; cbn [length allocations]; lia.
Qed.

Lemma live_blocks_app l1 l2 : live_blocks (l1 ++ l2) = live_blocks l1 + live_blocks l2.
Proof.
  induction l1 as [|e l1 IH]; [by rewrite live_blocks_nil|].
  rewrite <- app_comm_cons, !live_blocks_cons, IH. lia.
Qed.

Lemma live_blocks_replicate k e :
  live_blocks (replicate k e) = Z.of_nat k * live_blocks [e].
Proof.
  induction k as [|k IH]; [done|].
  cbn [replicate]. rewrite (live_blocks_cons e (replicate k e)), IH.
  rewrite (live_blocks_cons e []), live_blocks_nil. lia.
Qed.

Lemma live_objects_relocation : live_objects [relocation_event] = 1.
Proof. by destruct relocation_event_cases as [-> | ->]. Qed.

Lemma live_blocks_relocation : live_blocks [relocation_event] = 0.
Proof. by destruct relocation_event_cases as [-> | ->]. Qed.

Lemma live_objects_ctor (a : @ctor_args T) : live_objects [ctor_event a] = 1.
Proof. by destruct a. Qed.

Lemma live_blocks_ctor (a : @ctor_args T) : live_blocks [ctor_event a] = 0.
Proof. by destruct a. Qed.

Lemma live_objects_release cap : live_objects (release_events cap) = 0.
Proof. unfold release_events. by destruct (cap =? 0). Qed.

Lemma live_blocks_release cap : live_blocks (release_events cap) = - owned_blocks cap.
Proof. unfold release_events, owned_blocks. by destruct (cap =? 0). Qed.

(** Evaluates the ledger of a log given as a concatenation. *)
Ltac ledger :=
  rewrite ?live_objects_app, ?live_blocks_app, ?live_objects_replicate, ?live_blocks_replicate,
    ?live_objects_relocation, ?live_blocks_relocation, ?live_objects_ctor, ?live_blocks_ctor,
    ?live_objects_release, ?live_blocks_release,
    ?live_objects_cons, ?live_blocks_cons, ?live_objects_nil, ?live_blocks_nil;
  unfold owned_blocks;
  repeat match goal with |- context [?z =? 0] => destruct (Z.eqb_spec z 0) end.


(** ** Constructors and the destructor *)

Lemma Forall_None_singleton : Forall (λ c : option (list (option T)), c = None) [None].
Proof. by repeat constructor. Qed.


(** X6.  The copy constructor either builds a vector with the elements
    of its source in storage of exactly as many slots, or throws; in
    both cases the source is as it was, and when it throws no vector
    comes into being, every copy already built is destroyed and the
    storage is released. *)
Theorem Vector_copy_builds_or_cleans_up w v xs cap :
  holds w v xs cap →
  ∃ r w',
    Vector_copy v w = Some (r, w') ∧
    holds w' v xs cap ∧
    match r with
    | Ret u =>
        u = length (objects w) ∧
        holds w' u xs (Z.of_nat (length xs)) ∧
        log w' = log w ++ (if decide (xs = []) then [] else [New (length xs)])
                   ++ replicate (length xs) CopyCtor
    | Throw e =>
        objects w' = objects w ∧
        take (length (heap w)) (heap w') = heap w ∧
        Forall (λ c, c = None) (drop (length (heap w)) (heap w')) ∧
        live_objects (log w') = live_objects (log w) ∧
        live_blocks (log w') = live_blocks (log w)
    end ∧
    (plan w = [] → ∃ u, r = Ret u).
Proof.
  destruct w as [h o p l].
  intros (vv & Ho & Hsz & Hc & Hle & Hbytes & Hbuf).
  assert (Hh : holds (World h o p l) v xs cap) by (exists vv; done).
  destruct vv as [[buf c] sz]. cbn [data_ size_ buffer_ capacity_ heap objects log plan] in *.
  subst sz c.
  assert (Hv : (v < length o)%nat) by (by eapply lookup_lt_Some).
  assert (Hvo : ∀ x, (o ++ [x]) !! v = o !! v) by (intros; by rewrite lookup_app_l).
  assert (Huo : ∀ x, (o ++ [x]) !! length o = Some x).
  { intros. by rewrite lookup_app_r, Nat.sub_diag by lia. }
  unfold Vector_copy.
  erewrite bind_ret_step by (by eapply get_vector_step). cbn [size_ data_].
  destruct xs as [|x0 xs'].
  - (* an empty source: no allocation, no failure *)
    cbn [length Z.of_nat Z.to_nat uninitialized_copy_n].
    eexists (Ret _), _. split; [reflexivity|]. unfold upd_objects. cbn [objects heap plan log].
    split; [|split; [|by eexists]].
    + eapply holds_transfer; [exact Hh|by cbn [objects]; rewrite Hvo|done].
    + split; [done|]. split; [|by rewrite app_nil_r].
      eexists. cbn [objects heap]. rewrite Huo. split; [done|]. by cbn.
  - set (xs := x0 :: xs') in *.
    assert (0 < Z.of_nat (length xs)) by (simpl; lia).
    destruct buf as [lv|]; [|lia]. destruct Hbuf as [_ Hb].
    assert (Hlv : (lv < length h)%nat) by (by eapply lookup_lt_Some).
    assert (Hsize : Z.of_nat (length xs) * Z.pos sizeof < size_t_modulus)
      by (pose proof (Pos2Z.is_pos sizeof); nia).
    unfold bind at 1. rewrite RawMemory_sized_step by done.
    destruct (next_fails p) eqn:Hp.
    { eexists (Throw bad_alloc), _. split; [reflexivity|]. cbn [heap objects plan log].
      split; [|split; [|by intros ->]].
      - eapply holds_transfer; [exact Hh|done|done].
      - split; [done|]. split; [by rewrite take_ge by lia|].
        split; [by rewrite drop_ge by lia|]. done. }
    unfold GetAddress; cbn [buffer_]. rewrite !Nat2Z.id.
    destruct (uninitialized_copy_n_spec xs (h ++ [Some (replicate (length xs) None)]) o (tail p)
                (l ++ [New (length xs)]) lv (length h) []
                (replicate (Z.to_nat cap - length xs) None) [] [] 0 0)
      as (r & h' & p' & l' & Hrun & Hr & Hok); [lia| | |done|done|].
    { by rewrite lookup_app_l. }
    { rewrite heap_snoc_lookup. by rewrite !app_nil_r. }
    destruct r as [[]|e].
    + destruct Hr as [-> ->].
      erewrite bind_ret_step by (by eapply unwinding_ret_step).
      eexists (Ret _), _. split; [reflexivity|]. unfold upd_objects. cbn [objects heap plan log].
      rewrite heap_snoc_insert.
      split; [|split; [|by eexists]].
      * eapply holds_transfer; [exact Hh|by cbn [objects]; rewrite Hvo|].
        intros lc Hlc. unfold buffer_of in Hlc; cbn [objects] in Hlc. rewrite Ho in Hlc.
        injection Hlc as <-. cbn [heap]. by rewrite lookup_app_l.
      * split; [done|]. split.
        -- eexists. cbn [objects heap]. rewrite Huo. split; [done|].
           cbn [data_ size_ buffer_ capacity_]. repeat split; try done; try lia.
           rewrite heap_snoc_lookup. unfold block_of.
           by rewrite Nat2Z.id, Nat.sub_diag.
        -- destruct (decide (xs = [])); [done|]. by rewrite <- app_assoc.
    + destruct Hr as (-> & -> & k & Hk & ->).
      erewrite bind_throw_step.
      2:{ eapply unwinding_throw_step; [done|].
          unfold RawMemory_dtor, Deallocate; cbn [buffer_].
          eapply operator_delete_step. apply heap_snoc_lookup. }
      eexists (Throw _), _. split; [reflexivity|]. cbn [heap objects plan log].
      rewrite heap_snoc_insert.
      split; [|split].
      * eapply holds_transfer; [exact Hh|done|].
        intros lc Hlc. unfold buffer_of in Hlc; cbn [objects] in Hlc. rewrite Ho in Hlc.
        injection Hlc as <-. cbn [heap]. by rewrite lookup_app_l.
      * split; [done|]. split; [by rewrite take_app_length|].
        split; [rewrite drop_app_length; apply Forall_None_singleton|].
        split; ledger; lia.
      * intros ->. destruct Hok as [? _]; done.
Qed.

(** X7.  The move constructor cannot fail and touches no element: the
    new vector takes over the storage, the size and the capacity of its
    source, and the source is left empty without storage. *)
Theorem Vector_move_takes_storage w v xs cap :
  holds w v xs cap →
  ∃ u w',
    Vector_move v w = Some (Ret u, w') ∧
    u = length (objects w) ∧
    holds w' u xs cap ∧
    holds w' v [] 0 ∧
    buffer_of w' u = buffer_of w v ∧
    buffer_of w' v = None ∧
    heap w' = heap w ∧ log w' = log w ∧ plan w' = plan w.
Proof.
  destruct w as [h o p l].
  intros (vv & Ho & Hsz & Hc & Hle & Hbytes & Hbuf).
  cbn [heap objects log plan] in *.
  assert (Hv : (v < length o)%nat) by (by eapply lookup_lt_Some).
  unfold Vector_move.
  erewrite bind_ret_step by (by eapply get_vector_step). cbn [RawMemory_move].
  erewrite bind_ret_step by (by eapply set_vector_step).
  eexists _, _. split; [reflexivity|]. unfold upd_objects. cbn [objects heap plan log].
  rewrite length_insert. split; [done|].
  assert (Hnew : ∀ x : option Vector, (<[v := Some {| data_ := RawMemory_default; size_ := 0 |}]> o ++ [x])
                      !! length o = Some x).
  { intros. by rewrite lookup_app_r, length_insert, Nat.sub_diag by (rewrite length_insert; lia). }
  assert (Hold : ∀ x : option Vector, (<[v := Some {| data_ := RawMemory_default; size_ := 0 |}]> o ++ [x]) !! v
                      = Some (Some {| data_ := RawMemory_default; size_ := 0 |})).
  { intros. rewrite lookup_app_l by (rewrite length_insert; lia). by apply list_lookup_insert_eq. }
  split; [|split; [|split; [|split; [|done]]]].
  - eexists. cbn [objects heap]. rewrite Hnew. split; [done|]. by cbn.
  - eexists. cbn [objects heap]. rewrite Hold. split; [done|]. by cbn.
  - unfold buffer_of; cbn [objects]. by rewrite Hnew, Ho.
  - unfold buffer_of; cbn [objects]. by rewrite Hold.
Qed.

(** The destructor, under any failure plan. *)
Lemma Vector_dtor_run w this xs cap :
  holds w this xs cap →
  ∃ w',
    Vector_dtor this w = Some (Ret tt, w') ∧
    objects w' = <[this := None]> (objects w) ∧
    heap w' = match buffer_of w this with
              | Some lc => <[lc := None]> (heap w)
              | None => heap w
              end ∧
    plan w' = plan w ∧
    log w' = log w ++ replicate (length xs) Dtor ++ release_events cap.
Proof.
  destruct w as [h o p l].
  intros (v & Ho & Hsz & Hc & Hle & Hbytes & Hbuf).
  destruct v as [[buf c] sz]. cbn [data_ size_ buffer_ capacity_ heap objects log plan] in *.
  subst sz c.
  unfold Vector_dtor.
  erewrite bind_ret_step by (by eapply get_vector_step).
  unfold GetAddress, RawMemory_dtor, Deallocate; cbn [data_ size_ buffer_]. rewrite Nat2Z.id.
  unfold buffer_of; cbn [objects]. rewrite Ho; cbn [data_ buffer_].
  destruct buf as [ld|].
  - destruct Hbuf as [Hpos Hb].
    erewrite bind_ret_step.
    2:{ eapply (destroy_n_spec xs h o p l ld []); [exact Hb|done]. }
    erewrite bind_ret_step.
    2:{ eapply operator_delete_step. by apply heap_insert_lookup with (c := Some (block_of xs cap)). }
    unfold delete_vector.
    erewrite bind_ret_step by (by eapply get_vector_step).
    eexists. split; [reflexivity|]. unfold upd_objects. cbn [objects heap plan log].
    rewrite list_insert_insert_eq. split; [done|]. split; [done|]. split; [done|].
    unfold release_events. destruct (Z.eqb_spec cap 0); [lia|]. by rewrite <- app_assoc.
  - subst cap. assert (xs = []) as -> by (destruct xs; [done|simpl in Hle; lia]).
    cbn [length destroy_n operator_delete].
    erewrite bind_ret_step by reflexivity.
    erewrite bind_ret_step by reflexivity.
    unfold delete_vector.
    erewrite bind_ret_step by (by eapply get_vector_step).
    eexists. split; [reflexivity|]. unfold upd_objects. cbn [objects heap plan log].
    split; [done|]. split; [done|]. split; [done|]. by rewrite app_nil_r.
Qed.


(** ** [Swap] and the assignments *)

Lemma Swap_step h o p l (a b : nat) va vb :
  o !! a = Some (Some va) → o !! b = Some (Some vb) →
  Swap a b (World h o p l) =
    Some (Ret tt, World h (<[b := Some va]> (<[a := Some vb]> o)) p l).
Proof.
  intros Ha Hb. unfold Swap.
  erewrite bind_ret_step by (by eapply get_vector_step).
  erewrite bind_ret_step by (by eapply get_vector_step).
  cbn [RawMemory_Swap].
  erewrite bind_ret_step by (by eapply set_vector_step).
  assert (Hb' : ∃ v, <[a := Some {| data_ := data_ vb; size_ := size_ vb |}]> o !! b = Some (Some v)).
  { destruct (decide (a = b)) as [->|Hne].
    - eexists. apply list_lookup_insert_eq. by eapply lookup_lt_Some.
    - exists vb. by rewrite list_lookup_insert_ne. }
  destruct Hb' as [v Hv].
  erewrite set_vector_step by exact Hv.
  by destruct va as [[] ?], vb as [[] ?].
Qed.

(** X9.  [Swap] exchanges the storage, the size and the capacity of two
    vectors and nothing else: no element is constructed, assigned or
    destroyed, no block is allocated or released, and it cannot
    fail. *)
Theorem Swap_exchanges w (a b : nat) xs ca ys cb :
  a ≠ b → holds w a xs ca → holds w b ys cb →
  ∃ w',
    Swap a b w = Some (Ret tt, w') ∧
    holds w' a ys cb ∧ holds w' b xs ca ∧
    buffer_of w' a = buffer_of w b ∧ buffer_of w' b = buffer_of w a ∧
    heap w' = heap w ∧ log w' = log w ∧ plan w' = plan w.
Proof.
  destruct w as [h o p l]. intros Hne (va & Ha & Hresta) (vb & Hb & Hrestb).
  cbn [objects heap] in *.
  assert (Hla : (a < length o)%nat) by (by eapply lookup_lt_Some).
  assert (Hlb : (b < length o)%nat) by (by eapply lookup_lt_Some).
  rewrite (Swap_step h o p l a b va vb) by done.
  eexists. split; [reflexivity|]. cbn [heap log plan].
  assert (Ha' : <[b := Some va]> (<[a := Some vb]> o) !! a = Some (Some vb)).
  { rewrite list_lookup_insert_ne by done. by apply list_lookup_insert_eq. }
  assert (Hb' : <[b := Some va]> (<[a := Some vb]> o) !! b = Some (Some va)).
  { apply list_lookup_insert_eq. by rewrite length_insert. }
  split; [by exists vb|]. split; [by exists va|].
  unfold buffer_of; cbn [objects]. by rewrite Ha', Hb', Ha, Hb.
Qed.

(** X10.  Swapping twice gives back the very state the program was in,
    and the order of the two vectors in a [Swap] does not matter;
    swapping a vector with itself changes nothing. *)
Theorem Swap_twice_is_identity (w : @world T) (a b : nat) va vb :
  objects w !! a = Some (Some va) → objects w !! b = Some (Some vb) →
  ∃ w',
    Swap a b w = Some (Ret tt, w') ∧
    Swap b a w = Some (Ret tt, w') ∧
    Swap a b w' = Some (Ret tt, w) ∧
    (a = b → w' = w).
Proof.
  destruct w as [h o p l]. cbn [objects]. intros Ha Hb.
  assert (Hla : (a < length o)%nat) by (by eapply lookup_lt_Some).
  assert (Hlb : (b < length o)%nat) by (by eapply lookup_lt_Some).
  rewrite (Swap_step h o p l a b va vb), (Swap_step h o p l b a vb va) by done.
  destruct (decide (a = b)) as [->|Hne].
  - assert (va = vb) as -> by congruence.
    rewrite list_insert_insert_eq, list_insert_id by done.
    eexists. split; [reflexivity|]. split; [reflexivity|]. split; [|done].
    rewrite (Swap_step h o p l b b vb vb) by done.
    by rewrite list_insert_insert_eq, list_insert_id.
  - eexists. split; [reflexivity|]. split.
    { by rewrite list_insert_insert_ne. }
    split; [|done].
    erewrite Swap_step.
    2:{ rewrite list_lookup_insert_ne by done. by apply list_lookup_insert_eq. }
    2:{ apply list_lookup_insert_eq. by rewrite length_insert. }
    do 3 f_equal.
    rewrite (list_insert_insert_ne _ a b) by done.
    rewrite !list_insert_insert_eq.
    rewrite (list_insert_id o a) by done.
    by rewrite list_insert_id.
Qed.

(** X11.  Move assignment between two distinct vectors cannot fail,
    allocates nothing and calls no constructor, assignment or
    destructor of the element type: the destination takes over the
    storage, size and capacity of the source, the source is left empty
    without storage, and the block the destination owned is handed to
    [operator delete] as it is. *)
Theorem move_assignment_transfers_storage w (a b : nat) xs ca ys cb :
  a ≠ b → holds w a xs ca → holds w b ys cb →
  (∀ lc, buffer_of w a = Some lc → buffer_of w b ≠ Some lc) →
  ∃ w',
    operator_assign_move a b w = Some (Ret tt, w') ∧
    holds w' a ys cb ∧ holds w' b [] 0 ∧
    buffer_of w' a = buffer_of w b ∧
    (∀ lc, buffer_of w a = Some lc → heap w' !! lc = Some None) ∧
    plan w' = plan w ∧
    log w' = log w ++ release_events ca.
Proof.
  destruct w as [h o p l]. intros Hne (va & Ha & Hresta) (vb & Hb & Hrestb) Hsep.
  cbn [objects heap plan log] in *.
  assert (Hla : (a < length o)%nat) by (by eapply lookup_lt_Some).
  assert (Hlb : (b < length o)%nat) by (by eapply lookup_lt_Some).
  unfold buffer_of in *; cbn [objects] in *. rewrite Ha, Hb in Hsep. rewrite Ha, Hb.
  destruct va as [[bufa ca'] sa], vb as [[bufb cb'] sb].
  cbn [data_ size_ buffer_ capacity_] in *.
  destruct Hresta as (-> & -> & Hlea & Hbytesa & Hbufa).
  destruct Hrestb as (-> & -> & Hleb & Hbytesb & Hbufb).
  unfold operator_assign_move. rewrite bool_decide_eq_false_2 by done.
  erewrite bind_ret_step by (by eapply get_vector_step).
  erewrite bind_ret_step by (by eapply get_vector_step).
  unfold RawMemory_move_assign, Deallocate; cbn [data_ size_ buffer_ capacity_].
  set (va' := {| data_ := {| buffer_ := bufb; capacity_ := cb |}; size_ := Z.of_nat (length ys) |}).
  set (vb' := {| data_ := RawMemory_default; size_ := 0 |}).
  assert (Ha' : <[b := Some vb']> (<[a := Some va']> o) !! a = Some (Some va')).
  { rewrite list_lookup_insert_ne by done. by apply list_lookup_insert_eq. }
  assert (Hb' : <[b := Some vb']> (<[a := Some va']> o) !! b = Some (Some vb')).
  { apply list_lookup_insert_eq. by rewrite length_insert. }
  subst va' vb'.
  destruct bufa as [la|].
  - destruct Hbufa as [Hposa Hblocka].
    erewrite bind_ret_step.
    2:{ erewrite bind_ret_step by (by eapply operator_delete_step). reflexivity. }
    cbn [fst snd].
    erewrite bind_ret_step by (by eapply set_vector_step).
    erewrite set_vector_step by (by rewrite list_lookup_insert_ne).
    eexists. split; [reflexivity|]. cbn [objects heap plan log]. rewrite Ha'.
    split; [|split; [|split; [done|split; [|split; [done|]]]]].
    + eexists. cbn [objects heap]. split; [exact Ha'|]. cbn [data_ size_ buffer_ capacity_].
      repeat (split; [done|]).
      destruct bufb as [lb|]; [|done]. destruct Hbufb as [? Hblockb]. split; [done|].
      rewrite list_lookup_insert_ne; [done|]. intros <-. by eapply Hsep.
    + eexists. split; [done|]. by cbn.
    + intros lc [= <-]. apply list_lookup_insert_eq. by eapply lookup_lt_Some.
    + unfold release_events. by destruct (Z.eqb_spec ca 0); [lia|].
  - subst ca.
    erewrite bind_ret_step by reflexivity.
    cbn [fst snd].
    erewrite bind_ret_step by (by eapply set_vector_step).
    erewrite set_vector_step by (by rewrite list_lookup_insert_ne).
    eexists. split; [reflexivity|]. cbn [objects heap plan log]. rewrite Ha'.
    split; [|split; [|split; [done|split; [done|split; [done|]]]]].
    + eexists. by split.
    + eexists. split; [done|]. by cbn.
    + cbn. by rewrite app_nil_r.
Qed.

(** ** Element access *)

Lemma load_at h o p l ld blk (i : nat) x :
  h !! ld = Some (Some blk) → blk !! i = Some (Some x) →
  load (Some ld, Z.of_nat i) (World h o p l) = Some (Ret x, World h o p l).
Proof.
  intros Hb Hx. unfold load, get_slot; cbn [heap fst snd]. rewrite Hb.
  destruct (Z.leb_spec 0 (Z.of_nat i)); [|lia]. by rewrite Nat2Z.id, Hx.
Qed.

Lemma set_slot_at h o p l ld blk (i : nat) s :
  h !! ld = Some (Some blk) → (i < length blk)%nat →
  set_slot (Some ld, Z.of_nat i) s (World h o p l) =
    Some (Ret tt, World (<[ld := Some (<[i := s]> blk)]> h) o p l).
Proof.
  intros Hb Hi. unfold set_slot; cbn [heap fst snd]. rewrite Hb.
  destruct (Z.leb_spec 0 (Z.of_nat i)); [|lia].
  destruct (Z.ltb_spec (Z.of_nat i) (Z.of_nat (length blk))); [|lia].
  by rewrite Nat2Z.id.
Qed.

Lemma block_of_lookup xs cap (i : nat) x :
  xs !! i = Some x → block_of xs cap !! i = Some (Some x).
Proof.
  intros Hx. unfold block_of.
  rewrite lookup_app_l by (rewrite length_fmap; by eapply lookup_lt_Some).
  by rewrite list_lookup_fmap, Hx.
Qed.

Lemma block_of_insert xs cap (i : nat) x :
  (i < length xs)%nat → <[i := Some x]> (block_of xs cap) = block_of (<[i := x]> xs) cap.
Proof.
  intros Hi. unfold block_of.
  rewrite insert_app_l by (by rewrite length_fmap).
  by rewrite list_fmap_insert, length_insert.
Qed.

(** [operator[]] within the bounds. *)
Lemma Vector_at_run w this xs cap i :
  holds w this xs cap → 0 ≤ i < Z.of_nat (length xs) →
  Vector_at this i w = Some (Ret (buffer_of w this, i), w).
Proof.
  destruct w as [h o p l].
  intros (v & Ho & Hsz & Hc & Hle & _) Hi. cbn [objects] in Ho.
  unfold Vector_at, buffer_of; cbn [objects]. rewrite Ho.
  erewrite bind_ret_step by (by eapply get_vector_step).
  rewrite Hsz.
  destruct (Z.leb_spec 0 i); [|lia]. destruct (Z.ltb_spec i (Z.of_nat (length xs))); [|lia].
  erewrite bind_ret_step by reflexivity.
  unfold RawMemory_at. rewrite Hc. destruct (Z.ltb_spec i cap); [|lia].
  erewrite bind_ret_step by reflexivity.
  unfold ret, GetAddress, ptr_add; cbn [fst snd]. by rewrite Z.add_0_l.
Qed.

(** X12.  [operator[]] checks its index against the size: for an index
    below the size it yields a reference to the element at that index,
    without changing anything; for any other index the call is
    undefined, also when the index is within the capacity. *)
Theorem subscript_is_checked_against_size w this xs cap :
  holds w this xs cap →
  (∀ (i : nat) x, xs !! i = Some x →
     ∃ q, Vector_at this (Z.of_nat i) w = Some (Ret q, w) ∧
          load q w = Some (Ret x, w)) ∧
  (∀ i, i < 0 ∨ Z.of_nat (length xs) ≤ i → Vector_at this i w = None).
Proof.
  intros Hh. split.
  - intros i x Hx. exists (buffer_of w this, Z.of_nat i). split.
    + eapply Vector_at_run; [done|]. apply lookup_lt_Some in Hx. lia.
    + by eapply holds_load.
  - intros i Hi. destruct w as [h o p l]. destruct Hh as (v & Ho & Hsz & _).
    cbn [objects] in Ho. unfold Vector_at.
    erewrite bind_ret_step by (by eapply get_vector_step).
    rewrite Hsz.
    destruct (Z.leb_spec 0 i); [|done]. by destruct (Z.ltb_spec i (Z.of_nat (length xs))); [lia|].
Qed.

(** An assignment [v[i] = x], under any failure plan. *)
Lemma store_run w this xs cap (i : nat) x :
  holds w this xs cap → (i < length xs)%nat →
  ∃ r w',
    mutate this (mut_store (Z.of_nat i) x) w = Some (r, w') ∧
    match r with
    | Ret _ =>
        holds w' this (<[i := x]> xs) cap ∧
        buffer_of w' this = buffer_of w this ∧
        log w' = log w ++ [CopyAssign]
    | Throw e =>
        e = element_failure ∧ heap w' = heap w ∧ objects w' = objects w ∧ log w' = log w
    end ∧
    (plan w = [] → r = Ret tt ∧ plan w' = []).
Proof.
  intros Hh Hi.
  destruct (lookup_lt_is_Some_2 xs i Hi) as [x0 Hx0].
  pose proof (Vector_at_run w this xs cap (Z.of_nat i) Hh ltac:(lia)) as Hat.
  pose proof (holds_load w this xs cap i x0 Hh Hx0) as Hload.
  destruct w as [h o p l].
  destruct Hh as (v & Ho & Hsz & Hc & Hle & Hbytes & Hbuf).
  cbn [objects heap plan log] in *.
  unfold buffer_of in *; cbn [objects] in *. rewrite Ho in *.
  destruct (buffer_ (data_ v)) as [ld|] eqn:Hld; [|lia]. destruct Hbuf as [Hpos Hb].
  cbn [mutate]. erewrite bind_ret_step by exact Hat.
  unfold store. erewrite bind_ret_step by exact Hload.
  unfold bind at 1. rewrite fallible_step.
  destruct (next_fails p) eqn:Hp.
  { eexists (Throw _), _. split; [reflexivity|]. cbn [heap objects log plan].
    split; [done|]. by intros ->. }
  erewrite bind_ret_step.
  2:{ eapply set_slot_at; [exact Hb|]. rewrite length_block_of by done. lia. }
  rewrite block_of_insert by done.
  eexists (Ret tt), _. split; [reflexivity|]. cbn [heap objects log plan].
  split; [|by intros ->]. split; [|by rewrite Ho, Hld].
  exists v. cbn [objects heap]. rewrite Hld, length_insert.
  repeat (split; [done|]). by apply heap_insert_lookup with (c := Some (block_of xs cap)).
Qed.


(** ** Positions outside the vector *)

(** X14.  [Emplace] accepts the positions [begin() .. end()] and
    [Erase] the positions [begin() .. end() - 1]: with a position
    before [begin()] or beyond that range, in particular [Erase] at
    [end()] and any [Erase] on an empty vector, the call is undefined,
    whatever failures are planned. *)
Theorem positions_are_checked w this xs cap :
  holds w this xs cap →
  (∀ i a, i < 0 ∨ Z.of_nat (length xs) < i →
     Emplace this (buffer_of w this, i) a w = None) ∧
  (∀ i, i < 0 ∨ Z.of_nat (length xs) ≤ i →
     Erase this (buffer_of w this, i) w = None).
Proof.
  destruct w as [h o p l].
  intros (v & Ho & Hsz & _). cbn [objects] in Ho.
  unfold buffer_of; cbn [objects]. rewrite Ho.
  split.
  - intros i a Hi. unfold Emplace.
    erewrite bind_ret_step by (by eapply get_vector_step).
    unfold in_range, begin_, GetAddress; cbn [fst snd]. rewrite Hsz.
    rewrite bool_decide_eq_true_2 by done.
    destruct (Z.leb_spec 0 i); [|done]. by destruct (Z.leb_spec i (Z.of_nat (length xs))); [lia|].
  - intros i Hi. unfold Erase.
    erewrite bind_ret_step by (by eapply get_vector_step).
    unfold in_range, begin_, GetAddress; cbn [fst snd]. rewrite Hsz.
    rewrite bool_decide_eq_true_2 by done.
    destruct (Z.leb_spec 0 i); [|done]. by destruct (Z.ltb_spec i (Z.of_nat (length xs))); [lia|].
Qed.

(** ** Appending under any failure plan *)

Lemma construct_at_any h o p l ld pre s post z a :
  h !! ld = Some (Some (pre ++ s :: post)) → z = Z.of_nat (length pre) →
  construct_at (Some ld, z) a (World h o p l) =
    if ctor_fails a p then Some (Throw element_failure, World h o (after_ctor a p) l)
    else Some (Ret tt, World (<[ld := Some (pre ++ Some (arg_value a) :: post)]> h) o
                             (after_ctor a p) (l ++ [ctor_event a])).
Proof.
  intros Hb Hz. destruct a as [x|x]; cbn [construct_at ctor_fails after_ctor arg_value ctor_event].
  - eapply construct_copy_step; [exact Hb|exact Hz].
  - unfold bind at 1. rewrite move_may_throw_step.
    destruct (move_fails p); [done|].
    erewrite bind_ret_step by (eapply set_slot_middle; [exact Hb|exact Hz]). done.
Qed.

Lemma ctor_fails_nil (a : @ctor_args T) : ctor_fails a [] = false ∧ after_ctor a [] = [].
Proof. destruct a; cbn; [done|]. by rewrite move_fails_nil, after_move_nil. Qed.

(** [EmplaceBack] into spare capacity, under any failure plan. *)
Lemma EmplaceBack_within_run w this xs cap a :
  holds w this xs cap → Z.of_nat (length xs) < cap →
  ∃ r w',
    EmplaceBack this a w = Some (r, w') ∧
    plan w' = after_ctor a (plan w) ∧
    match r with
    | Ret q =>
        ctor_fails a (plan w) = false ∧
        q = (buffer_of w this, Z.of_nat (length xs)) ∧
        holds w' this (xs ++ [arg_value a]) cap ∧
        buffer_of w' this = buffer_of w this ∧
        length (heap w') = length (heap w) ∧
        log w' = log w ++ [ctor_event a]
    | Throw e =>
        ctor_fails a (plan w) = true ∧
        e = element_failure ∧ heap w' = heap w ∧ objects w' = objects w ∧ log w' = log w
    end.
Proof.
  destruct w as [h o p l].
  intros (v & Ho & Hsz & Hc & Hle & Hbytes & Hbuf) Hlt.
  destruct v as [[buf c] sz]. cbn [data_ size_ buffer_ capacity_ heap objects log plan] in *.
  subst sz c.
  assert (Hthis : (this < length o)%nat) by (by eapply lookup_lt_Some).
  assert (Hcap : cap < size_t_modulus) by (pose proof (Pos2Z.is_pos sizeof); nia).
  destruct buf as [ld|]; [|lia]. destruct Hbuf as [Hpos Hb].
  unfold buffer_of; cbn [objects]. rewrite Ho; cbn [data_ buffer_].
  unfold EmplaceBack, Emplace.
  erewrite bind_ret_step by (by eapply get_vector_step).
  erewrite bind_ret_step by (by eapply get_vector_step).
  unfold in_range, begin_, end_, GetAddress, ptr_add, RawMemory_Capacity;
    cbn [fst snd data_ buffer_ size_ capacity_].
  rewrite bool_decide_eq_true_2 by done. rewrite !Z.add_0_l.
  destruct (Z.leb_spec 0 (Z.of_nat (length xs))); [|lia].
  destruct (Z.leb_spec (Z.of_nat (length xs)) (Z.of_nat (length xs))); [|lia].
  erewrite bind_ret_step by reflexivity.
  destruct (Z.ltb_spec (Z.of_nat (length xs)) cap); [|lia].
  rewrite Z.sub_0_r, Z.eqb_refl.
  rewrite block_of_snoc in Hb by done.
  unfold bind at 1.
  erewrite construct_at_any; [|exact Hb|by rewrite length_fmap].
  destruct (ctor_fails a p) eqn:Hf.
  - eexists (Throw _), _. split; [reflexivity|]. by cbn [heap objects plan log].
  - erewrite bind_ret_step by (by eapply set_vector_step).
    eexists (Ret _), _. split; [reflexivity|]. cbn [heap objects plan log].
    split; [done|]. split; [done|]. split; [done|]. split; [|split; [|split; [|done]]].
    + eexists. cbn [objects heap]. split; [by apply list_lookup_insert_eq|].
      cbn [data_ size_ buffer_ capacity_]. rewrite length_app. simpl.
      rewrite wrap_small by lia.
      split; [lia|]. split; [done|]. split; [lia|]. split; [done|]. split; [done|].
      erewrite heap_insert_lookup by done. unfold block_of.
      rewrite fmap_app, <- app_assoc, length_app, Nat.add_1_r. done.
    + by rewrite list_lookup_insert_eq.
    + by rewrite length_insert.
Qed.


(** Appends that fit the capacity, when nothing fails. *)
Lemma append_all_within_run elems : ∀ w this xs cap,
  holds w this xs cap → plan w = [] →
  Z.of_nat (length xs + length elems) ≤ cap →
  ∃ w',
    append_all this elems w = Some (Ret [], w') ∧
    holds w' this (xs ++ elems) cap ∧
    buffer_of w' this = buffer_of w this ∧
    length (heap w') = length (heap w) ∧
    plan w' = [] ∧
    log w' = log w ++ replicate (length elems) CopyCtor.
Proof.
  induction elems as [|x elems IH]; intros w this xs cap Hh Hp Hfit.
  - exists w. rewrite !app_nil_r. by cbn.
  - cbn [length] in Hfit.
    destruct (EmplaceBack_within_run w this xs cap (lvalue x) Hh) as (r & w1 & Hrun & Hp1 & Hr);
      [lia|].
    rewrite Hp in Hp1, Hr. cbn in Hp1. destruct r as [q|e]; [|by destruct Hr].
    destruct Hr as (_ & _ & Hh1 & Hbuf1 & Hlen1 & Hl1). cbn [arg_value ctor_event] in *.
    destruct (IH w1 this (xs ++ [x]) cap Hh1 Hp1) as (w' & Hrun' & Hh' & Hbuf' & Hlen' & Hp' & Hl').
    { rewrite length_app. simpl. lia. }
    exists w'. cbn [append_all].
    erewrite bind_ret_step by (by eapply Capacity_run).
    erewrite bind_ret_step.
    2:{ unfold PushBack. by erewrite bind_ret_step by exact Hrun. }
    erewrite bind_ret_step by (by eapply Capacity_run).
    erewrite bind_ret_step by exact Hrun'.
    rewrite Z.eqb_refl. split; [done|].
    rewrite <- app_assoc in Hh'. split; [done|].
    split; [congruence|]. split; [congruence|]. split; [done|].
    rewrite Hl', Hl1, <- app_assoc. done.
Qed.

(** X16.  Appends that fit the capacity never reallocate: when nothing
    fails, appending elements to a vector whose capacity has room for
    them reports no growth point, allocates no block, keeps the storage
    where it is and the capacity as it is, so that positions of the old
    elements still designate them, and calls one copy constructor per
    element. *)
Theorem appends_within_capacity_keep_storage w this xs cap elems :
  holds w this xs cap → plan w = [] →
  Z.of_nat (length xs + length elems) ≤ cap →
  ∃ w',
    append_all this elems w = Some (Ret [], w') ∧
    elements w' this = Some (xs ++ elems) ∧
    Capacity this w' = Some (Ret cap, w') ∧
    buffer_of w' this = buffer_of w this ∧
    length (heap w') = length (heap w) ∧
    log w' = log w ++ replicate (length elems) CopyCtor ∧
    (∀ (i : nat) x, xs !! i = Some x →
       load (buffer_of w this, Z.of_nat i) w' = Some (Ret x, w')).
Proof.
  intros Hh Hp Hfit.
  destruct (append_all_within_run elems w this xs cap Hh Hp Hfit)
    as (w' & Hrun & Hh' & Hbuf & Hlen & _ & Hl).
  exists w'. split; [done|]. split; [by eapply holds_elements|].
  split; [by eapply Capacity_run|]. split; [done|]. split; [done|]. split; [done|].
  intros i x Hx. rewrite <- Hbuf. eapply holds_load; [done|].
  by apply lookup_app_l_Some.
Qed.

Lemma ctor_fails_cases (a : @ctor_args T) p :
  ctor_fails a p = true →
  is_nothrow_move_constructible = false ∨ ∃ x, a = lvalue x.
Proof.
  destruct a as [x|x]; [by eauto|]. cbn. unfold move_fails.
  destruct is_nothrow_move_constructible; [done|by left].
Qed.

Lemma MOVE_OR_COPY_none (q1 q2 : ptr) (w : @world T) :
  MOVE_OR_COPY_IF_NOEXCEPT q1 q2 0 w = Some (Ret tt, w).
Proof. unfold MOVE_OR_COPY_IF_NOEXCEPT. by destruct (_ || _). Qed.

(** [Emplace] at the end of a full vector that owns a block, under any
    failure plan. *)
Lemma EmplaceBack_grow_any h o p l this lold xs a :
  let cap := Z.of_nat (length xs) in
  o !! this = Some (Some {| data_ := {| buffer_ := Some lold; capacity_ := cap |};
                            size_ := cap |}) →
  h !! lold = Some (Some (block_of xs cap)) →
  0 < cap → 2 * cap * Z.pos sizeof < size_t_modulus →
  ∃ r h' o' p' l',
    Emplace this (Some lold, cap) a (World h o p l) = Some (r, World h' o' p' l') ∧
    match r with
    | Ret q =>
        q = (Some (length h), cap) ∧
        h' = <[lold := None]> h ++ [Some (block_of (xs ++ [arg_value a]) (2 * cap))] ∧
        o' = <[this := Some {| data_ := {| buffer_ := Some (length h); capacity_ := 2 * cap |};
                               size_ := cap + 1 |}]> o ∧
        l' = l ++ [New (Z.to_nat (2 * cap))] ++ replicate (length xs) relocation_event
               ++ [ctor_event a] ++ replicate (length xs) Dtor ++ [Delete]
    | Throw e =>
        o' = o ∧
        ((e = bad_alloc ∧ h' = h ∧ l' = l) ∨
         (e = element_failure ∧
          (is_nothrow_move_constructible = false ∨ ∃ x, a = lvalue x) ∧
          ∃ k, (k ≤ length xs)%nat ∧
            h' = <[lold := Some (block_of (relocated_from k xs) cap)]> h ++ [None]))
    end ∧
    (p = [] → (∃ q, r = Ret q) ∧ p' = []).
Proof.
  intros cap Ho Hb Hpos Hbytes. unfold Emplace.
  assert (Hlt : (lold < length h)%nat) by (by eapply lookup_lt_Some).
  assert (Hsz : 2 * cap < size_t_modulus) by (pose proof (Pos2Z.is_pos sizeof); nia).
  assert (Hblock : ∀ ys, length ys = length xs → block_of ys cap = [] ++ (Some <$> ys) ++ []).
  { intros ys Hys. unfold block_of, cap. rewrite Hys.
    replace (Z.to_nat (Z.of_nat (length xs)) - length xs)%nat with 0%nat by lia. done. }
  erewrite bind_ret_step by (by eapply get_vector_step).
  unfold in_range, begin_, end_, GetAddress, ptr_add, RawMemory_Capacity;
    cbn [fst snd data_ buffer_ size_ capacity_].
  rewrite bool_decide_eq_true_2 by done.
  destruct (Z.leb_spec 0 cap); [|lia]. destruct (Z.leb_spec cap cap); [|lia].
  erewrite bind_ret_step by reflexivity.
  destruct (Z.ltb_spec cap cap); [lia|].
  destruct (Z.eqb_spec cap 0); [lia|].
  rewrite Z.sub_0_r, !Z.add_0_l, Z.sub_diag, (wrap_small (2 * cap)) by lia.
  unfold bind at 1. rewrite RawMemory_sized_step by lia.
  destruct (next_fails p) eqn:Hp.
  { eexists (Throw bad_alloc), h, o, (tail p), l. split; [reflexivity|].
    split; [by eauto|]. by intros ->. }
  cbn [buffer_].
  set (h1 := h ++ [_]). set (l1 := l ++ [_]). set (x := arg_value a).
  set (raw := replicate (Z.to_nat (2 * cap) - S (length xs)) (@None T)).
  assert (Hold : h1 !! lold = Some (Some ([] ++ (Some <$> xs) ++ []))).
  { unfold h1. rewrite lookup_app_l, Hb by done. by rewrite Hblock. }
  assert (Hnew : h1 !! length h
                 = Some (Some ([] ++ replicate (length xs) None ++ None :: raw))).
  { unfold h1. rewrite heap_snoc_lookup. do 2 f_equal. simpl.
    change (None :: raw) with (replicate 1 (@None T) ++ raw).
    unfold raw. rewrite <- !replicate_add. f_equal. unfold cap. lia. }
  destruct (MOVE_OR_COPY_spec xs h1 o (tail p) l1 lold (length h) [] [] [] (None :: raw) 0 0)
    as (r & h2 & p2 & l2 & Hrun & Hr & Hp2); [lia|exact Hold|exact Hnew|done|done|].
  fold cap in Hrun.
  destruct r as [[]|e].
  2:{ (* a relocating constructor throws *)
      destruct Hr as (-> & Hnt & k & Hk & -> & ->).
      erewrite bind_throw_step.
      2:{ eapply unwinding_throw_step.
          - erewrite bind_throw_step by exact Hrun. reflexivity.
          - unfold RawMemory_dtor, Deallocate; cbn [buffer_]. eapply operator_delete_step.
            rewrite list_lookup_insert_ne by lia. exact Hnew. }
      eexists (Throw _), _, o, p2, _. split; [reflexivity|]. split.
      - split; [done|]. right. split; [done|]. split; [by left|]. exists k. split; [lia|].
        unfold h1. rewrite (list_insert_insert_ne _ (length h) lold) by lia.
        rewrite heap_snoc_insert, heap_snoc_insert_old by done.
        rewrite Hblock by apply length_relocated_from. done.
      - intros ->. destruct Hp2 as [? _]; done. }
  destruct Hr as [-> ->].
  set (h2 := <[lold := _]> (<[length h := _]> h1)) in *.
  set (l2 := l1 ++ _) in *.
  assert (Hnew2 : h2 !! length h = Some (Some ((Some <$> xs) ++ None :: raw))).
  { unfold h2. rewrite list_lookup_insert_ne by lia. by erewrite heap_insert_lookup by exact Hnew. }
  pose proof (construct_at_any h2 o p2 l2 (length h) (Some <$> xs) None raw cap a Hnew2) as Hc.
  rewrite length_fmap in Hc. specialize (Hc eq_refl).
  destruct (ctor_fails a p2) eqn:Hf.
  { (* the constructor of the new element throws *)
    erewrite bind_throw_step.
    2:{ eapply unwinding_throw_step.
        - erewrite bind_ret_step by exact Hrun. erewrite bind_throw_step by exact Hc. reflexivity.
        - unfold RawMemory_dtor, Deallocate; cbn [buffer_]. eapply operator_delete_step.
          exact Hnew2. }
    eexists (Throw _), _, o, _, _. split; [reflexivity|]. split.
    - split; [done|]. right. split; [done|]. split; [by eapply ctor_fails_cases|].
      exists (length xs). split; [lia|].
      unfold h2, h1. rewrite (list_insert_insert_ne _ (length h) lold) by lia.
      rewrite list_insert_insert_eq.
      rewrite heap_snoc_insert, heap_snoc_insert_old by done.
      rewrite Hblock by apply length_relocated_from. done.
    - intros ->. destruct Hp2 as [_ ->]; [done|].
      by rewrite (proj1 (ctor_fails_nil a)) in Hf. }
  erewrite bind_ret_step.
  2:{ eapply unwinding_ret_step.
      erewrite bind_ret_step by exact Hrun. erewrite bind_ret_step by exact Hc.
      apply MOVE_OR_COPY_none. }
  set (old := relocated_from (length xs) xs).
  assert (Hold_len : length old = length xs) by apply length_relocated_from.
  replace (Z.to_nat cap) with (length old) by (unfold cap; lia).
  erewrite bind_ret_step.
  2:{ eapply (destroy_n_spec old _ _ _ _ lold [] []); [|done].
      rewrite list_lookup_insert_ne by lia. unfold h2.
      apply list_lookup_insert_eq. unfold h1. rewrite ?length_insert, length_app. lia. }
  cbn [RawMemory_Swap].
  erewrite bind_ret_step by (by eapply set_vector_step).
  erewrite bind_ret_step.
  2:{ unfold RawMemory_dtor, Deallocate; cbn [buffer_]. eapply operator_delete_step.
      apply list_lookup_insert_eq.
      unfold h2, h1. rewrite ?length_insert, length_app. lia. }
  eexists (Ret _), _, _, _, _. split; [reflexivity|]. split.
  - split; [done|]. rewrite wrap_small by lia. split; [|split; [done|]].
    + rewrite list_insert_insert_eq.
      rewrite (list_insert_insert_ne _ lold (length h)) by lia.
      unfold h2. rewrite !list_insert_insert_eq.
      rewrite (list_insert_insert_ne _ lold (length h)) by lia.
      rewrite list_insert_insert_eq. unfold h1. heap_snoc.
      do 3 f_equal. unfold block_of, raw.
      rewrite fmap_app, <- app_assoc, length_app, Nat.add_1_r. done.
    + unfold l2, l1. rewrite Hold_len, <- !app_assoc. done.
  - intros ->. destruct Hp2 as [_ ->]; [done|]. split; [by eexists|].
    apply ctor_fails_nil.
Qed.

(** [Emplace] into a vector without storage, under any failure plan. *)
Lemma EmplaceBack_first_any h o p l this a :
  o !! this = Some (Some {| data_ := {| buffer_ := None; capacity_ := 0 |}; size_ := 0 |}) →
  Z.pos sizeof < size_t_modulus →
  ∃ r h' o' p' l',
    Emplace this (None, 0) a (World h o p l) = Some (r, World h' o' p' l') ∧
    match r with
    | Ret q =>
        q = (Some (length h), 0) ∧
        h' = h ++ [Some (block_of [arg_value a] 1)] ∧
        o' = <[this := Some {| data_ := {| buffer_ := Some (length h); capacity_ := 1 |};
                               size_ := 1 |}]> o ∧
        l' = l ++ [New 1; ctor_event a]
    | Throw e =>
        o' = o ∧
        ((e = bad_alloc ∧ h' = h ∧ l' = l) ∨
         (e = element_failure ∧
          (is_nothrow_move_constructible = false ∨ ∃ x, a = lvalue x) ∧
          h' = h ++ [None]))
    end ∧
    (p = [] → (∃ q, r = Ret q) ∧ p' = []).
Proof.
  intros Ho Hbytes. unfold Emplace.
  erewrite bind_ret_step by (by eapply get_vector_step).
  unfold in_range, begin_, end_, GetAddress, ptr_add, RawMemory_Capacity;
    cbn [fst snd data_ buffer_ size_ capacity_ Z.ltb Z.compare Z.eqb Z.sub Z.add Z.opp].
  rewrite bool_decide_eq_true_2 by done.
  erewrite bind_ret_step by reflexivity.
  unfold bind at 1. rewrite RawMemory_sized_step by lia.
  destruct (next_fails p) eqn:Hp.
  { eexists (Throw bad_alloc), h, o, (tail p), l. split; [reflexivity|].
    split; [by eauto|]. by intros ->. }
  cbn [buffer_ Z.to_nat Pos.to_nat Pos.iter_op Nat.add replicate].
  pose proof (construct_at_any (h ++ [Some [None]]) o (tail p) (l ++ [New 1]) (length h)
                [] None [] 0 a (heap_snoc_lookup _ _) eq_refl) as Hc.
  destruct (ctor_fails a (tail p)) eqn:Hf.
  - erewrite bind_throw_step.
    2:{ eapply unwinding_throw_step.
        - erewrite bind_ret_step by apply MOVE_OR_COPY_none.
          erewrite bind_throw_step by exact Hc. reflexivity.
        - unfold RawMemory_dtor, Deallocate; cbn [buffer_]. eapply operator_delete_step.
          apply heap_snoc_lookup. }
    eexists (Throw _), _, o, _, _. split; [reflexivity|]. split.
    + split; [done|]. right. split; [done|]. split; [by eapply ctor_fails_cases|].
      by rewrite heap_snoc_insert.
    + intros ->. cbn [tail] in Hf. by rewrite (proj1 (ctor_fails_nil a)) in Hf.
  - erewrite bind_ret_step.
    2:{ eapply unwinding_ret_step.
        erewrite bind_ret_step by apply MOVE_OR_COPY_none.
        erewrite bind_ret_step by exact Hc.
        apply MOVE_OR_COPY_none. }
    cbn [Z.to_nat destroy_n RawMemory_Swap].
    erewrite bind_ret_step by reflexivity.
    erewrite bind_ret_step by (by eapply set_vector_step).
    erewrite bind_ret_step by reflexivity.
    eexists (Ret _), _, _, _, _. split; [reflexivity|]. split.
    + split; [done|]. split; [by rewrite heap_snoc_insert|]. split; [done|].
      by rewrite <- app_assoc.
    + intros ->. split; [by eexists|]. cbn [tail]. apply ctor_fails_nil.
Qed.

(** [EmplaceBack], under any failure plan, in terms of the vector's
    value. *)
Lemma EmplaceBack_any_run w this xs cap a :
  holds w this xs cap →
  grown (Z.of_nat (length xs)) cap * Z.pos sizeof < size_t_modulus →
  ∃ r w',
    EmplaceBack this a w = Some (r, w') ∧
    match r with
    | Ret q =>
        q = (buffer_of w' this, Z.of_nat (length xs)) ∧
        holds w' this (xs ++ [arg_value a]) (grown (Z.of_nat (length xs)) cap)
    | Throw e =>
        objects w' = objects w ∧
        ((e = bad_alloc ∧ heap w' = heap w ∧ log w' = log w) ∨
         (e = element_failure ∧
          (is_nothrow_move_constructible = false ∨ ∃ x, a = lvalue x) ∧
          ∃ k, holds w' this (relocated_from k xs) cap))
    end ∧
    (plan w = [] → ∃ q, r = Ret q).
Proof.
  intros Hh Hg.
  destruct (Z.ltb_spec (Z.of_nat (length xs)) cap) as [Hlt|Hfull].
  { (* spare capacity *)
    destruct (EmplaceBack_within_run w this xs cap a Hh Hlt) as (r & w' & Hrun & Hp & Hr).
    exists r, w'. split; [done|].
    assert (Hgrown : grown (Z.of_nat (length xs)) cap = cap).
    { unfold grown. by destruct (Z.ltb_spec (Z.of_nat (length xs)) cap); [|lia]. }
    destruct r as [q|e].
    - destruct Hr as (_ & -> & Hh' & -> & _). rewrite Hgrown. split; [done|]. by eexists.
    - destruct Hr as (Hf & -> & Hheap & Hobj & Hl). split.
      + split; [done|]. right. split; [done|]. split; [by eapply ctor_fails_cases|].
        exists 0%nat. rewrite relocated_from_0.
        eapply holds_transfer; [exact Hh|by rewrite Hobj|]. intros lc _. by rewrite Hheap.
      + intros Hnil. rewrite Hnil in Hf. by rewrite (proj1 (ctor_fails_nil a)) in Hf. }
  assert (Hgrown : grown (Z.of_nat (length xs)) cap = Z.max 1 (2 * cap)).
  { unfold grown. by destruct (Z.ltb_spec (Z.of_nat (length xs)) cap); [lia|]. }
  rewrite Hgrown in *.
  destruct w as [h o p l].
  destruct Hh as (v & Ho & Hsz & Hc & Hle & Hbytes & Hbuf).
  assert (Hh : holds (World h o p l) this xs cap) by (exists v; done).
  destruct v as [[buf c] sz]. cbn [data_ size_ buffer_ capacity_ heap objects log plan] in *.
  subst sz c.
  assert (Hthis : (this < length o)%nat) by (by eapply lookup_lt_Some).
  assert (cap = Z.of_nat (length xs)) as Hcap by lia.
  unfold EmplaceBack.
  erewrite bind_ret_step by (by eapply get_vector_step).
  unfold end_, GetAddress, ptr_add; cbn [fst snd data_ buffer_ size_]. rewrite Z.add_0_l.
  destruct buf as [lold|].
  - destruct Hbuf as [Hpos Hb]. rewrite Z.max_r in * by lia.
    assert (Hlt : (lold < length h)%nat) by (by eapply lookup_lt_Some).
    subst cap.
    destruct (EmplaceBack_grow_any h o p l this lold xs a)
      as (r & h' & o' & p' & l' & Hrun & Hr & Hok); [done|done|done|lia|].
    cbn zeta in Hrun, Hr.
    exists r, (World h' o' p' l'). split; [done|]. split; [|intros ->; by destruct Hok].
    destruct r as [q|e].
    + destruct Hr as (-> & -> & -> & _). split.
      { unfold buffer_of; cbn [objects]. by rewrite list_lookup_insert_eq. }
      eexists. cbn [objects heap]. split; [by apply list_lookup_insert_eq|].
      cbn [data_ size_ buffer_ capacity_]. rewrite length_app. simpl.
      split; [lia|]. split; [done|]. split; [lia|]. split; [done|]. split; [lia|].
      rewrite lookup_app_r by (rewrite length_insert; lia).
      by rewrite length_insert, Nat.sub_diag.
    + destruct Hr as [-> [(-> & -> & ->) | (-> & Hwhy & k & Hk & ->)]].
      * split; [done|]. by left.
      * split; [done|]. right. split; [done|]. split; [done|]. exists k.
        eexists. cbn [objects heap]. split; [exact Ho|].
        cbn [data_ size_ buffer_ capacity_]. rewrite length_relocated_from.
        repeat (split; [done|]).
        rewrite lookup_app_l by (rewrite length_insert; lia).
        by apply list_lookup_insert_eq.
  - assert (xs = []) as -> by (destruct xs; [done|simpl in *; lia]).
    subst cap. cbn [length Z.of_nat] in *.
    destruct (EmplaceBack_first_any h o p l this a)
      as (r & h' & o' & p' & l' & Hrun & Hr & Hok); [done|lia|].
    exists r, (World h' o' p' l'). split; [done|]. split; [|intros ->; by destruct Hok].
    destruct r as [q|e].
    + destruct Hr as (-> & -> & -> & _). split.
      { unfold buffer_of; cbn [objects]. by rewrite list_lookup_insert_eq. }
      eexists. cbn [objects heap]. split; [by apply list_lookup_insert_eq|].
      cbn [data_ size_ buffer_ capacity_ app length].
      split; [done|]. split; [done|]. split; [done|]. split; [done|]. split; [lia|].
      apply heap_snoc_lookup.
    + destruct Hr as [-> [(-> & -> & ->) | (-> & Hwhy & ->)]].
      * split; [done|]. by left.
      * split; [done|]. right. split; [done|]. split; [done|]. exists 0%nat.
        rewrite relocated_from_0.
        eapply holds_transfer; [exact Hh|done|]. intros lc Hlc.
        unfold buffer_of in Hlc; cbn [objects] in Hlc. by rewrite Ho in Hlc.
Qed.

(** X17.  For an element type that is relocated by copying (copyable,
    move constructor not [noexcept]), [EmplaceBack], and with it both
    [PushBack] overloads, gives the vector the strong guarantee under
    any failure plan: it either appends the element, or it throws and
    the vector holds the same elements in the same storage with the
    same capacity as before the call. *)
Theorem EmplaceBack_keeps_vector_of_copied_type w this xs cap a :
  holds w this xs cap →
  is_nothrow_move_constructible = false → is_copy_constructible = true →
  grown (Z.of_nat (length xs)) cap * Z.pos sizeof < size_t_modulus →
  ∃ r w',
    EmplaceBack this a w = Some (r, w') ∧
    match r with
    | Ret q =>
        elements w' this = Some (xs ++ [arg_value a]) ∧
        Capacity this w' = Some (Ret (grown (Z.of_nat (length xs)) cap), w') ∧
        load q w' = Some (Ret (arg_value a), w')
    | Throw _ =>
        holds w' this xs cap ∧
        elements w' this = Some xs ∧
        Capacity this w' = Some (Ret cap, w') ∧
        buffer_of w' this = buffer_of w this
    end ∧
    (plan w = [] → ∃ q, r = Ret q).
Proof.
  intros Hh Hnt Hcc Hg.
  destruct (EmplaceBack_any_run w this xs cap a Hh Hg) as (r & w' & Hrun & Hr & Hok).
  exists r, w'. split; [done|]. split; [|done].
  destruct r as [q|e].
  - destruct Hr as [-> Hh'].
    split; [by eapply holds_elements|]. split; [by eapply Capacity_run|].
    eapply holds_load; [exact Hh'|]. by apply list_lookup_middle.
  - destruct Hr as [Hobj Hr].
    assert (Hh' : holds w' this xs cap).
    { destruct Hr as [(_ & Hheap & _) | (_ & _ & k & Hk)].
      - eapply holds_transfer; [exact Hh|by rewrite Hobj|]. intros lc _. by rewrite Hheap.
      - by rewrite relocated_from_copy in Hk. }
    split; [done|]. split; [by eapply holds_elements|]. split; [by eapply Capacity_run|].
    unfold buffer_of. by rewrite Hobj.
Qed.

(** X18.  [PushBack(T&&)] of a type whose move constructor is
    [noexcept] can fail only in the allocation of the new storage, and
    then nothing has happened: the heap, the vector and the log are as
    before the call.  Into spare capacity it cannot fail at all. *)
Theorem PushBack_move_of_nothrow_type w this xs cap x :
  holds w this xs cap → is_nothrow_move_constructible = true →
  grown (Z.of_nat (length xs)) cap * Z.pos sizeof < size_t_modulus →
  ∃ r w',
    PushBack_move this x w = Some (r, w') ∧
    match r with
    | Ret _ =>
        elements w' this = Some (xs ++ [x]) ∧
        Capacity this w' = Some (Ret (grown (Z.of_nat (length xs)) cap), w')
    | Throw e =>
        e = bad_alloc ∧ Z.of_nat (length xs) = cap ∧
        heap w' = heap w ∧ objects w' = objects w ∧ log w' = log w
    end.
Proof.
  intros Hh Hnt Hg.
  assert (Hle : Z.of_nat (length xs) ≤ cap) by (by destruct Hh as (? & _ & _ & _ & ? & _)).
  destruct (EmplaceBack_any_run w this xs cap (rvalue x) Hh Hg) as (r & w' & Hrun & Hr & _).
  unfold PushBack_move. destruct r as [q|e].
  - exists (Ret tt), w'. split; [by erewrite bind_ret_step by exact Hrun|].
    destruct Hr as [_ Hh']. split; [by eapply holds_elements|by eapply Capacity_run].
  - exists (Throw e), w'. split; [by erewrite bind_throw_step by exact Hrun|].
    destruct Hr as [Hobj [(-> & Hheap & Hl) | (_ & [Hno|[y Hy]] & _)]]; [|congruence|done].
    split; [done|]. split; [|done].
    destruct (Z.ltb_spec (Z.of_nat (length xs)) cap) as [Hlt|]; [|lia].
    destruct (EmplaceBack_within_run w this xs cap (rvalue x) Hh Hlt) as (r2 & w2 & Hrun2 & _ & Hr2).
    rewrite Hrun in Hrun2. injection Hrun2 as <- <-. by destruct Hr2 as (_ & [=] & _).
Qed.

(** ** The vector refines a list with a capacity *)

Lemma Reserve_noop w this xs cap n :
  holds w this xs cap → n ≤ cap → Reserve this n w = Some (Ret tt, w).
Proof.
  intros (v & Ho & _ & Hc & _) Hle. destruct w as [h o p l]. cbn [objects] in Ho.
  unfold Reserve. erewrite bind_ret_step by (by eapply get_vector_step).
  unfold RawMemory_Capacity. rewrite Hc. by destruct (Z.leb_spec n cap); [|lia].
Qed.

Lemma emplace_events_ledger n cap (i : nat) (a : @ctor_args T) :
  (i ≤ n)%nat → Z.of_nat n ≤ cap →
  live_objects (emplace_events n cap i a) = 1 ∧
  live_blocks (emplace_events n cap i a)
    = owned_blocks (grown (Z.of_nat n) cap) - owned_blocks cap.
Proof.
  intros Hi Hn. unfold emplace_events, grown.
  destruct (Z.ltb_spec (Z.of_nat n) cap).
  - destruct (Nat.eqb i n); destruct a; cbn [ctor_event]; split; ledger; lia.
  - split; ledger; lia.
Qed.

Lemma EmplaceBack_run w this xs cap a :
  holds w this xs cap → plan w = [] →
  grown (Z.of_nat (length xs)) cap * Z.pos sizeof < size_t_modulus →
  ∃ q w',
    EmplaceBack this a w = Some (Ret q, w') ∧
    holds w' this (xs ++ [arg_value a]) (grown (Z.of_nat (length xs)) cap) ∧
    plan w' = [] ∧
    log w' = log w ++ emplace_events (length xs) cap (length xs) a.
Proof.
  intros Hh Hp Hg.
  destruct (Emplace_run w this xs cap (length xs) a) as (w' & Hrun & Hh' & Hp' & Hl);
    [done..|].
  exists (buffer_of w' this, Z.of_nat (length xs)), w'.
  rewrite take_ge, drop_ge in Hh' by lia. split; [|done].
  unfold EmplaceBack.
  destruct w as [h o p l]. destruct Hh as (v & Ho & Hsz & _). cbn [objects] in Ho.
  erewrite bind_ret_step by (by eapply get_vector_step).
  unfold end_, GetAddress, ptr_add; cbn [fst snd]. rewrite Hsz, Z.add_0_l.
  unfold buffer_of in Hrun at 1; cbn [objects] in Hrun. rewrite Ho in Hrun. exact Hrun.
Qed.

Lemma list_unsnoc xs : (0 < length xs)%nat → ∃ ys y, xs = ys ++ [y].
Proof.
  induction xs as [|y ys _] using rev_ind; [simpl; lia|]. by eexists _, _.
Qed.

(** One mutation, called within its precondition and without failure,
    does to the vector what [mutate_list] does to the list. *)
Lemma mutate_run w this xs cap m xs' cap' :
  holds w this xs cap → plan w = [] →
  mutate_list m xs cap = Some (xs', cap') →
  ∃ w',
    mutate this m w = Some (Ret tt, w') ∧
    holds w' this xs' cap' ∧
    plan w' = [] ∧
    live_objects (log w') - live_objects (log w)
      = Z.of_nat (length xs') - Z.of_nat (length xs) ∧
    live_blocks (log w') - live_blocks (log w) = owned_blocks cap' - owned_blocks cap.
Proof.
  intros Hh Hp Hm.
  assert (Hle : Z.of_nat (length xs) ≤ cap) by (by destruct Hh as (? & _ & _ & _ & ? & _)).
  destruct m as [k|k|x|x|i a|i| |i x]; cbn [mutate_list mutate] in *.
  - (* Reserve *)
    destruct (Z.leb_spec k cap) as [Hk|Hk].
    + injection Hm as <- <-. exists w. rewrite (Reserve_noop w this xs cap k) by done.
      split; [done|]. split; [done|]. split; [done|]. lia.
    + unfold fits in Hm. destruct (Z.ltb_spec (k * Z.pos sizeof) size_t_modulus); [|done].
      injection Hm as <- <-.
      destruct (Reserve_run w this xs cap k Hh Hk) as (r & w' & Hrun & Hr & Hok); [done|].
      destruct (Hok Hp) as [-> Hp']. destruct Hr as (Hh' & _ & _ & Hl).
      exists w'. split; [done|]. split; [done|]. split; [done|].
      rewrite Hl. split; ledger; lia.
  - (* Resize *)
    destruct (Z.leb_spec 0 k) as [Hk|]; [|done]. cbn [andb] in Hm.
    assert (Hfit : k ≤ cap ∨ k * Z.pos sizeof < size_t_modulus).
    { unfold fits in Hm. destruct (Z.leb_spec k cap); [by left|].
      destruct (Z.ltb_spec (k * Z.pos sizeof) size_t_modulus); [by right|done]. }
    destruct ((k <=? cap) || fits k); [|done]. injection Hm as <- <-.
    destruct (Resize_run w this xs cap k Hh Hp Hk Hfit) as (w' & Hrun & Hh' & Hp' & Hl).
    exists w'. split; [done|]. split; [done|]. split; [done|].
    rewrite Hl, length_resized.
    destruct (Z.ltb_spec cap k).
    + rewrite Z.max_r by lia. split; ledger; lia.
    + rewrite Z.max_l by lia. split; ledger; lia.
  - (* PushBack(const T&) *)
    unfold fits in Hm.
    destruct (Z.ltb_spec (grown (Z.of_nat (length xs)) cap * Z.pos sizeof) size_t_modulus);
      [|done].
    injection Hm as <- <-.
    destruct (EmplaceBack_run w this xs cap (lvalue x) Hh Hp) as (q & w' & Hrun & Hh' & Hp' & Hl);
      [done|].
    exists w'. unfold PushBack. erewrite bind_ret_step by exact Hrun.
    split; [done|]. split; [done|]. split; [done|].
    destruct (emplace_events_ledger (length xs) cap (length xs) (lvalue x)) as [Ho Hb]; [lia..|].
    rewrite Hl, live_objects_app, live_blocks_app, Ho, Hb, length_app. simpl. lia.
  - (* PushBack(T&&) *)
    unfold fits in Hm.
    destruct (Z.ltb_spec (grown (Z.of_nat (length xs)) cap * Z.pos sizeof) size_t_modulus);
      [|done].
    injection Hm as <- <-.
    destruct (EmplaceBack_run w this xs cap (rvalue x) Hh Hp) as (q & w' & Hrun & Hh' & Hp' & Hl);
      [done|].
    exists w'. unfold PushBack_move. erewrite bind_ret_step by exact Hrun.
    split; [done|]. split; [done|]. split; [done|].
    destruct (emplace_events_ledger (length xs) cap (length xs) (rvalue x)) as [Ho Hb]; [lia..|].
    rewrite Hl, live_objects_app, live_blocks_app, Ho, Hb, length_app. simpl. lia.
  - (* Emplace *)
    unfold fits in Hm.
    destruct (Z.leb_spec 0 i); [|done]. destruct (Z.leb_spec i (Z.of_nat (length xs))); [|done].
    destruct (Z.ltb_spec (grown (Z.of_nat (length xs)) cap * Z.pos sizeof) size_t_modulus);
      [|done].
    injection Hm as <- <-.
    destruct (Emplace_run w this xs cap (Z.to_nat i) a Hh Hp) as (w' & Hrun & Hh' & Hp' & Hl);
      [lia|done|].
    exists w'. erewrite bind_ret_step by (by eapply holds_begin).
    unfold ptr_add; cbn [fst snd]. rewrite Z.add_0_l.
    rewrite Z2Nat.id in Hrun by done.
    erewrite bind_ret_step by exact Hrun.
    split; [done|]. split; [done|]. split; [done|].
    destruct (emplace_events_ledger (length xs) cap (Z.to_nat i) a) as [Ho Hb]; [lia..|].
    rewrite Hl, live_objects_app, live_blocks_app, Ho, Hb.
    rewrite length_app, length_take. cbn [length]. rewrite length_drop. lia.
  - (* Erase *)
    destruct (Z.leb_spec 0 i); [|done]. destruct (Z.ltb_spec i (Z.of_nat (length xs))); [|done].
    injection Hm as <- <-.
    destruct (Erase_run w this xs cap (Z.to_nat i) Hh Hp) as (w' & Hrun & Hh' & Hp' & _ & Hl);
      [lia|].
    exists w'. erewrite bind_ret_step by (by eapply holds_begin).
    unfold ptr_add; cbn [fst snd]. rewrite Z.add_0_l.
    rewrite Z2Nat.id in Hrun by done.
    erewrite bind_ret_step by exact Hrun.
    split; [done|]. split; [done|]. split; [done|].
    rewrite Hl, length_delete by (apply lookup_lt_is_Some_2; lia).
    split; ledger; lia.
  - (* PopBack *)
    destruct (Z.ltb_spec 0 (Z.of_nat (length xs))); [|done]. injection Hm as <- <-.
    destruct (list_unsnoc xs) as (ys & y & ->); [lia|].
    destruct (PopBack_run w this ys y cap Hh) as (w' & Hrun & Hh' & _ & Hp' & Hl).
    rewrite length_app in *. cbn [length] in *.
    replace (length ys + 1 - 1)%nat with (length ys) by lia.
    rewrite take_app_length.
    exists w'. split; [done|]. split; [done|]. split; [congruence|].
    rewrite Hl. split; ledger; lia.
  - (* v[i] = x *)
    destruct (Z.leb_spec 0 i); [|done]. destruct (Z.ltb_spec i (Z.of_nat (length xs))); [|done].
    injection Hm as <- <-.
    destruct (store_run w this xs cap (Z.to_nat i) x Hh) as (r & w' & Hrun & Hr & Hok); [lia|].
    destruct (Hok Hp) as [-> Hp']. destruct Hr as (Hh' & _ & Hl).
    rewrite Z2Nat.id in Hrun by done.
    exists w'. split; [done|]. split; [done|]. split; [done|].
    rewrite Hl, length_insert. split; ledger; lia.
Qed.

Lemma mutate_list_capacity (m : @mutation T) xs cap xs' cap' :
  mutate_list m xs cap = Some (xs', cap') → cap ≤ cap'.
Proof.
  destruct m; cbn [mutate_list]; intros Hm;
    repeat match type of Hm with
           | context [if ?c then _ else _] => destruct c eqn:?
           end;
    try discriminate; injection Hm as <- <-; try lia.
  all: unfold grown in *;
    repeat match goal with |- context [if ?c then _ else _] => destruct c eqn:? end; lia.
Qed.

Lemma mutate_all_run ms : ∀ w this xs cap xs' cap',
  holds w this xs cap → plan w = [] →
  mutate_all_list ms xs cap = Some (xs', cap') →
  ∃ w',
    mutate_all this ms w = Some (Ret tt, w') ∧
    holds w' this xs' cap' ∧
    plan w' = [] ∧
    cap ≤ cap' ∧
    live_objects (log w') - live_objects (log w)
      = Z.of_nat (length xs') - Z.of_nat (length xs) ∧
    live_blocks (log w') - live_blocks (log w) = owned_blocks cap' - owned_blocks cap.
Proof.
  induction ms as [|m ms IH]; intros w this xs cap xs' cap' Hh Hp Hms.
  - injection Hms as <- <-. exists w. cbn [mutate_all]. repeat (split; [done|]). lia.
  - cbn [mutate_all_list] in Hms.
    destruct (mutate_list m xs cap) as [[xs1 cap1]|] eqn:Hm; [|done].
    destruct (mutate_run w this xs cap m xs1 cap1 Hh Hp Hm)
      as (w1 & Hrun1 & Hh1 & Hp1 & Ho1 & Hb1).
    destruct (IH w1 this xs1 cap1 xs' cap' Hh1 Hp1 Hms)
      as (w' & Hrun' & Hh' & Hp' & Hcap' & Ho' & Hb').
    exists w'. cbn [mutate_all].
    erewrite bind_ret_step.
    2:{ unfold attempt. by rewrite Hrun1. }
    split; [done|]. split; [done|]. split; [done|].
    apply mutate_list_capacity in Hm. lia.
Qed.


(** X20.  A vector's whole life leaks nothing when nothing fails: from
    the default constructor through any sequence of mutations, each
    within its precondition, to the destructor, every element object
    that was constructed has been destroyed and every block that was
    allocated has been released. *)
Theorem lifetime_without_failure_leaks_nothing (w : @world T) ms xs' cap' :
  plan w = [] →
  mutate_all_list ms [] 0 = Some (xs', cap') →
  ∃ this w1 w2 w3,
    Vector_default w = Some (Ret this, w1) ∧
    mutate_all this ms w1 = Some (Ret tt, w2) ∧
    Vector_dtor this w2 = Some (Ret tt, w3) ∧
    live_objects (log w3) = live_objects (log w) ∧
    live_blocks (log w3) = live_blocks (log w) ∧
    (constructions (log w3) + destructions (log w)
       = destructions (log w3) + constructions (log w))%nat ∧
    objects w3 !! this = Some None.
Proof.
  destruct w as [h o p l]. cbn [plan log]. intros -> Hms.
  rewrite Vector_default_run. cbn [heap objects plan log].
  pose proof (holds_default h o [] l) as Hh.
  destruct (mutate_all_run ms _ (length o) [] 0 xs' cap' Hh eq_refl Hms)
    as (w2 & Hrun & Hh2 & _ & _ & Ho & Hb).
  destruct (Vector_dtor_run w2 (length o) xs' cap' Hh2) as (w3 & Hrun3 & Hobj & _ & _ & Hl).
  cbn [log] in Ho, Hb.
  assert (Hlive : live_objects (log w3) = live_objects l).
  { rewrite Hl. ledger; cbn [length] in *; lia. }
  eexists (length o), _, w2, w3. split; [reflexivity|]. split; [exact Hrun|]. split; [done|].
  split; [done|]. split.
  { rewrite Hl. unfold owned_blocks in Hb. cbn in Hb. ledger; lia. }
  split.
  { unfold live_objects in Hlive. cbn [log]. lia. }
  rewrite Hobj. apply list_lookup_insert_eq.
  destruct Hh2 as (v & Hv & _). by eapply lookup_lt_Some.
Qed.

(** ** Copy assignment between two vectors *)

Lemma assign_copy_step h o l ls ld spre x spost dpre z dpost zs zd :
  ls ≠ ld →
  h !! ls = Some (Some (spre ++ Some x :: spost)) →
  h !! ld = Some (Some (dpre ++ Some z :: dpost)) →
  zs = Z.of_nat (length spre) → zd = Z.of_nat (length dpre) →
  assign_copy (Some ld, zd) (Some ls, zs) (World h o [] l) =
    Some (Ret tt, World (<[ld := Some (dpre ++ Some x :: dpost)]> h) o [] (l ++ [CopyAssign])).
Proof.
  intros Hne Hs Hd Hzs Hzd. unfold assign_copy.
  erewrite bind_ret_step by (by eapply load_middle).
  erewrite bind_ret_step by (by eapply load_middle).
  erewrite bind_ret_step by reflexivity.
  erewrite bind_ret_step by (by eapply set_slot_middle). done.
Qed.

(** [std::copy] from one block onto live objects of another. *)
Lemma std_copy_spec ys : ∀ zs h o l ls ld spre spost dpre dpost z1 z2,
  length zs = length ys → ls ≠ ld →
  h !! ls = Some (Some (spre ++ (Some <$> ys) ++ spost)) →
  h !! ld = Some (Some (dpre ++ (Some <$> zs) ++ dpost)) →
  z1 = Z.of_nat (length spre) → z2 = Z.of_nat (length dpre) →
  std_copy (Some ls, z1) (length ys) (Some ld, z2) (World h o [] l) =
    Some (Ret tt, World (<[ld := Some (dpre ++ (Some <$> ys) ++ dpost)]> h) o []
                        (l ++ replicate (length ys) CopyAssign)).
Proof.
  induction ys as [|y ys IH]; intros zs h o l ls ld spre spost dpre dpost z1 z2
    Hlen Hne Hs Hd Hz1 Hz2.
  - destruct zs; [|done]. simpl. unfold ret. rewrite app_nil_r. by rewrite list_insert_id.
  - destruct zs as [|z zs]; [done|]. cbn [std_copy length].
    assert (Hs' : h !! ls = Some (Some (spre ++ Some y :: ((Some <$> ys) ++ spost)))) by exact Hs.
    assert (Hd' : h !! ld = Some (Some (dpre ++ Some z :: ((Some <$> zs) ++ dpost)))) by exact Hd.
    erewrite bind_ret_step by (by eapply assign_copy_step).
    unfold ptr_add; cbn [fst snd].
    erewrite (IH zs _ _ _ ls ld (spre ++ [Some y]) spost (dpre ++ [Some y]) dpost).
    + rewrite list_insert_insert_eq, <- !app_assoc. done.
    + simpl in Hlen. lia.
    + done.
    + rewrite list_lookup_insert_ne by done. by rewrite <- app_assoc.
    + erewrite heap_insert_lookup by done. by rewrite <- app_assoc.
    + rewrite length_app; simpl; lia.
    + rewrite length_app; simpl; lia.
Qed.

(** The copy constructor on a source that owns a block, when nothing
    fails. *)
Lemma Vector_copy_step h o l v lv cap ys :
  ys ≠ [] →
  o !! v = Some (Some {| data_ := {| buffer_ := Some lv; capacity_ := cap |};
                         size_ := Z.of_nat (length ys) |}) →
  h !! lv = Some (Some (block_of ys cap)) →
  Z.of_nat (length ys) ≤ cap → cap * Z.pos sizeof < size_t_modulus →
  Vector_copy v (World h o [] l) =
    Some (Ret (length o),
          World (h ++ [Some (block_of ys (Z.of_nat (length ys)))])
                (o ++ [Some {| data_ := {| buffer_ := Some (length h);
                                           capacity_ := Z.of_nat (length ys) |};
                               size_ := Z.of_nat (length ys) |}])
                [] (l ++ [New (length ys)] ++ replicate (length ys) CopyCtor)).
Proof.
  intros Hne Ho Hb Hle Hbytes.
  assert (0 < Z.of_nat (length ys)) by (destruct ys; [done|simpl; lia]).
  assert (Hlv : (lv < length h)%nat) by (by eapply lookup_lt_Some).
  assert (Hsize : Z.of_nat (length ys) * Z.pos sizeof < size_t_modulus)
    by (pose proof (Pos2Z.is_pos sizeof); nia).
  unfold Vector_copy.
  erewrite bind_ret_step by (by eapply get_vector_step). cbn [size_ data_].
  unfold bind at 1. rewrite RawMemory_sized_step by done. cbn [next_fails tail].
  unfold GetAddress; cbn [buffer_]. rewrite !Nat2Z.id.
  destruct (uninitialized_copy_n_spec ys (h ++ [Some (replicate (length ys) None)]) o []
              (l ++ [New (length ys)]) lv (length h) []
              (replicate (Z.to_nat cap - length ys) None) [] [] 0 0)
    as (r & h' & p' & l' & Hrun & Hr & Hok); [lia| | |done|done|].
  { by rewrite lookup_app_l. }
  { rewrite heap_snoc_lookup. by rewrite !app_nil_r. }
  destruct Hok as [-> ->]; [done|]. destruct Hr as [-> ->].
  erewrite bind_ret_step by (by eapply unwinding_ret_step).
  unfold new_vector, upd_objects. cbn [objects heap plan log].
  rewrite heap_snoc_insert. unfold block_of.
  by rewrite Nat2Z.id, Nat.sub_diag, <- !app_assoc.
Qed.

Lemma block_of_take_drop ys cap n :
  block_of ys cap = (Some <$> take n ys) ++ (Some <$> drop n ys)
                      ++ replicate (Z.to_nat cap - length ys) None.
Proof. unfold block_of. by rewrite app_assoc, <- fmap_app, take_drop. Qed.

(** The log of a copy assignment that reuses the storage: the common
    prefix is assigned, the rest is built or destroyed. *)
Lemma operator_assign_copy_in_place h o l (a b : nat) la bufb xs ca ys cb :
  a ≠ b → bufb ≠ Some la →
  o !! a = Some (Some {| data_ := {| buffer_ := Some la; capacity_ := ca |};
                         size_ := Z.of_nat (length xs) |}) →
  o !! b = Some (Some {| data_ := {| buffer_ := bufb; capacity_ := cb |};
                         size_ := Z.of_nat (length ys) |}) →
  h !! la = Some (Some (block_of xs ca)) →
  match bufb with
  | Some lb => h !! lb = Some (Some (block_of ys cb))
  | None => ys = []
  end →
  Z.of_nat (length xs) ≤ ca → Z.of_nat (length ys) ≤ ca → Z.of_nat (length ys) ≤ cb →
  operator_assign_copy a b (World h o [] l) =
    Some (Ret tt,
          World (<[la := Some (block_of ys ca)]> h)
                (<[a := Some {| data_ := {| buffer_ := Some la; capacity_ := ca |};
                                size_ := Z.of_nat (length ys) |}]> o)
                []
                (l ++ replicate (length xs `min` length ys) CopyAssign
                   ++ replicate (length ys - length xs) CopyCtor
                   ++ replicate (length xs - length ys) Dtor)).
Proof.
  intros Hab Hsep Ha Hb Hba Hbb Hxa Hya Hyb.
  unfold operator_assign_copy. rewrite bool_decide_eq_false_2 by done.
  erewrite bind_ret_step by (by eapply get_vector_step).
  erewrite bind_ret_step by (by eapply get_vector_step).
  cbn [data_ size_ RawMemory_Capacity capacity_].
  destruct (Z.ltb_spec ca (Z.of_nat (length ys))); [lia|].
  unfold GetAddress, ptr_add, distance; cbn [fst snd data_ buffer_ size_].
  rewrite !Z.add_0_l, !Z.sub_0_r.
  destruct (Z.ltb_spec (Z.of_nat (length xs)) (Z.of_nat (length ys))) as [Hgrow|Hshrink].
  - (* more elements than before: assign the first, build the rest *)
    destruct bufb as [lb|]; [|subst ys; simpl in Hgrow; lia].
    assert (Hne : lb ≠ la) by congruence.
    assert (Htake : length (take (length xs) ys) = length xs) by (rewrite length_take; lia).
    assert (Hdrop : length (drop (length xs) ys) = (length ys - length xs)%nat)
      by apply length_drop.
    set (raw_b := replicate (Z.to_nat cb - length ys) (@None T)).
    set (raw_a := replicate (Z.to_nat ca - length ys) (@None T)).
    assert (Hsrc : h !! lb = Some (Some ([] ++ (Some <$> take (length xs) ys)
                                           ++ ((Some <$> drop (length xs) ys) ++ raw_b)))).
    { by rewrite Hbb, (block_of_take_drop ys cb (length xs)). }
    assert (Hdst : h !! la
                   = Some (Some ([] ++ (Some <$> xs)
                                   ++ (replicate (length (drop (length xs) ys)) None ++ raw_a)))).
    { rewrite Hba. unfold block_of, raw_a. rewrite Hdrop, <- replicate_add.
      by replace (length ys - length xs + (Z.to_nat ca - length ys))%nat
        with (Z.to_nat ca - length xs)%nat by lia. }
    replace (Z.to_nat (Z.of_nat (length xs))) with (length (take (length xs) ys)) by lia.
    erewrite bind_ret_step.
    2:{ erewrite bind_ret_step.
        2:{ eapply (std_copy_spec (take (length xs) ys) xs);
              [lia|done|exact Hsrc|exact Hdst|done|done]. }
        replace (Z.to_nat (Z.of_nat (length ys) - Z.of_nat (length xs)))
          with (length (drop (length xs) ys)) by lia.
        destruct (uninitialized_copy_n_spec (drop (length xs) ys)
                    (<[la := Some ([] ++ (Some <$> take (length xs) ys)
                     ++ (replicate (length (drop (length xs) ys)) None ++ raw_a))]> h) o []
                    (l ++ replicate (length (take (length xs) ys)) CopyAssign) lb la
                    (Some <$> take (length xs) ys) raw_b (Some <$> take (length xs) ys) raw_a
                    (Z.of_nat (length xs)) (Z.of_nat (length xs)))
          as (r & h' & p' & l' & Hrun & Hr & Hok).
        - done.
        - rewrite list_lookup_insert_ne by done. exact Hsrc.
        - by erewrite heap_insert_lookup by done.
        - rewrite length_fmap. lia.
        - rewrite length_fmap. lia.
        - destruct Hok as [-> ->]; [done|]. destruct Hr as [-> ->]. exact Hrun. }
    erewrite set_vector_step by done.
    rewrite list_insert_insert_eq.
    assert (Hblock : (Some <$> take (length xs) ys) ++ (Some <$> drop (length xs) ys) ++ raw_a
                     = block_of ys ca).
    { by rewrite (block_of_take_drop ys ca (length xs)). }
    rewrite Hblock, Htake, Hdrop.
    replace (length xs `min` length ys)%nat with (length xs) by lia.
    replace (length xs - length ys)%nat with 0%nat by lia.
    by rewrite <- !app_assoc, app_nil_r.
  - (* no more elements than before: assign them, destroy the rest *)
    assert (Htake : length (take (length ys) xs) = length ys) by (rewrite length_take; lia).
    assert (Hdrop : length (drop (length ys) xs) = (length xs - length ys)%nat)
      by apply length_drop.
    set (raw_a := replicate (Z.to_nat ca - length xs) (@None T)).
    assert (Hdst : h !! la = Some (Some ([] ++ (Some <$> take (length ys) xs)
                                           ++ ((Some <$> drop (length ys) xs) ++ raw_a)))).
    { by rewrite Hba, (block_of_take_drop xs ca (length ys)). }
    assert (Hcopy : std_copy (bufb, 0) (Z.to_nat (Z.of_nat (length ys))) (Some la, 0)
                      (World h o [] l)
                    = Some (Ret tt,
                            World (<[la := Some ([] ++ (Some <$> ys)
                                            ++ ((Some <$> drop (length ys) xs) ++ raw_a))]> h)
                                  o [] (l ++ replicate (length ys) CopyAssign))).
    { rewrite Nat2Z.id. destruct bufb as [lb|].
      - assert (Hne : lb ≠ la) by congruence.
        eapply (std_copy_spec ys (take (length ys) xs) _ _ _ lb la []
                  (replicate (Z.to_nat cb - length ys) None));
          [lia|done|exact Hbb|exact Hdst|done|done].
      - subst ys. cbn [length std_copy replicate]. unfold ret. rewrite app_nil_r.
        rewrite list_insert_id; [done|]. rewrite Hdst. cbn [length]. by rewrite take_0. }
    erewrite bind_ret_step.
    2:{ erewrite bind_ret_step by exact Hcopy.
        replace (Z.to_nat (Z.of_nat (length xs) - Z.of_nat (length ys)))
          with (length (drop (length ys) xs)) by lia.
        eapply (destroy_n_spec (drop (length ys) xs) _ _ _ _ la (Some <$> ys) raw_a).
        - by erewrite heap_insert_lookup by done.
        - rewrite length_fmap. lia. }
    erewrite set_vector_step by done.
    rewrite list_insert_insert_eq.
    assert (Hblock : (Some <$> ys) ++ replicate (length (drop (length ys) xs)) None ++ raw_a
                     = block_of ys ca).
    { unfold block_of, raw_a. rewrite Hdrop, <- replicate_add.
      by replace (length xs - length ys + (Z.to_nat ca - length xs))%nat
        with (Z.to_nat ca - length ys)%nat by lia. }
    rewrite Hblock, Hdrop.
    replace (length xs `min` length ys)%nat with (length ys) by lia.
    replace (length ys - length xs)%nat with 0%nat by lia.
    by rewrite <- !app_assoc.
Qed.

(** Copy assignment between two distinct vectors, when nothing fails. *)
Lemma operator_assign_copy_run w (a b : nat) xs ca ys cb :
  a ≠ b → holds w a xs ca → holds w b ys cb →
  (∀ lc, buffer_of w a = Some lc → buffer_of w b ≠ Some lc) →
  plan w = [] →
  ∃ w',
    operator_assign_copy a b w = Some (Ret tt, w') ∧
    holds w' a ys (if ca <? Z.of_nat (length ys) then Z.of_nat (length ys) else ca) ∧
    holds w' b ys cb ∧
    plan w' = [] ∧
    log w' = log w ++
      (if ca <? Z.of_nat (length ys)
       then [New (length ys)] ++ replicate (length ys) CopyCtor
              ++ replicate (length xs) Dtor ++ release_events ca
       else replicate (length xs `min` length ys) CopyAssign
              ++ replicate (length ys - length xs) CopyCtor
              ++ replicate (length xs - length ys) Dtor) ∧
    (Z.of_nat (length ys) ≤ ca →
     buffer_of w' a = buffer_of w a ∧ length (heap w') = length (heap w)).
Proof.
  destruct w as [h o p l]. intros Hab (va & Ha & Hresta) (vb & Hb & Hrestb) Hsep Hp.
  cbn [objects heap plan log] in *. subst p.
  assert (Hla : (a < length o)%nat) by (by eapply lookup_lt_Some).
  assert (Hlb : (b < length o)%nat) by (by eapply lookup_lt_Some).
  unfold buffer_of in Hsep; cbn [objects] in Hsep. rewrite Ha, Hb in Hsep.
  destruct va as [[bufa ca'] sa], vb as [[bufb cb'] sb].
  cbn [data_ size_ buffer_ capacity_] in *.
  destruct Hresta as (-> & -> & Hlea & Hbytesa & Hbufa).
  destruct Hrestb as (-> & -> & Hleb & Hbytesb & Hbufb).
  destruct (Z.ltb_spec ca (Z.of_nat (length ys))) as [Hsmall|Hroom].
  - (* the capacity does not suffice: copy, swap, destroy the old value *)
    assert (Hys : ys ≠ []) by (intros ->; simpl in Hsmall; lia).
    destruct bufb as [lb|]; [|destruct ys; [done|simpl in Hleb; lia]].
    destruct Hbufb as [Hposb Hblockb].
    assert (Hlbh : (lb < length h)%nat) by (by eapply lookup_lt_Some).
    unfold operator_assign_copy. rewrite bool_decide_eq_false_2 by done.
    erewrite bind_ret_step by (by eapply get_vector_step).
    erewrite bind_ret_step by (by eapply get_vector_step).
    cbn [data_ size_ RawMemory_Capacity capacity_].
    destruct (Z.ltb_spec ca (Z.of_nat (length ys))); [|lia].
    erewrite bind_ret_step by (by eapply Vector_copy_step).
    set (tmpv := {| data_ := {| buffer_ := Some (length h);
                                capacity_ := Z.of_nat (length ys) |};
                    size_ := Z.of_nat (length ys) |}).
    set (va := {| data_ := {| buffer_ := bufa; capacity_ := ca |};
                  size_ := Z.of_nat (length xs) |}) in *.
    set (h1 := h ++ [_]). set (l1 := l ++ _).
    erewrite bind_ret_step.
    2:{ eapply (Swap_step h1 (o ++ [Some tmpv]) [] l1 a (length o) va tmpv).
        - by rewrite lookup_app_l.
        - by rewrite lookup_app_r, Nat.sub_diag by lia. }
    set (o2 := <[length o := Some va]> (<[a := Some tmpv]> (o ++ [Some tmpv]))).
    assert (Hlen2 : length o2 = S (length o)).
    { unfold o2. rewrite !length_insert, length_app. simpl. lia. }
    assert (Hh2 : holds (World h1 o2 [] l1) (length o) xs ca).
    { exists va. cbn [objects heap]. split.
      - unfold o2. apply list_lookup_insert_eq. rewrite length_insert, length_app. simpl. lia.
      - unfold va; cbn [data_ size_ buffer_ capacity_]. repeat (split; [done|]).
        destruct bufa as [la|]; [|done]. destruct Hbufa as [? Hblocka]. split; [done|].
        unfold h1. rewrite lookup_app_l; [done|]. by eapply lookup_lt_Some. }
    destruct (Vector_dtor_run _ (length o) xs ca Hh2) as (w3 & Hrun3 & Hobj3 & Hheap3 & Hp3 & Hl3).
    rewrite Hrun3. exists w3. split; [done|].
    destruct w3 as [h3 o3 p3 l3]. cbn [objects heap plan log] in *. subst o3 p3 l3.
    assert (Hbuf2 : buffer_of (World h1 o2 [] l1) (length o) = bufa).
    { unfold buffer_of; cbn [objects]. unfold o2.
      rewrite list_lookup_insert_eq by (rewrite length_insert, length_app; simpl; lia). done. }
    rewrite Hbuf2 in Hheap3.
    assert (Ha3 : <[length o := None]> o2 !! a = Some (Some tmpv)).
    { unfold o2. rewrite !list_lookup_insert_ne by lia.
      apply list_lookup_insert_eq. rewrite length_app. simpl. lia. }
    assert (Hb3 : <[length o := None]> o2 !! b
                  = Some (Some {| data_ := {| buffer_ := Some lb; capacity_ := cb |};
                                  size_ := Z.of_nat (length ys) |})).
    { unfold o2. rewrite !list_lookup_insert_ne by lia. by rewrite lookup_app_l. }
    assert (Hnew3 : h3 !! length h = Some (Some (block_of ys (Z.of_nat (length ys))))).
    { subst h3. destruct bufa as [la|].
      - destruct Hbufa as [_ Hblocka]. apply lookup_lt_Some in Hblocka.
        rewrite list_lookup_insert_ne by lia. apply heap_snoc_lookup.
      - apply heap_snoc_lookup. }
    assert (Hold3 : h3 !! lb = Some (Some (block_of ys cb))).
    { subst h3. destruct bufa as [la|].
      - rewrite list_lookup_insert_ne by (intros ->; by eapply Hsep).
        unfold h1. by rewrite lookup_app_l.
      - unfold h1. by rewrite lookup_app_l. }
    split; [|split; [|split; [done|split; [|lia]]]].
    + exists tmpv. cbn [objects heap]. split; [done|].
      unfold tmpv; cbn [data_ size_ buffer_ capacity_].
      split; [done|]. split; [done|]. split; [lia|].
      split; [pose proof (Pos2Z.is_pos sizeof); nia|]. split; [lia|done].
    + eexists. cbn [objects heap]. split; [exact Hb3|].
      cbn [data_ size_ buffer_ capacity_]. by repeat (split; [done|]).
    + unfold l1. by rewrite <- !app_assoc.
  - (* the capacity suffices: the storage is reused *)
    destruct bufa as [la|].
    + destruct Hbufa as [Hposa Hblocka].
      erewrite (operator_assign_copy_in_place h o l a b la bufb xs ca ys cb); try done.
      * eexists. split; [reflexivity|]. cbn [objects heap plan log].
        split; [|split; [|split; [done|split; [done|]]]].
        -- eexists. cbn [objects heap]. split; [by apply list_lookup_insert_eq|].
           cbn [data_ size_ buffer_ capacity_]. repeat (split; [done|]).
           by apply heap_insert_lookup with (c := Some (block_of xs ca)).
        -- eexists. cbn [objects heap]. split; [by rewrite list_lookup_insert_ne|].
           cbn [data_ size_ buffer_ capacity_]. repeat (split; [done|]).
           destruct bufb as [lb|]; [|done]. destruct Hbufb as [? Hblockb]. split; [done|].
           rewrite list_lookup_insert_ne; [done|]. intros ->. by eapply Hsep.
        -- intros _. unfold buffer_of; cbn [objects].
           rewrite list_lookup_insert_eq, Ha by done. by rewrite length_insert.
      * intros E. by eapply Hsep.
      * destruct bufb as [lb|]; [by destruct Hbufb|]. subst cb.
        destruct ys; [done|simpl in Hleb; lia].
    + subst ca. assert (xs = []) as -> by (destruct xs; [done|simpl in Hlea; lia]).
      assert (ys = []) as -> by (destruct ys; [done|simpl in Hroom; lia]).
      unfold operator_assign_copy. rewrite bool_decide_eq_false_2 by done.
      erewrite bind_ret_step by (by eapply get_vector_step).
      erewrite bind_ret_step by (by eapply get_vector_step).
      cbn [data_ size_ RawMemory_Capacity capacity_ length].
      change (Z.of_nat 0) with 0.
      unfold GetAddress, ptr_add, distance;
        cbn [fst snd data_ buffer_ size_ Z.ltb Z.compare Z.add Z.sub Z.opp Z.to_nat
             std_copy destroy_n].
      erewrite bind_ret_step by reflexivity.
      erewrite set_vector_step by done.
      eexists. split; [reflexivity|]. cbn [objects heap plan log].
      split; [|split; [|split; [done|split; [by rewrite app_nil_r|]]]].
      * eexists. cbn [objects heap]. split; [by apply list_lookup_insert_eq|]. by cbn.
      * eexists. cbn [objects heap]. split; [by rewrite list_lookup_insert_ne|].
        cbn [data_ size_ buffer_ capacity_]. by repeat (split; [done|]).
      * intros _. unfold buffer_of; cbn [objects].
        by rewrite list_lookup_insert_eq, Ha by done.
Qed.

(** X21.  Copy assignment between two distinct vectors, when nothing
    fails, gives the destination the elements of the source and leaves
    the source as it is.  A destination whose capacity suffices keeps
    its storage and its capacity and allocates nothing: the common
    prefix is copy-assigned, further elements are copy-constructed and
    surplus elements destroyed.  Otherwise the destination gets new
    storage of exactly as many slots as the source has elements, and
    its old elements are destroyed and its old storage released. *)
Theorem copy_assignment_copies_elements w (a b : nat) xs ca ys cb :
  a ≠ b → holds w a xs ca → holds w b ys cb →
  (∀ lc, buffer_of w a = Some lc → buffer_of w b ≠ Some lc) →
  plan w = [] →
  ∃ w',
    operator_assign_copy a b w = Some (Ret tt, w') ∧
    elements w' a = Some ys ∧ elements w' b = Some ys ∧
    Capacity b w' = Some (Ret cb, w') ∧
    (Z.of_nat (length ys) ≤ ca →
     Capacity a w' = Some (Ret ca, w') ∧
     buffer_of w' a = buffer_of w a ∧
     length (heap w') = length (heap w) ∧
     log w' = log w ++ replicate (length xs `min` length ys) CopyAssign
                ++ replicate (length ys - length xs) CopyCtor
                ++ replicate (length xs - length ys) Dtor) ∧
    (ca < Z.of_nat (length ys) →
     Capacity a w' = Some (Ret (Z.of_nat (length ys)), w') ∧
     log w' = log w ++ [New (length ys)] ++ replicate (length ys) CopyCtor
                ++ replicate (length xs) Dtor ++ release_events ca) ∧
    live_objects (log w') - live_objects (log w)
      = Z.of_nat (length ys) - Z.of_nat (length xs).
Proof.
  intros Hab Ha Hb Hsep Hp.
  destruct (operator_assign_copy_run w a b xs ca ys cb Hab Ha Hb Hsep Hp)
    as (w' & Hrun & Ha' & Hb' & _ & Hl & Hsame).
  exists w'. split; [done|]. split; [by eapply holds_elements|].
  split; [by eapply holds_elements|]. split; [by eapply Capacity_run|].
  destruct (Z.ltb_spec ca (Z.of_nat (length ys))) as [Hsmall|Hroom].
  - split; [lia|]. split.
    + intros _. split; [by eapply Capacity_run|done].
    + rewrite Hl. ledger; lia.
  - split; [|split; [lia|]].
    + intros _. destruct (Hsame Hroom) as [Hbuf Hlen].
      split; [by eapply Capacity_run|done].
    + rewrite Hl. ledger; lia.
Qed.

(** ** Positions returned and positions invalidated *)


(** X23.  Erasing the last element is [PopBack]: no element is moved,
    the call cannot fail whatever failures are planned, it leaves the
    state [PopBack] leaves and returns [end()]. *)
Theorem Erase_of_last_is_PopBack w this xs x cap :
  holds w this (xs ++ [x]) cap →
  ∃ w',
    PopBack this w = Some (Ret tt, w') ∧
    Erase this (buffer_of w this, Z.of_nat (length xs)) w
      = Some (Ret (buffer_of w this, Z.of_nat (length xs)), w') ∧
    Vector_end this w' = Some (Ret (buffer_of w this, Z.of_nat (length xs)), w') ∧
    elements w' this = Some xs ∧
    plan w' = plan w ∧
    log w' = log w ++ [Dtor].
Proof.
  intros Hh.
  destruct (PopBack_run w this xs x cap Hh) as (w' & Hrun & Hh' & Hbuf & Hp & Hl).
  exists w'. split; [done|]. split; [|split; [|split; [by eapply holds_elements|done]]].
  - destruct w as [h o p l]. destruct Hh as (v & Ho & Hsz & _). cbn [objects] in Ho.
    unfold buffer_of; cbn [objects]. rewrite Ho.
    unfold Erase.
    erewrite bind_ret_step by (by eapply get_vector_step).
    unfold in_range, begin_, end_, GetAddress, ptr_add, distance; cbn [fst snd].
    rewrite Hsz, length_app. cbn [length].
    rewrite bool_decide_eq_true_2 by done.
    destruct (Z.leb_spec 0 (Z.of_nat (length xs))); [|lia].
    destruct (Z.ltb_spec (Z.of_nat (length xs)) (Z.of_nat (length xs + 1))); [|lia].
    erewrite bind_ret_step by reflexivity.
    replace (Z.to_nat (0 + Z.of_nat (length xs + 1) - (Z.of_nat (length xs) + 1))) with 0%nat by lia.
    cbn [std_move].
    erewrite bind_ret_step by reflexivity.
    by erewrite bind_ret_step by exact Hrun.
  - rewrite <- Hbuf. by eapply holds_end.
Qed.

Lemma load_released h o p l lc z :
  h !! lc = Some None → load (Some lc, z) (World h o p l) = None.
Proof. intros Hb. unfold load, get_slot; cbn [heap fst snd]. by rewrite Hb. Qed.

(** X24.  Growth moves the elements to a fresh block and releases the
    old one: after a [Reserve] beyond the capacity, and after a
    [PushBack] on a full vector, the elements are read at the same
    indices from the new [begin()], while a position obtained before
    the call designates released storage and reading through it is
    undefined. *)
Theorem growth_invalidates_old_positions w this xs cap :
  holds w this xs cap → plan w = [] → xs ≠ [] →
  (∀ n, cap < n → n * Z.pos sizeof < size_t_modulus →
     ∃ w', Reserve this n w = Some (Ret tt, w') ∧
           ∀ (i : nat) x, xs !! i = Some x →
             load (buffer_of w' this, Z.of_nat i) w' = Some (Ret x, w') ∧
             load (buffer_of w this, Z.of_nat i) w' = None) ∧
  (∀ y, Z.of_nat (length xs) = cap → 2 * cap * Z.pos sizeof < size_t_modulus →
     ∃ w', PushBack this y w = Some (Ret tt, w') ∧
           ∀ (i : nat) x, xs !! i = Some x →
             load (buffer_of w' this, Z.of_nat i) w' = Some (Ret x, w') ∧
             load (buffer_of w this, Z.of_nat i) w' = None).
Proof.
  intros Hh Hp Hne.
  assert (Hpos : 0 < Z.of_nat (length xs)) by (destruct xs; [done|simpl; lia]).
  split.
  - intros n Hn Hfit.
    destruct (Reserve_run w this xs cap n Hh Hn Hfit) as (r & w' & Hrun & Hr & Hok).
    destruct (Hok Hp) as [-> _]. destruct Hr as (Hh' & _).
    exists w'. split; [done|]. intros i x Hx. split; [by eapply holds_load|].
    destruct w as [h o p l]. destruct Hh as (v & Ho & Hsz & Hc & Hle & Hbytes & Hbuf).
    destruct v as [[buf c] sz]. cbn [data_ size_ buffer_ capacity_ heap objects log plan] in *.
    subst sz c p. destruct buf as [lold|]; [|lia]. destruct Hbuf as [_ Hb].
    destruct (Reserve_grow_run h o [] l this lold cap xs n)
      as (r & h' & o' & p' & l' & Hrun' & Hr' & Hok'); [done..|].
    destruct (Hok' eq_refl) as [-> _]. destruct Hr' as (-> & _).
    rewrite Hrun in Hrun'. injection Hrun' as ->.
    unfold buffer_of; cbn [objects]. rewrite Ho; cbn [data_ buffer_].
    apply load_released. rewrite lookup_app_l by (rewrite length_insert; by eapply lookup_lt_Some).
    apply list_lookup_insert_eq. by eapply lookup_lt_Some.
  - intros y Hfull Hfit.
    assert (Hg : grown (Z.of_nat (length xs)) cap = 2 * cap).
    { unfold grown. destruct (Z.ltb_spec (Z.of_nat (length xs)) cap); lia. }
    destruct (PushBack_run w this xs cap y Hh Hp) as (w' & Hrun & Hh' & _); [by rewrite Hg|].
    exists w'. split; [done|]. intros i x Hx. split.
    { eapply holds_load; [exact Hh'|]. by apply lookup_app_l_Some. }
    destruct w as [h o p l]. destruct Hh as (v & Ho & Hsz & Hc & Hle & Hbytes & Hbuf).
    destruct v as [[buf c] sz]. cbn [data_ size_ buffer_ capacity_ heap objects log plan] in *.
    subst sz c p. destruct buf as [lold|]; [|lia]. destruct Hbuf as [_ Hb].
    pose proof (Emplace_grow_step h o l this lold cap xs [] (lvalue y)) as Hstep.
    cbn zeta in Hstep. rewrite app_nil_r in Hstep.
    specialize (Hstep Ho Hb Hfull ltac:(lia) Hfit).
    unfold PushBack, EmplaceBack in Hrun.
    erewrite bind_ret_step in Hrun.
    2:{ erewrite bind_ret_step by (by eapply get_vector_step).
        unfold end_, GetAddress, ptr_add; cbn [fst snd data_ buffer_ size_].
        rewrite Z.add_0_l. exact Hstep. }
    injection Hrun as <-.
    unfold buffer_of; cbn [objects]. rewrite Ho; cbn [data_ buffer_].
    apply load_released. rewrite lookup_app_l by (rewrite length_insert; by eapply lookup_lt_Some).
    apply list_lookup_insert_eq. by eapply lookup_lt_Some.
Qed.

End Proofs.

(** * Scenarios

    Concrete states on which the theorems above are exercised, and the
    inputs on which the code departs from the specification. *)

(** On a concrete state the invariant is checked by evaluation. *)
Ltac holds_by_evaluation :=
  eexists; split; [reflexivity|]; vm_compute; repeat split; congruence.



Lemma append_doubles_capacity_witness :
  (∃ this w1 caps w2,
     Vector_default (@empty_world Z) = Some (Ret this, w1) ∧
     append_all (ET := int_like) this [0; 1; 2; 3; 4] w1 = Some (Ret caps, w2) ∧
     Size this w2 = Some (Ret 5, w2) ∧
     elements w2 this = Some [0; 1; 2; 3; 4]) ∧
  (let w := one_vector (T := Z) [Some 1; Some 2] 2 [] in
   holds (ET := int_like) w 0 [1; 2] 2 ∧
   ∃ w', PushBack (ET := int_like) 0 3 w = Some (Ret tt, w') ∧
         Capacity 0 w' = Some (Ret 4, w')).
Proof.
  destruct (append_doubles_capacity (ET := int_like)) as [Hall Hone]. split.
  - destruct (Hall empty_world [0; 1; 2; 3; 4] eq_refl ltac:(by vm_compute))
      as (this & w1 & caps & w2 & H1 & H2 & H3 & H4 & _).
    by exists this, w1, caps, w2.
  - assert (holds (ET := int_like) (one_vector (T := Z) [Some 1; Some 2] 2 []) 0 [1; 2] 2) as Hh
      by holds_by_evaluation.
    split; [exact Hh|].
    destruct (Hone _ 0%nat [1; 2] 2 3 Hh eq_refl eq_refl ltac:(by vm_compute))
      as (w' & H1 & H2 & _).
    by exists w'.
Defined.



Lemma copy_is_independent_witness :
  let w := one_vector (T := Z) [Some 1; Some 2; None] 2 [] in
  holds (ET := copy_only) w 0 [1; 2] 3 ∧
  ∃ u w1,
    Vector_copy (ET := copy_only) 0 w = Some (Ret u, w1) ∧ u ≠ 0%nat ∧
    Capacity u w1 = Some (Ret 2, w1) ∧
    elements w1 u = Some [1; 2] ∧
    (∀ r w2,
       mutate_all (ET := copy_only) u
         [mut_PushBack 7; mut_store 0 9; mut_Erase 1; mut_Resize 6]
         (with_plan [false; false; true] w1) = Some (r, w2) →
       elements w2 0 = Some [1; 2]).
Proof.
  assert (holds (ET := copy_only) (one_vector (T := Z) [Some 1; Some 2; None] 2 []) 0 [1; 2] 3)
    as Hh by holds_by_evaluation.
  split; [exact Hh|].
  destruct (copy_is_independent (ET := copy_only) _ 0 [1; 2] 3 Hh eq_refl)
    as (u & w1 & H1 & H2 & _ & H3 & H4 & _ & H5 & _).
  exists u, w1. do 4 (split; [assumption|]).
  intros r w2 Hrun. exact (proj2 (H5 _ _ _ _ Hrun)).
Defined.

Lemma Erase_returns_next_witness :
  let w := one_vector (T := Z) [Some 5; Some 6; Some 7; None] 3 [] in
  holds (ET := int_like) w 0 [5; 6; 7] 4 ∧
  ∃ it w',
    Erase (ET := int_like) 0 (buffer_of w 0, 1) w = Some (Ret it, w') ∧
    elements w' 0 = Some [5; 7] ∧
    load it w' = Some (Ret 7, w').
Proof.
  assert (holds (ET := int_like) (one_vector (T := Z) [Some 5; Some 6; Some 7; None] 3 [])
            0 [5; 6; 7] 4) as Hh by holds_by_evaluation.
  split; [exact Hh|].
  destruct (Erase_returns_next (ET := int_like) _ 0 [5; 6; 7] 4 1 Hh eq_refl ltac:(simpl; lia))
    as (it & w' & first & H1 & H2 & _ & _ & H3 & _).
  exists it, w'. split; [exact H1|]. split; [exact H2|]. by apply H3.
Defined.

(** C1: the code departs from the specification.  A full vector of two
    elements of a copyable type is appended to, and the constructor of
    the new element throws after both elements were copied to the new
    storage: the new block is released, the two copies in it are never
    destroyed.  With a string-like type the two elements were moved
    instead, so the vector is left holding two emptied elements while
    the objects that took their contents vanish with the block. *)
Theorem Emplace_abandons_relocated_elements :
  (let w := one_vector (T := Z) [Some 1; Some 2] 2 [false; false; false; true] in
   let w' := World [Some [Some 1; Some 2]; None] (objects w) []
                   [New 4; CopyCtor; CopyCtor; Delete] in
   PushBack (ET := copy_only) 0 3 w = Some (Throw element_failure, w') ∧
   constructions (log w') = 2%nat ∧ destructions (log w') = 0%nat) ∧
  (let w := one_vector [Some (Some 1); Some (Some 2)] 2 [false; true] in
   let w' := World [Some [Some None; Some None]; None] (objects w) []
                   [New 4; MoveCtor; MoveCtor; Delete] in
   PushBack (ET := string_like) 0 (Some 3) w = Some (Throw element_failure, w') ∧
   elements w 0 = Some [Some 1; Some 2] ∧
   elements w' 0 = Some [None; None] ∧
   constructions (log w') = 2%nat ∧ destructions (log w') = 0%nat).
Proof. by vm_compute. Qed.

(** C2: the code departs from the specification.  Move-assigning a
    vector of two elements to a vector holding one element releases
    the block of the destination without destroying the element in it:
    the log shows the [operator delete] and no destructor call.  The
    rest of the property holds on this input. *)
Theorem move_assignment_skips_destructors :
  let w := two_vectors (T := option Z) [Some 10] [Some 20; Some 30] in
  let w' := World [None; Some [Some (Some 20); Some (Some 30)]]
                  [Some {| data_ := {| buffer_ := Some 1%nat; capacity_ := 2 |}; size_ := 2 |};
                   Some {| data_ := RawMemory_default; size_ := 0 |}]
                  [] [Delete] in
  operator_assign_move 0 1 w = Some (Ret tt, w') ∧
  elements w 0 = Some [Some 10] ∧
  destructions (log w') = 0%nat ∧
  elements w' 0 = Some [Some 20; Some 30] ∧
  elements w' 1 = Some [].
Proof. by vm_compute. Qed.

(** C8: the code departs from the specification.  An insertion at the
    front of a vector with spare capacity builds a new last element,
    then the first move assignment of the shift throws: the call leaves
    with [size_] still 2 and a live object in slot 2, so no sequence
    of elements describes the vector any more. *)
Theorem Emplace_leaves_object_beyond_size :
  let w := one_vector (T := Z) [Some 1; Some 2; None; None] 2 [false; false; true] in
  let w' := World [Some [Some 1; Some 2; Some 2; None]] (objects w) []
                  [CopyCtor; MoveCtor; Dtor] in
  (∃ xs, holds (ET := copy_only) w 0 xs 4) ∧
  Insert (ET := copy_only) 0 (Some 0%nat, 0) 7 w = Some (Throw element_failure, w') ∧
  Size 0 w' = Some (Ret 2, w') ∧
  get_slot w' (Some 0%nat, 2) = Some (Some 2) ∧
  ¬ ∃ xs cap, holds (ET := copy_only) w' 0 xs cap.
Proof.
  split; [exists [1; 2]; holds_by_evaluation|].
  split; [by vm_compute|]. split; [by vm_compute|]. split; [by vm_compute|].
  intros (xs & cap & v & Ho & Hsz & Hc & _ & _ & Hbuf).
  injection Ho as <-. cbn in Hsz, Hc, Hbuf. subst cap. destruct Hbuf as [_ Hb].
  injection Hb as Hb.
  destruct xs as [|x1 [|x2 [|x3 xs]]]; simpl in Hsz; try lia. by vm_compute in Hb.
Qed.

(** ** The further properties on concrete states *)

Lemma PopBack_removes_last_witness :
  let w := one_vector (T := Z) [Some 1; Some 2; None] 2 [true] in
  holds (ET := copy_only) w 0 [1; 2] 3 ∧
  ∃ w', PopBack 0 w = Some (Ret tt, w') ∧ elements w' 0 = Some [1] ∧ log w' = [Dtor].
Proof.
  assert (holds (ET := copy_only) (one_vector (T := Z) [Some 1; Some 2; None] 2 [true])
            0 [1; 2] 3) as Hh by holds_by_evaluation.
  split; [exact Hh|].
  destruct (PopBack_removes_last (ET := copy_only) _ 0 [1; 2] 3 Hh) as [_ Hpop].
  destruct (Hpop [1] 2 eq_refl) as (w' & H1 & _ & H2 & _ & _ & H3).
  exists w'. split; [exact H1|]. split; [exact H2|exact H3].
Defined.


Lemma Resize_down_cannot_fail_witness :
  let w := one_vector (T := Z) [Some 1; Some 2; Some 3; None] 3 [true; true] in
  holds (ET := copy_only) w 0 [1; 2; 3] 4 ∧
  ∃ w', Resize (ET := copy_only) 0 1 w = Some (Ret tt, w') ∧
        elements w' 0 = Some [1] ∧ plan w' = [true; true].
Proof.
  assert (holds (ET := copy_only)
            (one_vector (T := Z) [Some 1; Some 2; Some 3; None] 3 [true; true]) 0 [1; 2; 3] 4)
    as Hh by holds_by_evaluation.
  split; [exact Hh|].
  destruct (Resize_down_cannot_fail (ET := copy_only) _ 0 [1; 2; 3] 4 1 Hh ltac:(simpl; lia))
    as (w' & H1 & H2 & _ & _ & H3 & _).
  exists w'. split; [exact H1|]. split; [exact H2|exact H3].
Defined.



Lemma Vector_copy_builds_or_cleans_up_witness :
  let w := one_vector (T := Z) [Some 1; Some 2; None] 2 [false; false; true] in
  holds (ET := copy_only) w 0 [1; 2] 3 ∧
  ∃ r w', Vector_copy (ET := copy_only) 0 w = Some (r, w') ∧
          holds (ET := copy_only) w' 0 [1; 2] 3.
Proof.
  assert (holds (ET := copy_only)
            (one_vector (T := Z) [Some 1; Some 2; None] 2 [false; false; true]) 0 [1; 2] 3)
    as Hh by holds_by_evaluation.
  split; [exact Hh|].
  destruct (Vector_copy_builds_or_cleans_up (ET := copy_only) _ 0 [1; 2] 3 Hh)
    as (r & w' & H1 & H2 & _).
  exists r, w'. split; [exact H1|exact H2].
Defined.

Lemma Vector_move_takes_storage_witness :
  let w := one_vector (T := option Z) [Some (Some 1); None] 1 [true] in
  holds (ET := string_like) w 0 [Some 1] 2 ∧
  ∃ u w', Vector_move 0 w = Some (Ret u, w') ∧
          holds (ET := string_like) w' u [Some 1] 2 ∧
          holds (ET := string_like) w' 0 [] 0.
Proof.
  assert (holds (ET := string_like)
            (one_vector (T := option Z) [Some (Some 1); None] 1 [true]) 0 [Some 1] 2)
    as Hh by holds_by_evaluation.
  split; [exact Hh|].
  destruct (Vector_move_takes_storage (ET := string_like) _ 0 [Some 1] 2 Hh)
    as (u & w' & H1 & _ & H2 & H3 & _).
  exists u, w'. split; [exact H1|]. split; [exact H2|exact H3].
Defined.


Lemma Swap_exchanges_witness :
  let w := two_vectors (T := Z) [1] [2; 3] in
  holds (ET := int_like) w 0 [1] 1 ∧ holds (ET := int_like) w 1 [2; 3] 2 ∧
  ∃ w', Swap 0 1 w = Some (Ret tt, w') ∧
        holds (ET := int_like) w' 0 [2; 3] 2 ∧ holds (ET := int_like) w' 1 [1] 1.
Proof.
  assert (holds (ET := int_like) (two_vectors (T := Z) [1] [2; 3]) 0 [1] 1) as Ha
    by holds_by_evaluation.
  assert (holds (ET := int_like) (two_vectors (T := Z) [1] [2; 3]) 1 [2; 3] 2) as Hb
    by holds_by_evaluation.
  split; [exact Ha|]. split; [exact Hb|].
  destruct (Swap_exchanges (ET := int_like) _ 0%nat 1%nat [1] 1 [2; 3] 2 ltac:(lia) Ha Hb)
    as (w' & H1 & H2 & H3 & _).
  exists w'. split; [exact H1|]. split; [exact H2|exact H3].
Defined.

Lemma Swap_twice_is_identity_witness :
  let w := two_vectors (T := Z) [1] [2; 3] in
  ∃ w', Swap 0 1 w = Some (Ret tt, w') ∧ Swap 0 1 w' = Some (Ret tt, w).
Proof.
  destruct (Swap_twice_is_identity (two_vectors (T := Z) [1] [2; 3]) 0%nat 1%nat _ _
              eq_refl eq_refl) as (w' & H1 & _ & H2 & _).
  exists w'. split; [exact H1|exact H2].
Defined.

Lemma move_assignment_transfers_storage_witness :
  let w := two_vectors (T := Z) [1] [2; 3] in
  holds (ET := int_like) w 0 [1] 1 ∧ holds (ET := int_like) w 1 [2; 3] 2 ∧
  ∃ w', operator_assign_move 0 1 w = Some (Ret tt, w') ∧
        holds (ET := int_like) w' 0 [2; 3] 2 ∧ holds (ET := int_like) w' 1 [] 0 ∧
        log w' = [Delete].
Proof.
  assert (holds (ET := int_like) (two_vectors (T := Z) [1] [2; 3]) 0 [1] 1) as Ha
    by holds_by_evaluation.
  assert (holds (ET := int_like) (two_vectors (T := Z) [1] [2; 3]) 1 [2; 3] 2) as Hb
    by holds_by_evaluation.
  split; [exact Ha|]. split; [exact Hb|].
  destruct (move_assignment_transfers_storage (ET := int_like) _ 0%nat 1%nat [1] 1 [2; 3] 2
              ltac:(lia) Ha Hb ltac:(intros lc H1 H2; vm_compute in H1, H2; congruence))
    as (w' & H1 & H2 & H3 & _ & _ & _ & H4).
  exists w'. split; [exact H1|]. split; [exact H2|]. split; [exact H3|exact H4].
Defined.

Lemma subscript_is_checked_against_size_witness :
  let w := one_vector (T := Z) [Some 5; Some 6; None] 2 [] in
  holds (ET := int_like) w 0 [5; 6] 3 ∧
  (∃ q, Vector_at 0 1 w = Some (Ret q, w) ∧ load q w = Some (Ret 6, w)) ∧
  Vector_at 0 2 w = None.
Proof.
  assert (holds (ET := int_like) (one_vector (T := Z) [Some 5; Some 6; None] 2 []) 0 [5; 6] 3)
    as Hh by holds_by_evaluation.
  split; [exact Hh|].
  destruct (subscript_is_checked_against_size (ET := int_like) _ 0 [5; 6] 3 Hh) as [Hin Hout].
  split; [exact (Hin 1%nat 6 eq_refl)|]. apply Hout. right. simpl. lia.
Defined.


Lemma positions_are_checked_witness :
  let w := one_vector (T := Z) [Some 5; Some 6; None] 2 [] in
  holds (ET := int_like) w 0 [5; 6] 3 ∧
  Emplace (ET := int_like) 0 (buffer_of w 0, 3) (lvalue 7) w = None ∧
  Erase (ET := int_like) 0 (buffer_of w 0, 2) w = None.
Proof.
  assert (holds (ET := int_like) (one_vector (T := Z) [Some 5; Some 6; None] 2 []) 0 [5; 6] 3)
    as Hh by holds_by_evaluation.
  split; [exact Hh|].
  destruct (positions_are_checked (ET := int_like) _ 0 [5; 6] 3 Hh) as (Hem & Her).
  split; [apply Hem|apply Her]; right; simpl; lia.
Defined.


Lemma appends_within_capacity_keep_storage_witness :
  let w := one_vector (T := Z) [Some 1; None; None; None] 1 [] in
  holds (ET := int_like) w 0 [1] 4 ∧
  ∃ w', append_all (ET := int_like) 0 [2; 3] w = Some (Ret [], w') ∧
        elements w' 0 = Some [1; 2; 3] ∧ buffer_of w' 0 = buffer_of w 0.
Proof.
  assert (holds (ET := int_like) (one_vector (T := Z) [Some 1; None; None; None] 1 []) 0 [1] 4)
    as Hh by holds_by_evaluation.
  split; [exact Hh|].
  destruct (appends_within_capacity_keep_storage (ET := int_like) _ 0 [1] 4 [2; 3] Hh eq_refl
              ltac:(simpl; lia)) as (w' & H1 & H2 & _ & H3 & _).
  exists w'. split; [exact H1|]. split; [exact H2|exact H3].
Defined.

Lemma EmplaceBack_keeps_vector_of_copied_type_witness :
  let w := one_vector (T := Z) [Some 1; Some 2] 2 [false; false; false; true] in
  holds (ET := copy_only) w 0 [1; 2] 2 ∧
  ∃ r w', EmplaceBack (ET := copy_only) 0 (lvalue 3) w = Some (r, w') ∧
          match r with
          | Ret _ => elements w' 0 = Some [1; 2; 3]
          | Throw _ => elements w' 0 = Some [1; 2]
          end.
Proof.
  assert (holds (ET := copy_only)
            (one_vector (T := Z) [Some 1; Some 2] 2 [false; false; false; true]) 0 [1; 2] 2)
    as Hh by holds_by_evaluation.
  split; [exact Hh|].
  destruct (EmplaceBack_keeps_vector_of_copied_type (ET := copy_only) _ 0 [1; 2] 2 (lvalue 3)
              Hh eq_refl eq_refl ltac:(by vm_compute)) as (r & w' & H1 & H2 & _).
  exists r, w'. split; [exact H1|]. destruct r.
  - exact (proj1 H2).
  - exact (proj1 (proj2 H2)).
Defined.

Lemma PushBack_move_of_nothrow_type_witness :
  let w := one_vector (T := option Z) [Some (Some 1)] 1 [true] in
  holds (ET := string_like) w 0 [Some 1] 1 ∧
  ∃ r w', PushBack_move (ET := string_like) 0 (Some 2) w = Some (r, w') ∧
          match r with
          | Ret _ => elements w' 0 = Some [Some 1; Some 2]
          | Throw e => e = bad_alloc ∧ heap w' = heap w ∧ objects w' = objects w
          end.
Proof.
  assert (holds (ET := string_like) (one_vector (T := option Z) [Some (Some 1)] 1 [true])
            0 [Some 1] 1) as Hh by holds_by_evaluation.
  split; [exact Hh|].
  destruct (PushBack_move_of_nothrow_type (ET := string_like) _ 0 [Some 1] 1 (Some 2)
              Hh eq_refl ltac:(by vm_compute)) as (r & w' & H1 & H2).
  exists r, w'. split; [exact H1|]. destruct r.
  - exact (proj1 H2).
  - destruct H2 as (H3 & _ & H4 & H5 & _). split; [exact H3|]. split; [exact H4|exact H5].
Defined.


Lemma lifetime_without_failure_leaks_nothing_witness :
  let ms := [mut_PushBack 1; mut_PushBack 2; mut_PushBack 3; mut_Erase 1] in
  mutate_all_list (ET := int_like) ms [] 0 = Some ([1; 3], 4) ∧
  ∃ this w1 w2 w3,
    Vector_default (@empty_world Z) = Some (Ret this, w1) ∧
    mutate_all (ET := int_like) this ms w1 = Some (Ret tt, w2) ∧
    Vector_dtor this w2 = Some (Ret tt, w3) ∧
    live_objects (log w3) = 0 ∧ live_blocks (log w3) = 0.
Proof.
  split; [by vm_compute|].
  destruct (lifetime_without_failure_leaks_nothing (ET := int_like) (@empty_world Z)
              [mut_PushBack 1; mut_PushBack 2; mut_PushBack 3; mut_Erase 1] [1; 3] 4
              eq_refl ltac:(by vm_compute))
    as (this & w1 & w2 & w3 & H1 & H2 & H3 & H4 & H5 & _).
  exists this, w1, w2, w3. split; [exact H1|]. split; [exact H2|]. split; [exact H3|].
  split; [exact H4|exact H5].
Defined.

Lemma copy_assignment_copies_elements_witness :
  let w := two_vectors (T := Z) [1] [2; 3] in
  holds (ET := copy_only) w 0 [1] 1 ∧ holds (ET := copy_only) w 1 [2; 3] 2 ∧
  ∃ w', operator_assign_copy (ET := copy_only) 0 1 w = Some (Ret tt, w') ∧
        elements w' 0 = Some [2; 3] ∧ elements w' 1 = Some [2; 3].
Proof.
  assert (holds (ET := copy_only) (two_vectors (T := Z) [1] [2; 3]) 0 [1] 1) as Ha
    by holds_by_evaluation.
  assert (holds (ET := copy_only) (two_vectors (T := Z) [1] [2; 3]) 1 [2; 3] 2) as Hb
    by holds_by_evaluation.
  split; [exact Ha|]. split; [exact Hb|].
  destruct (copy_assignment_copies_elements (ET := copy_only) _ 0%nat 1%nat [1] 1 [2; 3] 2
              ltac:(lia) Ha Hb ltac:(intros lc H1 H2; vm_compute in H1, H2; congruence) eq_refl)
    as (w' & H1 & H2 & H3 & _).
  exists w'. split; [exact H1|]. split; [exact H2|exact H3].
Defined.


Lemma Erase_of_last_is_PopBack_witness :
  let w := one_vector (T := Z) [Some 5; Some 6; None] 2 [true] in
  holds (ET := copy_only) w 0 [5; 6] 3 ∧
  ∃ w', PopBack 0 w = Some (Ret tt, w') ∧
        Erase (ET := copy_only) 0 (buffer_of w 0, 1) w = Some (Ret (buffer_of w 0, 1), w').
Proof.
  assert (holds (ET := copy_only) (one_vector (T := Z) [Some 5; Some 6; None] 2 [true])
            0 [5; 6] 3) as Hh by holds_by_evaluation.
  split; [exact Hh|].
  destruct (Erase_of_last_is_PopBack (ET := copy_only) _ 0 [5] 6 3 Hh) as (w' & H1 & H2 & _).
  exists w'. split; [exact H1|exact H2].
Defined.

Lemma growth_invalidates_old_positions_witness :
  let w := one_vector (T := Z) [Some 5; Some 6] 2 [] in
  holds (ET := int_like) w 0 [5; 6] 2 ∧
  ∃ w', Reserve (ET := int_like) 0 8 w = Some (Ret tt, w') ∧
        load (buffer_of w' 0, 1) w' = Some (Ret 6, w') ∧
        load (buffer_of w 0, 1) w' = None.
Proof.
  assert (holds (ET := int_like) (one_vector (T := Z) [Some 5; Some 6] 2 []) 0 [5; 6] 2)
    as Hh by holds_by_evaluation.
  split; [exact Hh|].
  destruct (growth_invalidates_old_positions (ET := int_like) _ 0 [5; 6] 2 Hh eq_refl
              ltac:(done)) as [Hres _].
  destruct (Hres 8 ltac:(lia) ltac:(by vm_compute)) as (w' & H1 & H2).
  exists w'. split; [exact H1|]. exact (H2 1%nat 6 eq_refl).
Defined.
